(** * Excel_to_Knowledgegraph: state management and data derivation

    A shallow embedding of the four subsystems the specification is
    about, each translated from its TypeScript source:

    - [History]    src/hooks/useHistoryState.ts
    - [Cache]      src/services/cacheService.ts
    - [Graph]      src/components/InteractiveGridView.tsx (handleSaveTags)
    - [Transform]  services/pythonService.ts (sortData)

    and of the code around them:

    - [Logging]       src/services/loggingService.ts
    - [PythonService] services/pythonService.ts (filterData,
                      createPivotTable)
    - [App]           src/App.tsx (handleRenameNode, handleCreateLink)
    - [GridView]      src/components/InteractiveGridView.tsx (tag colours,
                      tag editor, sheets of the grid)
    - [ExcelParser]   src/services/excelParser.ts (the sheets of a
                      workbook)

    JavaScript strings are modelled as [string] (code units below 256),
    the numbers held by cells and nodes as [Z] (integer-valued numbers),
    the numbers of JSON values by the decimal numerals [JSON.stringify]
    writes for them, arrays as lists and objects as association lists
    in enumeration order. What the runtime computes on numbers (a sum,
    a quotient, the number a text stands for, a digest) is taken as a
    parameter. *)

From Stdlib Require Import ZArith Lia Bool Ascii String List Permutation.
From Stdlib Require Import Sorted DecimalString.
From Stdlib Require OrderedTypeEx DecimalPos DecimalZ.
From stdpp Require Import base list strings gmap.

Set Warnings "-register-all".

Local Open Scope string_scope.
Local Open Scope list_scope.

(* ===================================================================== *)
(** ** History: src/hooks/useHistoryState.ts *)
(* ===================================================================== *)

Module History.

(** [MAX_HISTORY_SIZE = 11]: 10 undo steps + 1 current state. *)
Definition MAX_HISTORY_SIZE : nat := 11.

Section Store.

(** The hook is generic in the state type [T]; the only thing it asks of
    a state is its [JSON.stringify] text, which belongs to the runtime
    and is taken as a parameter. *)
Context {T : Type}.
Variable JSON_stringify : T -> string.

(** The two [useState] cells of the hook. *)
Record HistoryState : Type := mkHistory {
  history : list T;
  currentIndex : nat
}.

(** [useState([initialState])], [useState(0)]. *)
Definition useHistoryState (initialState : T) : HistoryState :=
  {| history := [initialState]; currentIndex := 0 |}.

(** [history[currentIndex]]; [None] stands for [undefined]. *)
Definition currentState (s : HistoryState) : option T :=
  history s !! currentIndex s.

(** [currentIndex > 0]. *)
Definition canUndo (s : HistoryState) : bool :=
  Nat.ltb 0 (currentIndex s).

(** [currentIndex < history.length - 1]; on naturals the truncated
    subtraction agrees with the source, since no index is below 0. *)
Definition canRedo (s : HistoryState) : bool :=
  Nat.ltb (currentIndex s) (length (history s) - 1).

(** The argument of [setState]: a value, or a function of the previous
    state ([typeof newStateOrFn === 'function']). *)
Inductive StateOrFn : Type :=
  | Value (newState : T)
  | Updater (fn : T -> T).

(** [newHistory.slice(newHistory.length - MAX_HISTORY_SIZE)] when the
    length exceeds [MAX_HISTORY_SIZE], [newHistory] otherwise. *)
Definition slicedHistory (newHistory : list T) : list T :=
  if Nat.ltb MAX_HISTORY_SIZE (length newHistory)
  then drop (length newHistory - MAX_HISTORY_SIZE) newHistory
  else newHistory.

(** The last [n] entries of a list: what [slice(length - n)] keeps. *)
Definition lastn (n : nat) (l : list T) : list T := drop (length l - n) l.

(** The [newState] that [setState] computes from its argument. *)
Definition candidate (newStateOrFn : StateOrFn) (cur : T) : T :=
  match newStateOrFn with
  | Updater fn => fn cur
  | Value v => v
  end.

(** [setState]. The cursor of a store always lies inside its sequence
    (see [invariant_run]); for a cursor outside it, where the source
    would read [undefined], the model leaves the store alone. *)
Definition setState (s : HistoryState) (newStateOrFn : StateOrFn) : HistoryState :=
  match currentState s with
  | None => s
  | Some cur =>
      let newState := candidate newStateOrFn cur in
      (* Prevent adding identical state to history *)
      if String.eqb (JSON_stringify cur) (JSON_stringify newState) then s
      else
        let newHistory := take (currentIndex s + 1) (history s) ++ [newState] in
        let sliced := slicedHistory newHistory in
        {| history := sliced; currentIndex := length sliced - 1 |}
  end.

(** [resetState]. *)
Definition resetState (_ : HistoryState) (newState : T) : HistoryState :=
  {| history := [newState]; currentIndex := 0 |}.

(** [undo]: [setCurrentIndex(prevIndex => prevIndex - 1)] under [canUndo]. *)
Definition undo (s : HistoryState) : HistoryState :=
  if canUndo s
  then {| history := history s; currentIndex := currentIndex s - 1 |}
  else s.

(** [redo]: [setCurrentIndex(prevIndex => prevIndex + 1)] under [canRedo]. *)
Definition redo (s : HistoryState) : HistoryState :=
  if canRedo s
  then {| history := history s; currentIndex := currentIndex s + 1 |}
  else s.

(** The operations a caller can perform on a store, one per render. *)
Inductive Op : Type :=
  | OpSet (a : StateOrFn)
  | OpUndo
  | OpRedo
  | OpReset (v : T).

Definition step (s : HistoryState) (o : Op) : HistoryState :=
  match o with
  | OpSet a => setState s a
  | OpUndo => undo s
  | OpRedo => redo s
  | OpReset v => resetState s v
  end.

(** A store after [init] followed by a sequence of operations. *)
Definition run (initialState : T) (ops : list Op) : HistoryState :=
  fold_left step ops (useHistoryState initialState).

(** The shape every store has: between 1 and 11 snapshots, cursor inside. *)
Definition invariant (s : HistoryState) : Prop :=
  1 <= length (history s) <= MAX_HISTORY_SIZE /\
  currentIndex s < length (history s).

(** [n] successive calls of [undo]. *)
Fixpoint undo_n (n : nat) (s : HistoryState) : HistoryState :=
  match n with
  | O => s
  | S k => undo_n k (undo s)
  end.

(** [n] successive calls of [redo]. *)
Fixpoint redo_n (n : nat) (s : HistoryState) : HistoryState :=
  match n with
  | O => s
  | S k => redo_n k (redo s)
  end.

(** Successive [setState(v)] calls with plain values. *)
Definition set_all (s : HistoryState) (vs : list T) : HistoryState :=
  fold_left (fun st v => setState st (Value v)) vs s.

(** Every value of the list differs (by its JSON text) from the one
    before it, starting from [prev]: each [setState] is a real change. *)
Fixpoint each_differs (prev : T) (vs : list T) : Prop :=
  match vs with
  | [] => True
  | v :: vs' => JSON_stringify prev <> JSON_stringify v /\ each_differs v vs'
  end.

End Store.

Arguments HistoryState : clear implicits.
Arguments StateOrFn : clear implicits.
Arguments Op : clear implicits.

(** Concrete stores of natural numbers, compared by their decimal text. *)
Definition nat_text (n : nat) : string :=
  NilEmpty.string_of_uint (Nat.to_uint n).

Definition eleven : list nat := [1; 2; 3; 4; 5; 6; 7; 8; 9; 10; 11]%nat.

End History.

(* ===================================================================== *)
(** ** JavaScript string primitives used by the sources *)
(* ===================================================================== *)

Module JS.

(** [String.prototype.toLowerCase] on one code unit below 256:
    [A-Z] and the Latin-1 capitals U+00C0..U+00DE (U+00D7, the
    multiplication sign, excepted) move up by 32. *)
Definition lower_unit (c : ascii) : ascii :=
  let n := nat_of_ascii c in
  if (Nat.leb 65 n && Nat.leb n 90)
     || (Nat.leb 192 n && Nat.leb n 222 && negb (Nat.eqb n 215))
  then ascii_of_nat (n + 32)
  else c.

Fixpoint toLowerCase (s : string) : string :=
  match s with
  | EmptyString => EmptyString
  | String c s' => String (lower_unit c) (toLowerCase s')
  end.

(** The regular-expression class [\s] on code units below 256: TAB, LF,
    VT, FF, CR, SPACE and the no-break space U+00A0. *)
Definition is_whitespace (c : ascii) : bool :=
  let n := nat_of_ascii c in
  (Nat.leb 9 n && Nat.leb n 13) || Nat.eqb n 32 || Nat.eqb n 160.

(** [s.replace(/\s/g, '_')]. *)
Fixpoint replace_whitespace (s : string) : string :=
  match s with
  | EmptyString => EmptyString
  | String c s' =>
      String (if is_whitespace c then "_"%char else c) (replace_whitespace s')
  end.

(** [Array.prototype.includes] on an array of strings. *)
Definition includes (l : list string) (x : string) : bool :=
  existsb (String.eqb x) l.

(** A [string | number] value of a cell or a node. The numbers are the
    integers: with strings they are the values that the deep copy
    [JSON.parse(JSON.stringify(v))] returns unchanged. *)
Inductive Scalar : Type :=
  | Str (s : string)
  | Num (n : Z).

(** [String(v)]: a string is itself, a number its decimal text (the
    text JavaScript gives every integer of magnitude below [10^21]). *)
Definition String_ (v : Scalar) : string :=
  match v with
  | Str s => s
  | Num n => NilZero.string_of_int (Z.to_int n)
  end.

(** [Array.prototype.sort(comparefn)]. ECMAScript requires the sort to
    be stable: an element moves in front of another only when
    [comparefn] says so. It is modelled as the stable insertion sort:
    each element in turn goes in front of the first element already
    placed that it compares below ([comparefn(x, y) < 0]), at the end
    when there is none. *)
Fixpoint insert {A : Type} (comparefn : A -> A -> Z) (x : A) (placed : list A) : list A :=
  match placed with
  | [] => [x]
  | y :: ys =>
      if Z.ltb (comparefn x y) 0 then x :: y :: ys
      else y :: insert comparefn x ys
  end.

Definition sort {A : Type} (comparefn : A -> A -> Z) (l : list A) : list A :=
  fold_left (fun placed x => insert comparefn x placed) l [].

End JS.

(* ===================================================================== *)
(** ** Comparators as orders *)
(* ===================================================================== *)

Module Order.

Section Comparator.

Context {A : Type}.
Variable cmp : A -> A -> Z.

(** [before a b]: the comparator puts [a] in front of [b]. *)
Definition before (a b : A) : Prop := (cmp a b < 0)%Z.

(** On the members of [l] the comparator is a strict total order. *)
Record strict_total_on (l : list A) : Prop := {
  sto_total : forall a b, In a l -> In b l -> a <> b -> before a b \/ before b a;
  sto_asym : forall a b, In a l -> In b l -> a <> b -> before a b -> before b a -> False;
  sto_trans : forall a b c, In a l -> In b l -> In c l ->
                before a b -> before b c -> before a c
}.

End Comparator.

End Order.

(* ===================================================================== *)
(** ** Graph: src/types.ts and handleSaveTags of
       src/components/InteractiveGridView.tsx *)
(* ===================================================================== *)

Module Graph.

Inductive NodeType : Type :=
  | Spreadsheet | Sheet | Table | Cell | Formula | Analysis | Tag | Row | Column.

(** [interface Node]; an optional field that is absent is [None]. *)
Record Node : Type := mkNode {
  node_id : string;
  node_type : NodeType;
  node_label : string;
  node_description : option string;
  node_tags : option (list string);
  node_formula : option string;
  node_value : option JS.Scalar;
  node_address : option string
}.

(** [interface Link]. *)
Record Link : Type := mkLink {
  link_id : string;
  link_source : string;
  link_target : string;
  link_label : string
}.

(** [interface KnowledgeGraph]. *)
Record KnowledgeGraph : Type := mkGraph {
  nodes : list Node;
  links : list Link
}.

(** [node.tags = v]: the node with its [tags] field replaced. *)
Definition set_tags (v : list string) (n : Node) : Node :=
  {| node_id := node_id n; node_type := node_type n; node_label := node_label n;
     node_description := node_description n; node_tags := Some v;
     node_formula := node_formula n; node_value := node_value n;
     node_address := node_address n |}.

(** [nodes.find(n => n.id === id)], with the position of the node found:
    the source keeps a reference to the object and writes through it. *)
Definition find_node (ns : list Node) (id : string) : option (nat * Node) :=
  list_find (fun n => node_id n = id) ns.

(** [`tag_${tagLabel.toLowerCase().replace(/\s/g, '_')}`]. *)
Definition tagId (tagLabel : string) : string :=
  "tag_" +:+ JS.replace_whitespace (JS.toLowerCase tagLabel).

(** The Tag node the loop creates: [{ id: tagId, type: 'Tag', label: tagLabel }]. *)
Definition tag_node (tagLabel : string) : Node :=
  {| node_id := tagId tagLabel; node_type := Tag; node_label := tagLabel;
     node_description := None; node_tags := None; node_formula := None;
     node_value := None; node_address := None |}.

(** The link the loop pushes:
    [{ id: `link_${nodeId}_${tagId}`, source: nodeId, target: tagId, label: 'HAS_TAG' }]. *)
Definition tag_link (nodeId tagLabel : string) : Link :=
  {| link_id := "link_" +:+ nodeId +:+ "_" +:+ tagId tagLabel;
     link_source := nodeId;
     link_target := tagId tagLabel;
     link_label := "HAS_TAG" |}.

(** The find-or-create of the loop body, on the node array alone. *)
Definition add_node (ns : list Node) (tagLabel : string) : list Node :=
  match find_node ns (tagId tagLabel) with
  | Some _ => ns
  | None => ns ++ [tag_node tagLabel]
  end.

(** One round of the [tagsToAdd.forEach] loop. *)
Definition add_tag (nodeId : string) (g : list Node * list Link) (tagLabel : string)
  : list Node * list Link :=
  (add_node (fst g) tagLabel, snd g ++ [tag_link nodeId tagLabel]).

(** One round of the [tagsToRemove.forEach] loop:
    [links.filter(l => !(l.source === nodeId && l.target === tagId))]. *)
Definition remove_tag (nodeId : string) (ls : list Link) (tagLabel : string) : list Link :=
  List.filter (fun l => negb (String.eqb (link_source l) nodeId
                              && String.eqb (link_target l) (tagId tagLabel))) ls.

(** [newTags.filter(t => !currentTags.includes(t))]. *)
Definition tagsToAdd (currentTags newTags : list string) : list string :=
  List.filter (fun t => negb (JS.includes currentTags t)) newTags.

(** [currentTags.filter(t => !newTags.includes(t))]. *)
Definition tagsToRemove (currentTags newTags : list string) : list string :=
  List.filter (fun t => negb (JS.includes newTags t)) currentTags.

(** The node array after the owner lookup, and the position of the
    owner in it: the node found, or the copy of the editor's node
    ([{ ...originalNodeFromState, tags: [] }]) pushed at the end. *)
Definition owner_slot (tagEditor_node : Node) (graph : KnowledgeGraph) (nodeId : string)
  : list Node * nat :=
  match find_node (nodes graph) nodeId with
  | Some (i, _) => (nodes graph, i)
  | None => (nodes graph ++ [set_tags [] tagEditor_node], length (nodes graph))
  end.

(** [handleSaveTags(nodeId, newTags)], given the node held by the
    [tagEditor] state and the [graph] prop; the result is the graph
    handed to [updateGraph]. The deep copy
    [JSON.parse(JSON.stringify(graph))] is the identity on values.
    [node] is a reference into the node array: the final
    [node.tags = newTags] writes at the owner's position. *)
Definition handleSaveTags (tagEditor_node : Node) (graph : KnowledgeGraph)
    (nodeId : string) (newTags : list string) : KnowledgeGraph :=
  let '(ns0, idx) := owner_slot tagEditor_node graph nodeId in
  let currentTags :=
    match ns0 !! idx with
    | Some node => default [] (node_tags node)
    | None => []
    end in
  let '(ns1, ls1) :=
    fold_left (add_tag nodeId) (tagsToAdd currentTags newTags) (ns0, links graph) in
  let ls2 := fold_left (remove_tag nodeId) (tagsToRemove currentTags newTags) ls1 in
  {| nodes := alter (set_tags newTags) idx ns1; links := ls2 |}.

(** The Save button of the tag editor: [onSave(node.id, tags)] with
    [node] the node held by the [tagEditor] state. *)
Definition saveTags (tagEditor_node : Node) (graph : KnowledgeGraph)
    (newTags : list string) : KnowledgeGraph :=
  handleSaveTags tagEditor_node graph (node_id tagEditor_node) newTags.

(** The [tags] field the source reads as [currentTags]: that of the
    first node with the owner's id, [[]] when there is none. *)
Definition owner_tags (g : KnowledgeGraph) (ownerId : string) : list string :=
  match find_node (nodes g) ownerId with
  | Some (_, n) => default [] (node_tags n)
  | None => []
  end.

(** The HAS_TAG links that leave the owner. *)
Definition has_tag_links (g : KnowledgeGraph) (ownerId : string) : list Link :=
  List.filter (fun l => String.eqb (link_source l) ownerId
                   && String.eqb (link_label l) "HAS_TAG") (links g).

(** The labels of the nodes those links lead to. *)
Definition reachable_tag_labels (g : KnowledgeGraph) (ownerId : string) : list string :=
  omap (fun l => (fun p => node_label (snd p)) <$> find_node (nodes g) (link_target l))
       (has_tag_links g ownerId).

(** Whether the [tagsToRemove] loop deletes a link: its source is the
    owner and its target the derived id of one of the labels. *)
Definition removed (nodeId : string) (labels : list string) (l : Link) : bool :=
  String.eqb (link_source l) nodeId
  && existsb (fun r => String.eqb (link_target l) (tagId r)) labels.

(** The nodes of a list that carry a given id. *)
Definition nodes_with_id (id : string) (ns : list Node) : list Node :=
  List.filter (fun n => String.eqb (node_id n) id) ns.

(** The owner's [tags] field agrees with its HAS_TAG links: the links
    lead exactly to the derived ids of the labels in the field. *)
Definition tags_agree (g : KnowledgeGraph) (ownerId : string) : Prop :=
  forall x, In x (map link_target (has_tag_links g ownerId))
            <-> In x (map tagId (owner_tags g ownerId)).

(** Every label of the list has its Tag node in the graph. *)
Definition tag_nodes_present (g : KnowledgeGraph) (labels : list string) : Prop :=
  forall t, In t labels -> is_Some (find_node (nodes g) (tagId t)).

(** A node that holds the derived id of one of the labels carries that
    label. *)
Definition labelled (ns : list Node) (labels : list string) : Prop :=
  forall n t, In n ns -> In t labels -> node_id n = tagId t -> node_label n = t.

(** Different labels of the list have different derived ids. *)
Definition distinct_ids (labels : list string) : Prop :=
  forall a b, In a labels -> In b labels -> tagId a = tagId b -> a = b.

(** A bare node, as [handleOpenTagEditor] makes one for a cell that has
    no node yet: [{ id, type, label, address, tags: [] }]. *)
Definition fresh_node (id : string) (ty : NodeType) (label address : string) : Node :=
  {| node_id := id; node_type := ty; node_label := label; node_description := None;
     node_tags := Some []; node_formula := None; node_value := None;
     node_address := Some address |}.

(** Sample graphs. [cellA1] is the node of cell A1 of "Sheet1". *)
Definition cellA1 : Node := fresh_node "cell_Sheet1_A1" Cell "Cell A1" "A1".

Definition empty_graph : KnowledgeGraph := {| nodes := []; links := [] |}.

(** A graph whose owner has a HAS_TAG link but an empty [tags] field. *)
Definition stale_graph : KnowledgeGraph :=
  {| nodes := [cellA1; tag_node "x"];
     links := [tag_link "cell_Sheet1_A1" "x"] |}.

(** A RELATED_TO link from the owner to one of its Tag nodes. *)
Definition related_link : Link :=
  {| link_id := "link_1"; link_source := "cell_Sheet1_A1";
     link_target := "tag_a"; link_label := "RELATED_TO" |}.

(** An owner tagged "a", with that extra link besides the HAS_TAG one. *)
Definition related_graph : KnowledgeGraph :=
  {| nodes := [set_tags ["a"] cellA1; tag_node "a"];
     links := [tag_link "cell_Sheet1_A1" "a"; related_link] |}.

(** The graph after tagging cell A1 with "a" and "b". *)
Definition tagged_graph : KnowledgeGraph := saveTags cellA1 empty_graph ["a"; "b"].

End Graph.

(* ===================================================================== *)
(** ** Transform: sortData of services/pythonService.ts *)
(* ===================================================================== *)

Module Transform.

(** [interface CellData]; [value: string | number | null], [None] being
    [null]. *)
Record CellData : Type := mkCell {
  address : string;
  value : option JS.Scalar;
  formula : option string
}.

(** [interface SheetData]. *)
Record SheetData : Type := mkSheet {
  name : string;
  data : list (list CellData)
}.

(** ['asc' | 'desc']. *)
Inductive Direction : Type := asc | desc.

(** [row[columnIndex]?.value]: [None] when the row has no such cell
    ([undefined]) and when the cell's value is [null]; the source treats
    the two alike. *)
Definition cell_value (columnIndex : nat) (row : list CellData) : option JS.Scalar :=
  match row !! columnIndex with
  | Some cell => value cell
  | None => None
  end.

(** [direction === 'asc' ? 1 : -1]. *)
Definition factor (direction : Direction) : Z :=
  match direction with
  | asc => 1
  | desc => -1
  end.

(** The body of the comparator, on the two values it reads. *)
Definition compare_values (direction : Direction) (valA valB : option JS.Scalar) : Z :=
  match valA, valB with
  | None, _ => 1 * factor direction
  | Some _, None => -1 * factor direction
  | Some (JS.Num x), Some (JS.Num y) => (x - y) * factor direction
  | Some va, Some vb =>
      if String.ltb (JS.String_ va) (JS.String_ vb) then -1 * factor direction
      else if String.ltb (JS.String_ vb) (JS.String_ va) then 1 * factor direction
      else 0
  end.

(** The comparator handed to [sort]:
    [valA = a[columnIndex]?.value], [valB = b[columnIndex]?.value]. *)
Definition compare_rows (columnIndex : nat) (direction : Direction)
    (a b : list CellData) : Z :=
  compare_values direction (cell_value columnIndex a) (cell_value columnIndex b).

(** [sortData]. The deep copy [JSON.parse(JSON.stringify(sheet))] is the
    identity on values; a sheet with no row at all is returned as it is
    ([if (!header) return newSheet]). *)
Definition sortData (sheet : SheetData) (columnIndex : nat) (direction : Direction)
  : SheetData :=
  match data sheet with
  | [] => sheet
  | header :: rows =>
      {| name := name sheet;
         data := header :: JS.sort (compare_rows columnIndex direction) rows |}
  end.

(** Whether a row has a value in the column. *)
Definition present (columnIndex : nat) (row : list CellData) : bool :=
  match cell_value columnIndex row with
  | Some _ => true
  | None => false
  end.

(** The column holds numbers only, or strings only, in the rows that
    have a value there. *)
Definition numeric_column (columnIndex : nat) (rows : list (list CellData)) : Prop :=
  Forall (fun r => forall s, cell_value columnIndex r <> Some (JS.Str s)) rows.

Definition text_column (columnIndex : nat) (rows : list (list CellData)) : Prop :=
  Forall (fun r => forall n, cell_value columnIndex r <> Some (JS.Num n)) rows.

(** Two values the comparator does not have to compare across types. *)
Definition same_kind (ka kb : option JS.Scalar) : Prop :=
  match ka, kb with
  | Some (JS.Str _), Some (JS.Num _) | Some (JS.Num _), Some (JS.Str _) => False
  | _, _ => True
  end.

(** Sample sheets: one column, header "Amount". *)
Definition cell (a : string) (v : option JS.Scalar) : CellData :=
  {| address := a; value := v; formula := None |}.

Definition amounts : SheetData :=
  {| name := "Sheet1";
     data := [ [cell "A1" (Some (JS.Str "Amount"))];
               [cell "A2" (Some (JS.Num 5))];
               [cell "A3" None] ] |}.

Definition three_amounts : SheetData :=
  {| name := "Sheet1";
     data := [ [cell "A1" (Some (JS.Str "Amount"))];
               [cell "A2" (Some (JS.Num 5))];
               [cell "A3" None];
               [cell "A4" (Some (JS.Num 2))] ] |}.

(** Two rows with the same amount, told apart by a second column. *)
Definition tied_amounts : SheetData :=
  {| name := "Sheet1";
     data := [ [cell "A1" (Some (JS.Str "Amount")); cell "B1" (Some (JS.Str "Who"))];
               [cell "A2" (Some (JS.Num 5)); cell "B2" (Some (JS.Str "x"))];
               [cell "A3" (Some (JS.Num 5)); cell "B3" (Some (JS.Str "y"))] ] |}.

End Transform.

(* ===================================================================== *)
(** ** JSON values and their text *)
(* ===================================================================== *)

Module JSON.

(** What [JSON.parse] returns and [JSON.stringify] walks. A number is
    an integer, a finite number that is not an integer, the negative
    zero, or one of the three values that are not finite. A finite
    number is given the way Number::toString takes it apart before it
    writes it, by the shortest decimal numeral that reads back as the
    number: an integer by the integer this numeral denotes (the number
    itself up to [2^53]), a number that is not an integer by its sign,
    the digits [d1...dk] of the numeral and the place [n] of the
    decimal point, the magnitude being [0.d1...dk * 10^n]. Two finite
    numbers are the same when their numerals are.
    The properties of an object are listed in enumeration order; an
    object has no two properties of one name. *)
Inductive number : Type :=
  | Finite (z : Z)
  | Fraction (negative : bool) (digits : Decimal.uint) (n : Z)
  | NegZero
  | NaN
  | PosInfinity
  | NegInfinity.

Inductive json : Type :=
  | JNull
  | JBool (b : bool)
  | JNum (n : number)
  | JStr (s : string)
  | JArr (items : list json)
  | JObj (props : list (string * json)).

(** Induction on JSON values, with the property at hand for every
    element of an array and every property value of an object. *)
Section Induction.

Variable P : json -> Prop.
Hypothesis Hnull : P JNull.
Hypothesis Hbool : forall b, P (JBool b).
Hypothesis Hnum : forall n, P (JNum n).
Hypothesis Hstr : forall s, P (JStr s).
Hypothesis Harr : forall items, Forall P items -> P (JArr items).
Hypothesis Hobj : forall props, Forall (fun p => P (snd p)) props -> P (JObj props).

Fixpoint json_induction (v : json) : P v :=
  match v with
  | JNull => Hnull
  | JBool b => Hbool b
  | JNum n => Hnum n
  | JStr s => Hstr s
  | JArr items =>
      Harr items
        ((fix all (l : list json) : Forall P l :=
            match l with
            | [] => @List.Forall_nil _ P
            | x :: rest => @List.Forall_cons _ P x rest (json_induction x) (all rest)
            end) items)
  | JObj props =>
      Hobj props
        ((fix all (l : list (string * json)) : Forall (fun p => P (snd p)) l :=
            match l with
            | [] => @List.Forall_nil _ _
            | p :: rest => @List.Forall_cons _ _ p rest (json_induction (snd p)) (all rest)
            end) props)
  end.

End Induction.

(** The double quote. *)
Definition dquote : ascii := "034"%char.

Definition hex_digit (n : nat) : ascii :=
  match n with
  | 0 => "0" | 1 => "1" | 2 => "2" | 3 => "3" | 4 => "4" | 5 => "5" | 6 => "6"
  | 7 => "7" | 8 => "8" | 9 => "9" | 10 => "a" | 11 => "b" | 12 => "c"
  | 13 => "d" | 14 => "e" | _ => "f"
  end%char.

(** QuoteJSONString on one code unit below 256: the quote, the
    backslash and the control characters are escaped. *)
Definition escape_unit (c : ascii) : list ascii :=
  let n := nat_of_ascii c in
  (if Nat.eqb n 34 then ["\"; dquote]
   else if Nat.eqb n 92 then ["\"; "\"]
   else if Nat.eqb n 8 then ["\"; "b"]
   else if Nat.eqb n 12 then ["\"; "f"]
   else if Nat.eqb n 10 then ["\"; "n"]
   else if Nat.eqb n 13 then ["\"; "r"]
   else if Nat.eqb n 9 then ["\"; "t"]
   else if Nat.ltb n 32
   then ["\"; "u"; "0"; "0"; hex_digit (n / 16); hex_digit (n mod 16)]
   else [c])%char.

(** A string between quotes. *)
Definition quote (s : string) : list ascii :=
  dquote :: flat_map escape_unit (list_ascii_of_string s) ++ [dquote].

(** The digits of a decimal numeral. *)
Definition uint_units (d : Decimal.uint) : list ascii :=
  list_ascii_of_string (NilEmpty.string_of_uint d).

(** The digits of a number that is not an integer are those of the
    shortest numeral: the first and the last of them are not 0, and the
    decimal point comes before the last. *)
Definition shortest (digits : Decimal.uint) (n : Z) : bool :=
  match uint_units digits with
  | [] => false
  | first :: _ => negb (Ascii.eqb first "0")
  end
  && match last (uint_units digits) with
     | Some c => negb (Ascii.eqb c "0")
     | None => false
     end
  && Z.ltb n (Z.of_nat (length (uint_units digits))).

(** The exponent part of a numeral: the letter [e], the sign, which is
    never left out, and the magnitude in decimal. *)
Definition exponent_units (e : Z) : list ascii :=
  "e"%char :: (if Z.ltb e 0 then "-"%char else "+"%char)
           :: uint_units (N.to_uint (Z.abs_N e)).

(** The parts of a numeral: the digits before the decimal point, the
    digits after it when there is one, the exponent when there is one. *)
Record numeral : Type := mkNumeral {
  whole : list ascii;
  fractional : option (list ascii);
  exponent : option Z
}.

Definition numeral_units (m : numeral) : list ascii :=
  whole m
  ++ match fractional m with
     | Some f => "."%char :: f
     | None => []
     end
  ++ match exponent m with
     | Some e => exponent_units e
     | None => []
     end.

(** The digits without the zeros at their end. *)
Fixpoint trim_zeros (ds : list ascii) : list ascii :=
  match ds with
  | [] => []
  | c :: rest =>
      match trim_zeros rest with
      | [] => if Ascii.eqb c "0" then [] else [c]
      | t :: ts => c :: t :: ts
      end
  end.

(** Number::toString on the digits of an integer. Up to 21 digits are
    written as they are; a longer integer is written with an exponent:
    its first digit, the others up to the last that is not 0 after a
    point, if there are others, and one less than the number of its
    digits as the exponent. *)
Definition integer_numeral (d : Decimal.uint) : numeral :=
  let ds := uint_units d in
  if Nat.leb (length ds) 21
  then {| whole := ds; fractional := None; exponent := None |}
  else
    let s := trim_zeros ds in
    {| whole := take 1 s;
       fractional := match drop 1 s with
                     | [] => None
                     | c :: rest => Some (c :: rest)
                     end;
       exponent := Some (Z.of_nat (length ds) - 1)%Z |}.

(** Number::toString on the digits and the place of a number that is
    not an integer. With the point among the first 21 digits the
    digits are written with it; with up to five zeros between the point
    and the first digit they are written after [0.] and these zeros;
    otherwise the first digit is followed by the others after a point,
    if there are others, and by the exponent [n - 1]. *)
Definition fraction_numeral (digits : Decimal.uint) (n : Z) : numeral :=
  let ds := uint_units digits in
  if Z.ltb 0 n && Z.leb n 21
  then {| whole := take (Z.to_nat n) ds;
          fractional := Some (drop (Z.to_nat n) ds);
          exponent := None |}
  else if Z.ltb (-6) n && Z.leb n 0
  then {| whole := ["0"%char];
          fractional := Some (repeat "0"%char (Z.to_nat (- n)) ++ ds);
          exponent := None |}
  else {| whole := take 1 ds;
          fractional := match drop 1 ds with
                        | [] => None
                        | d :: rest => Some (d :: rest)
                        end;
          exponent := Some (n - 1)%Z |}.

(** The text of a number: a minus sign when it is negative, and its
    numeral. The negative zero is written [0]; [NaN] and the infinities
    are written [null]. *)
Definition number_units (n : number) : list ascii :=
  match n with
  | Finite z =>
      match Z.to_int z with
      | Decimal.Pos d => numeral_units (integer_numeral d)
      | Decimal.Neg d => "-"%char :: numeral_units (integer_numeral d)
      end
  | Fraction negative digits n =>
      (if negative then ["-"%char] else []) ++ numeral_units (fraction_numeral digits n)
  | NegZero => ["0"%char]
  | NaN | PosInfinity | NegInfinity => list_ascii_of_string "null"
  end.

(** A number that is not an integer as a quotient of two integers, the
    second of them positive. *)
Definition fraction_quotient (negative : bool) (digits : Decimal.uint) (n : Z) : Z * Z :=
  let s := Z.of_uint digits in
  let k := Z.of_nat (length (uint_units digits)) in
  let signed := if negative then (- s)%Z else s in
  if Z.ltb n k then (signed, 10 ^ (k - n))%Z else (signed * 10 ^ (n - k), 1)%Z.

(** The texts of the elements, separated by commas. *)
Fixpoint join (parts : list (list ascii)) : list ascii :=
  match parts with
  | [] => []
  | [x] => x
  | x :: rest => x ++ ","%char :: join rest
  end.

(** The code units of the JSON text of a value. *)
Fixpoint units (v : json) : list ascii :=
  match v with
  | JNull => list_ascii_of_string "null"
  | JBool true => list_ascii_of_string "true"
  | JBool false => list_ascii_of_string "false"
  | JNum n => number_units n
  | JStr s => quote s
  | JArr items => "["%char :: join (map units items) ++ ["]"%char]
  | JObj props =>
      "{"%char
        :: join (map (fun p => quote (fst p) ++ ":"%char :: units (snd p)) props)
        ++ ["}"%char]
  end.

(** [JSON.stringify(v)]. *)
Definition stringify (v : json) : string := string_of_list_ascii (units v).

(** [o[k]] on the properties of an object. *)
Definition get (props : list (string * json)) (k : string) : option json :=
  snd <$> List.find (fun p => String.eqb (fst p) k) props.

(** An array index: the canonical decimal text of an integer below
    [2^32 - 1]. Properties with such names are enumerated first, in
    ascending order. *)
Definition array_index (k : string) : option N :=
  match NilEmpty.uint_of_string k with
  | Some d =>
      let n := N.of_uint d in
      if String.eqb (NilZero.string_of_uint (N.to_uint n)) k && N.ltb n 4294967295
      then Some n
      else None
  | None => None
  end.

(** A new property named by the array index [n] goes in front of the
    first property that is not an array index or is a larger one. *)
Fixpoint insert_indexed (n : N) (k : string) (v : json) (props : list (string * json))
  : list (string * json) :=
  match props with
  | [] => [(k, v)]
  | (k', v') :: rest =>
      match array_index k' with
      | Some m =>
          if N.ltb n m then (k, v) :: props
          else (k', v') :: insert_indexed n k v rest
      | None => (k, v) :: props
      end
  end.

(** [o[k] = v] on an ordinary object: an existing property keeps its
    place; a new one is enumerated after the others, array indices
    apart; assigning [__proto__] sets the prototype and makes no
    property. *)
Definition set (props : list (string * json)) (k : string) (v : json)
  : list (string * json) :=
  if String.eqb k "__proto__" then props
  else if existsb (fun p => String.eqb (fst p) k) props
  then map (fun p => if String.eqb (fst p) k then (k, v) else p) props
  else match array_index k with
       | Some n => insert_indexed n k v props
       | None => props ++ [(k, v)]
       end.

(** The comparison [Array.prototype.sort] uses when given no function:
    the order of strings by code units. *)
Definition compare_strings (x y : string) : Z :=
  if String.ltb x y then -1
  else if String.ltb y x then 1
  else 0.

(** A decimal digit. *)
Definition is_digit (c : ascii) : bool :=
  let n := nat_of_ascii c in Nat.leb 48 n && Nat.leb n 57.

(** A code unit that the text of a number may go on with: a digit, the
    decimal point or the letter of the exponent. *)
Definition number_unit (c : ascii) : bool :=
  is_digit c || Ascii.eqb c "." || Ascii.eqb c "e".

(** What may follow a number in a text: the end, or a code unit that no
    number goes on with. *)
Definition ends_number (rest : list ascii) : Prop :=
  match rest with
  | [] => True
  | c :: _ => number_unit c = false
  end.

(** What may follow a run of digits that is over: the end, or anything
    but a digit. *)
Definition ends_digits (rest : list ascii) : Prop :=
  match rest with
  | [] => True
  | c :: _ => is_digit c = false
  end.

(** Whether one of two lists of code units begins with the other. *)
Fixpoint prefix_either (l1 l2 : list ascii) : bool :=
  match l1, l2 with
  | [], _ | _, [] => true
  | c1 :: l1', c2 :: l2' => Ascii.eqb c1 c2 && prefix_either l1' l2'
  end.

(** The 256 code units. *)
Definition all_units : list ascii := map ascii_of_nat (seq 0 256).

(** The escape of a code unit does not begin with a quote, and neither
    begins nor is begun by the escape of another code unit. *)
Definition escape_checked (c1 : ascii) : bool :=
  match escape_unit c1 with
  | h :: _ => negb (Ascii.eqb h dquote)
  | [] => false
  end
  && forallb (fun c2 =>
       implb (prefix_either (escape_unit c1) (escape_unit c2)) (Ascii.eqb c1 c2))
       all_units.

(** What comes after the first of the elements joined by commas. *)
Fixpoint more {A : Type} (f : A -> list ascii) (l : list A) (rest : list ascii)
  : list ascii :=
  match l with
  | [] => rest
  | y :: l' => ","%char :: f y ++ more f l' rest
  end.

(** The text of one property of an object. *)
Definition property_units (p : string * json) : list ascii :=
  quote (fst p) ++ ":"%char :: units (snd p).

(** The text [f x] of [x] can be told from what follows it: when it
    begins the same code units as the text of some [y] satisfying [Q],
    each followed by something a number can end at, [x] is [y]. *)
Definition told_apart {A : Type} (f : A -> list ascii) (Q : A -> Prop) (x : A) : Prop :=
  forall y T1 T2, Q y -> f x ++ T1 = f y ++ T2 ->
                  ends_number T1 -> ends_number T2 -> x = y /\ T1 = T2.

(** The code unit a value's text begins with. *)
Definition begins (v : json) (c : ascii) : Prop :=
  match v with
  | JNull => c = "n"%char
  | JBool true => c = "t"%char
  | JBool false => c = "f"%char
  | JNum _ => c = "-"%char \/ is_digit c = true
  | JStr _ => c = dquote
  | JArr _ => c = "["%char
  | JObj _ => c = "{"%char
  end.

(** The whole part of a numeral is a run of digits that is not empty,
    its fractional part a run of digits. *)
Definition well_formed (m : numeral) : Prop :=
  whole m <> [] /\ Forall (fun c => is_digit c = true) (whole m)
  /\ match fractional m with
     | Some f => Forall (fun c => is_digit c = true) f
     | None => True
     end.

(** The sign and the numeral the text of a number is made of, for an
    integer and for a number that is not one. *)
Definition sign_and_numeral (x : number) : bool * numeral :=
  match x with
  | Fraction negative digits n => (negative, fraction_numeral digits n)
  | Finite z =>
      match Z.to_int z with
      | Decimal.Pos d => (false, integer_numeral d)
      | Decimal.Neg d => (true, integer_numeral d)
      end
  | _ => (false, {| whole := []; fractional := None; exponent := None |})
  end.

(** A number that its text tells from every other number: it is not
    [NaN], an infinity or the negative zero, which are written like
    [null] and like [0]. *)
Definition legible_number (n : number) : Prop :=
  match n with
  | Finite _ => True
  | Fraction _ digits n => shortest digits n = true
  | _ => False
  end.

(** A value all of whose numbers are. *)
Fixpoint legible (v : json) : Prop :=
  match v with
  | JNum n => legible_number n
  | JArr items => fold_right (fun x acc => legible x /\ acc) True items
  | JObj props => fold_right (fun p acc => legible (snd p) /\ acc) True props
  | _ => True
  end.

(** No object of the value has a property named [__proto__]. *)
Fixpoint no_proto (v : json) : Prop :=
  match v with
  | JArr items => fold_right (fun x acc => no_proto x /\ acc) True items
  | JObj props =>
      ~ In "__proto__" (map fst props)
      /\ fold_right (fun p acc => no_proto (snd p) /\ acc) True props
  | _ => True
  end.

(** No object of the value has two properties of one name. *)
Fixpoint unique_keys (v : json) : Prop :=
  match v with
  | JArr items => fold_right (fun x acc => unique_keys x /\ acc) True items
  | JObj props =>
      NoDup (map fst props)
      /\ fold_right (fun p acc => unique_keys (snd p) /\ acc) True props
  | _ => True
  end.

(** A value that its text to digest tells from every other, the order
    of the keys apart: its numbers are legible and none of its objects
    has a property named [__proto__], which the sorted copy would
    lack. *)
Definition plain (v : json) : Prop := legible v /\ unique_keys v /\ no_proto v.

(** Two values that hold the same records up to the order of the
    properties within each object, at every level. *)
Inductive key_perm : json -> json -> Prop :=
  | kp_null : key_perm JNull JNull
  | kp_bool b : key_perm (JBool b) (JBool b)
  | kp_num n : key_perm (JNum n) (JNum n)
  | kp_str s : key_perm (JStr s) (JStr s)
  | kp_arr items1 items2 :
      Forall2 key_perm items1 items2 -> key_perm (JArr items1) (JArr items2)
  | kp_obj props1 props1' props2 :
      Permutation props1 props1' ->
      Forall2 (fun p q => fst p = fst q /\ key_perm (snd p) (snd q)) props1' props2 ->
      key_perm (JObj props1) (JObj props2).

(** The number 0.5. *)
Definition half : number := Fraction false (Decimal.D5 Decimal.Nil) 0.

(** Two values that [JSON.stringify] writes alike, and one record
    with its properties in the two orders. *)
Definition holds_nan : json := JObj [("v", JNum NaN)].

Definition holds_infinity : json := JObj [("v", JNum PosInfinity)].

Definition a_then_b : json := JObj [("a", JNum (Finite 1)); ("b", JNum (Finite 2))].

Definition b_then_a : json := JObj [("b", JNum (Finite 2)); ("a", JNum (Finite 1))].

End JSON.

(* ===================================================================== *)
(** ** Cache: src/services/cacheService.ts *)
(* ===================================================================== *)

Module Cache.
Import JSON.

(** *** generateCacheKey *)

(** The replacer on an object:
    [Object.keys(value).sort().reduce((sorted, key) =>
       { sorted[key] = value[key]; return sorted; }, {})]. *)
Definition sort_keys (props : list (string * json)) : list (string * json) :=
  fold_left
    (fun sorted key =>
       match JSON.get props key with
       | Some v => JSON.set sorted key v
       | None => sorted
       end)
    (JS.sort compare_strings (map fst props))
    [].

(** The value [JSON.stringify(data, replacer)] writes: the replacer is
    called on every value the walk reaches, objects are replaced by
    their sorted copies, arrays and the rest are returned as they are.
    Sorting moves the property values without looking at them, so the
    values are replaced here before their object is sorted, which is
    the walk's result by a structural recursion. *)
Fixpoint replaced (v : json) : json :=
  match v with
  | JArr items => JArr (map replaced items)
  | JObj props => JObj (sort_keys (map (fun p => (fst p, replaced (snd p))) props))
  | _ => v
  end.

(** [dataString]: [JSON.stringify(data, replacer)]. *)
Definition dataString (data : json) : string := stringify (replaced data).

(** [new TextEncoder().encode(message)] for code units below 256:
    UTF-8, one byte below 128 and two bytes from there. *)
Definition utf8_unit (c : ascii) : list Byte.byte :=
  let n := nat_of_ascii c in
  if Nat.ltb n 128 then [byte_of_ascii c]
  else [byte_of_ascii (ascii_of_nat (192 + n / 64));
        byte_of_ascii (ascii_of_nat (128 + n mod 64))].

Definition encode (message : string) : list Byte.byte :=
  flat_map utf8_unit (list_ascii_of_string message).

(** [b.toString(16).padStart(2, '0')] for a byte. *)
Definition hex (b : Byte.byte) : string :=
  let n := nat_of_ascii (ascii_of_byte b) in
  String (hex_digit (n / 16)) (String (hex_digit (n mod 16)) EmptyString).

Section Digest.

(** [crypto.subtle.digest('SHA-256', bytes)], a primitive of the
    runtime. *)
Variable subtle_digest : list Byte.byte -> list Byte.byte.

(** [sha256(message)]. *)
Definition sha256 (message : string) : string :=
  String.concat "" (map hex (subtle_digest (encode message))).

(** [generateCacheKey(data)]. *)
Definition generateCacheKey (data : json) : string := sha256 (dataString data).

End Digest.

(** The JSON value of a table sequence ([SheetData[]]) as
    [parseExcelFile] builds it: [{ name, data }] with cells
    [{ address, value, formula }], a property whose value is
    [undefined] being left out as [JSON.stringify] leaves it out. *)
Definition scalar_json (v : option JS.Scalar) : json :=
  match v with
  | None => JNull
  | Some (JS.Str s) => JStr s
  | Some (JS.Num n) => JNum (Finite n)
  end.

Definition cell_json (c : Transform.CellData) : json :=
  JObj ([("address", JStr (Transform.address c));
         ("value", scalar_json (Transform.value c))]
        ++ match Transform.formula c with
           | Some f => [("formula", JStr f)]
           | None => []
           end).

Definition sheet_json (s : Transform.SheetData) : json :=
  JObj [("name", JStr (Transform.name s));
        ("data", JArr (map (fun row => JArr (map cell_json row)) (Transform.data s)))].

Definition sheets_json (data : list Transform.SheetData) : json :=
  JArr (map sheet_json data).

(** The rows of a sheet as [dataString] writes them. *)
Definition replaced_rows (rows : list (list Transform.CellData)) : json :=
  JArr (map (fun row => JArr (map (fun c => replaced (cell_json c)) row)) rows).

(** *** getCachedAnalysis *)

(** A computation that returns or throws. *)
Inductive outcome (A : Type) : Type :=
  | Returned (a : A)
  | Thrown.
Arguments Returned {A} a.
Arguments Thrown {A}.

Definition bind {A B : Type} (m : outcome A) (f : A -> outcome B) : outcome B :=
  match m with
  | Returned a => f a
  | Thrown => Thrown
  end.

(** [parsed.name] for a name that is neither [length] nor an index:
    a TypeError on [null], the property of an object, [undefined]
    ([None]) otherwise. *)
Definition property (parsed : json) (name : string) : outcome (option json) :=
  match parsed with
  | JNull => Thrown
  | JObj props => Returned (JSON.get props name)
  | _ => Returned None
  end.

(** Whether a value counts as true in a condition. *)
Definition truthy (v : option json) : bool :=
  match v with
  | None | Some JNull => false
  | Some (JBool b) => b
  | Some (JNum (Finite z)) => negb (Z.eqb z 0)
  | Some (JNum NaN) | Some (JNum NegZero) => false
  | Some (JNum _) => true
  | Some (JStr s) => negb (String.eqb s "")
  | Some (JArr _) | Some (JObj _) => true
  end.

(** The shape the guard of [getCachedAnalysis] asks of a parsed entry:
    an object whose [metadata], [graph] and [sheets] all count as true. *)
Definition shaped (parsed : json) : bool :=
  match parsed with
  | JObj props =>
      truthy (JSON.get props "metadata") && truthy (JSON.get props "graph")
      && truthy (JSON.get props "sheets")
  | _ => false
  end.

Section Storage.

(** [JSON.parse]: [None] stands for the SyntaxError it throws. *)
Variable JSON_parse : string -> option json.

(** The body of the [try] block, given what [localStorage] holds. *)
Definition try_block (localStorage : gmap string string) (key : string)
  : outcome (option json) :=
  match localStorage !! key with
  | None => Returned None
  | Some cachedItem =>
      if String.eqb cachedItem "" then Returned None
      else
        match JSON_parse cachedItem with
        | None => Thrown
        | Some parsed =>
            bind (property parsed "metadata") (fun metadata =>
            if truthy metadata then
              bind (property parsed "graph") (fun graph =>
              if truthy graph then
                bind (property parsed "sheets") (fun sheets =>
                if truthy sheets then Returned (Some parsed) else Returned None)
              else Returned None)
            else Returned None)
        end
  end.

(** [getCachedAnalysis(key)]: the value returned and [localStorage]
    afterwards; the [catch] block removes the item. *)
Definition getCachedAnalysis (localStorage : gmap string string) (key : string)
  : option json * gmap string string :=
  match try_block localStorage key with
  | Returned result => (result, localStorage)
  | Thrown => (None, delete key localStorage)
  end.

End Storage.

(** *** setCachedAnalysis *)

(** [analysisToCache]: [{ metadata: { key, generatedAt }, graph, sheets }],
    [generatedAt] being [new Date().toISOString()] when the function is
    called. The types of [graph] and [sheets] are erased at run time:
    they are the JSON values handed in. *)
Definition analysisToCache (key generatedAt : string) (graph sheets : json) : json :=
  JObj [("metadata", JObj [("key", JStr key); ("generatedAt", JStr generatedAt)]);
        ("graph", graph);
        ("sheets", sheets)].

Section Writing.

(** Whether the browser accepts a write: [localStorage.setItem] throws
    (QuotaExceededError) when it does not. *)
Variable quota_allows : gmap string string -> string -> string -> bool.

(** [localStorage.setItem(key, value)]. *)
Definition setItem (localStorage : gmap string string) (key value : string)
  : outcome (gmap string string) :=
  if quota_allows localStorage key value
  then Returned (<[key := value]> localStorage)
  else Thrown.

(** [setCachedAnalysis(key, graph, sheets)]: [localStorage] afterwards;
    the [catch] block logs the error and leaves the store alone. *)
Definition setCachedAnalysis (generatedAt : string) (localStorage : gmap string string)
    (key : string) (graph sheets : json) : gmap string string :=
  match setItem localStorage key (stringify (analysisToCache key generatedAt graph sheets)) with
  | Returned stored => stored
  | Thrown => localStorage
  end.

End Writing.

(** A browser with room for every write, and one with none. *)
Definition roomy (_ : gmap string string) (_ _ : string) : bool := true.

Definition full (_ : gmap string string) (_ _ : string) : bool := false.

(** A cache entry without its [metadata], and the one text a toy
    parser reads. *)
Definition no_metadata : json :=
  JObj [("graph", JObj [("nodes", JArr []); ("links", JArr [])]); ("sheets", JArr [])].

Definition no_metadata_text : string := stringify no_metadata.

Definition parse_only (text : string) (v : json) (s : string) : option json :=
  if String.eqb s text then Some v else None.

(** One sheet record written with its keys in the two orders. *)
Definition name_first : json :=
  JArr [JObj [("name", JStr "Sheet1"); ("data", JArr [])]].

Definition data_first : json :=
  JArr [JObj [("data", JArr []); ("name", JStr "Sheet1")]].

(** A one-cell table sequence holding a given value. *)
Definition one_cell (v : json) : json :=
  JArr [JObj [("name", JStr "Sheet1");
              ("data", JArr [JArr [JObj [("address", JStr "A1"); ("value", v)]]])]].

(** An analysis to store: a graph without nodes, for the sheet record
    [name_first]. *)
Definition no_nodes : json := JObj [("nodes", JArr []); ("links", JArr [])].

Definition sample_entry (key : string) : json :=
  analysisToCache key "2025-01-01T00:00:00.000Z" no_nodes name_first.

End Cache.

(* ===================================================================== *)
(** ** Logging: src/services/loggingService.ts *)
(* ===================================================================== *)

Module Logging.

(** [type LogLevel = 'info' | 'warn' | 'error']. *)
Inductive LogLevel : Type := level_info | level_warn | level_error.

(** [interface LogEntry]. *)
Record LogEntry : Type := mkLog {
  timestamp : string;
  level : LogLevel;
  message : string
}.

(** A listener is a function, told from the others by its identity (the
    [Set] of listeners compares references); it is taken to return
    normally and not to call the service back. *)
Definition LogListener : Type := nat.

(** What a call makes visible outside the service: a listener called
    with a copy of the logs, a line written to the console. *)
Inductive Effect : Type :=
  | Notified (listener : LogListener) (logs : list LogEntry)
  | Console (level : LogLevel) (text : string).

(** The private fields [logs] and [listeners]; the [Set] is the list of
    its members in insertion order. *)
Record LoggingService : Type := mkService {
  logs : list LogEntry;
  listeners : list LogListener
}.

(** [private maxLogs = 200]. *)
Definition maxLogs : nat := 200.

(** [export const logger = new LoggingService()]. *)
Definition logger : LoggingService := {| logs := []; listeners := [] |}.

(** [notify()]: [this.listeners.forEach(listener => listener([...this.logs]))]. *)
Definition notify (this : LoggingService) : list Effect :=
  map (fun listener => Notified listener (logs this)) (listeners this).

(** [addLog(level, message)]; [now] is [new Date().toLocaleTimeString()]
    when the method is called. *)
Definition addLog (this : LoggingService) (level : LogLevel) (message now : string)
  : LoggingService * list Effect :=
  let newLog := {| timestamp := now; level := level; message := message |} in
  (* Add to the beginning of the array to show newest first *)
  let logs1 := newLog :: logs this in
  let logs2 := if Nat.ltb maxLogs (length logs1) then take maxLogs logs1 else logs1 in
  let this' := {| logs := logs2; listeners := listeners this |} in
  (this', notify this').

(** [this.listeners.add(listener)] and [this.listeners.delete(listener)]. *)
Definition Set_add (listener : LogListener) (members : list LogListener) : list LogListener :=
  if existsb (Nat.eqb listener) members then members else members ++ [listener].

Definition Set_delete (listener : LogListener) (members : list LogListener)
  : list LogListener :=
  List.filter (fun member => negb (Nat.eqb listener member)) members.

(** [subscribe(listener)]: the listener is notified at once with the
    current logs; the function returned calls [unsubscribe(listener)]. *)
Definition subscribe (this : LoggingService) (listener : LogListener)
  : LoggingService * list Effect :=
  ({| logs := logs this; listeners := Set_add listener (listeners this) |},
   [Notified listener (logs this)]).

(** [unsubscribe(listener)]. *)
Definition unsubscribe (this : LoggingService) (listener : LogListener)
  : LoggingService * list Effect :=
  ({| logs := logs this; listeners := Set_delete listener (listeners this) |}, []).

(** [getLogs()]. *)
Definition getLogs (this : LoggingService) : list LogEntry := logs this.

(** [log(message)]. *)
Definition log (this : LoggingService) (message now : string)
  : LoggingService * list Effect :=
  let '(this', notified) := addLog this level_info message now in
  (this', notified ++ [Console level_info ("[INFO] " +:+ message)]).

(** [warn(message)]. *)
Definition warn (this : LoggingService) (message now : string)
  : LoggingService * list Effect :=
  let '(this', notified) := addLog this level_warn message now in
  (this', notified ++ [Console level_warn ("[WARN] " +:+ message)]).

(** [error(message, error?)]; [Some details] is an [error] that is an
    instance of [Error], with its message. *)
Definition error (this : LoggingService) (message : string) (error : option string)
    (now : string) : LoggingService * list Effect :=
  let fullMessage :=
    match error with
    | Some details => message +:+ " Details: " +:+ details
    | None => message
    end in
  let '(this', notified) := addLog this level_error fullMessage now in
  (this', notified ++ [Console level_error ("[ERROR] " +:+ fullMessage)]).

(** [clear()]. *)
Definition clear (this : LoggingService) : LoggingService * list Effect :=
  let this' := {| logs := []; listeners := listeners this |} in
  (this', notify this').

(** The calls a client can make, and a service going through a
    sequence of them, with everything the calls made visible, in order. *)
Inductive Call : Type :=
  | CallLog (message now : string)
  | CallWarn (message now : string)
  | CallError (message : string) (error : option string) (now : string)
  | CallClear
  | CallSubscribe (listener : LogListener)
  | CallUnsubscribe (listener : LogListener).

Definition call (this : LoggingService) (c : Call) : LoggingService * list Effect :=
  match c with
  | CallLog message now => log this message now
  | CallWarn message now => warn this message now
  | CallError message details now => error this message details now
  | CallClear => clear this
  | CallSubscribe listener => subscribe this listener
  | CallUnsubscribe listener => unsubscribe this listener
  end.

Fixpoint run (this : LoggingService) (calls : list Call) : LoggingService * list Effect :=
  match calls with
  | [] => (this, [])
  | c :: rest =>
      let '(this1, effects1) := call this c in
      let '(this2, effects2) := run this1 rest in
      (this2, effects1 ++ effects2)
  end.

(** The logs a listener was handed, in order. *)
Fixpoint heard (listener : LogListener) (effects : list Effect) : list (list LogEntry) :=
  match effects with
  | [] => []
  | Notified l snapshot :: rest =>
      if Nat.eqb l listener then snapshot :: heard listener rest else heard listener rest
  | Console _ _ :: rest => heard listener rest
  end.

(** The entries [addLog] makes of a list of messages, oldest first. *)
Definition add_all (this : LoggingService) (entries : list LogEntry) : LoggingService :=
  fold_left (fun s e => fst (addLog s (level e) (message e) (timestamp e))) entries this.

(** [n] messages at the same time of day. *)
Definition numbered (n : nat) : list LogEntry :=
  map (fun i => {| timestamp := "10:00:00"; level := level_info;
                   message := NilEmpty.string_of_uint (Nat.to_uint i) |})
      (seq 0 n).

End Logging.

(* ===================================================================== *)
(** ** PythonService: filterData and createPivotTable of
       services/pythonService.ts *)
(* ===================================================================== *)

Module PythonService.
Import Transform.

(** *** filterData *)

(** [cellValueNum === filterValueNum] and the order of a cell's number
    against the number of the filter, which need not be an integer and
    may be an infinity; the negative zero counts as 0 and every
    comparison with [NaN] is false. *)
Definition strictly_equal (x : Z) (y : JSON.number) : bool :=
  match y with
  | JSON.Finite z => Z.eqb x z
  | JSON.Fraction negative digits n =>
      let '(p, q) := JSON.fraction_quotient negative digits n in Z.eqb (x * q) p
  | JSON.NegZero => Z.eqb x 0
  | _ => false
  end.

Definition less_than (x : Z) (y : JSON.number) : bool :=
  match y with
  | JSON.Finite z => Z.ltb x z
  | JSON.Fraction negative digits n =>
      let '(p, q) := JSON.fraction_quotient negative digits n in Z.ltb (x * q) p
  | JSON.NegZero => Z.ltb x 0
  | JSON.PosInfinity => true
  | _ => false
  end.

Definition greater_than (x : Z) (y : JSON.number) : bool :=
  match y with
  | JSON.Finite z => Z.ltb z x
  | JSON.Fraction negative digits n =>
      let '(p, q) := JSON.fraction_quotient negative digits n in Z.ltb p (x * q)
  | JSON.NegZero => Z.ltb 0 x
  | JSON.NegInfinity => true
  | _ => false
  end.

(** [String.prototype.includes]: the search string begins at some
    position of the string. *)
Fixpoint String_includes (s searchString : string) : bool :=
  String.prefix searchString s
  || match s with
     | EmptyString => false
     | String _ rest => String_includes rest searchString
     end.

Section Filter.

(** [Number(value)] on the text typed into the filter form, a
    conversion of the runtime. *)
Variable Number_ : string -> JSON.number.

(** [!isNaN(Number(value)) ? Number(value) : null]. *)
Definition filterValueNum (value : string) : option JSON.number :=
  match Number_ value with
  | JSON.NaN => None
  | n => Some n
  end.

(** The callback of [newSheet.data.filter]. *)
Definition keeps (columnIndex : nat) (operator value : string) (row : list CellData)
  : bool :=
  match cell_value columnIndex row with
  | None => false
  | Some cellValue =>
      let cellValueNum :=
        match cellValue with
        | JS.Num n => Some n
        | JS.Str _ => None
        end in
      (* filterValueNum !== null && cellValueNum !== null ? ... : ... *)
      let both (numbers : Z -> JSON.number -> bool) (otherwise : bool) : bool :=
        match filterValueNum value, cellValueNum with
        | Some f, Some c => numbers c f
        | _, _ => otherwise
        end in
      if String.eqb operator "=="
      then both strictly_equal (String.eqb (JS.String_ cellValue) value)
      else if String.eqb operator "!="
      then both (fun c f => negb (strictly_equal c f))
                (negb (String.eqb (JS.String_ cellValue) value))
      else if String.eqb operator ">" then both greater_than false
      else if String.eqb operator "<" then both less_than false
      else if String.eqb operator ">="
      then both (fun c f => greater_than c f || strictly_equal c f) false
      else if String.eqb operator "<="
      then both (fun c f => less_than c f || strictly_equal c f) false
      else if String.eqb operator "contains"
      then String_includes (JS.toLowerCase (JS.String_ cellValue)) (JS.toLowerCase value)
      else false
  end.

(** [filterData]. The deep copy [JSON.parse(JSON.stringify(sheet))] is
    the identity on values; a sheet with no row at all is returned as it
    is ([if (!header) return newSheet]). *)
Definition filterData (sheet : SheetData) (columnIndex : nat) (operator value : string)
  : SheetData :=
  match data sheet with
  | [] => sheet
  | header :: rows =>
      {| name := name sheet;
         data := header :: List.filter (keeps columnIndex operator value) rows |}
  end.

End Filter.

(** *** createPivotTable *)

(** ['sum' | 'average' | 'count']. *)
Inductive Aggregation : Type := agg_sum | agg_average | agg_count.

(** [{ sum: number, count: number }]. *)
Record Totals : Type := mkTotals {
  sum : Z;
  count : Z
}.

(** The names every object inherits from [Object.prototype]: for these
    [pivot[key]] is a function (for [__proto__] the prototype itself)
    before anything is stored. *)
Definition Object_prototype : list string :=
  ["constructor"; "__defineGetter__"; "__defineSetter__"; "hasOwnProperty";
   "__lookupGetter__"; "__lookupSetter__"; "isPrototypeOf"; "propertyIsEnumerable";
   "toString"; "valueOf"; "__proto__"; "toLocaleString"].

Definition inherited (key : string) : bool :=
  existsb (String.eqb key) Object_prototype.

(** The own properties of the [pivot] object, in the order
    [Object.entries] lists them: array indices first, ascending, then
    the other names in the order they were created. *)
Definition own (pivot : list (string * Totals)) (key : string) : option Totals :=
  snd <$> List.find (fun p => String.eqb (fst p) key) pivot.

Fixpoint insert_indexed (n : N) (key : string) (values : Totals)
    (pivot : list (string * Totals)) : list (string * Totals) :=
  match pivot with
  | [] => [(key, values)]
  | (key', values') :: rest =>
      match JSON.array_index key' with
      | Some m =>
          if N.ltb n m then (key, values) :: pivot
          else (key', values') :: insert_indexed n key values rest
      | None => (key, values) :: pivot
      end
  end.

(** [pivot[key] = values] for a name that is not yet a property. *)
Definition create (pivot : list (string * Totals)) (key : string) (values : Totals)
  : list (string * Totals) :=
  match JSON.array_index key with
  | Some n => insert_indexed n key values pivot
  | None => pivot ++ [(key, values)]
  end.

Section Pivot.

(** [sum + value]: the addition of two numbers is the runtime's, in
    IEEE 754 double precision. It gives the nearest number that there
    is, which is the exact sum as long as that stays within [2^53] of
    zero and may be another number beyond. *)
Variable plus : Z -> Z -> Z.

(** [values.sum / values.count]: the quotient of two numbers is the
    runtime's and need not be an integer. *)
Variable quotient : Z -> Z -> JS.Scalar.

(** [pivot[key].sum += value; pivot[key].count += 1] on an own
    property. The count is the number of rows seen so far, far below
    [2^53]: adding 1 to it is exact. *)
Definition add (pivot : list (string * Totals)) (key : string) (value : Z)
  : list (string * Totals) :=
  map (fun p => if String.eqb (fst p) key
                then (fst p, {| sum := plus (sum (snd p)) value;
                                count := count (snd p) + 1 |})
                else p) pivot.

(** The body of [dataRows.forEach]. For an inherited name [!pivot[key]]
    is false and the two updates go to the inherited object: the pivot
    gets no property. *)
Definition accumulate (indexColumnIndex valueColumnIndex : nat)
    (pivot : list (string * Totals)) (row : list CellData) : list (string * Totals) :=
  match cell_value indexColumnIndex row, cell_value valueColumnIndex row with
  | Some indexKey, Some (JS.Num value) =>
      let key := JS.String_ indexKey in
      if inherited key then pivot
      else
        let pivot1 :=
          match own pivot key with
          | Some _ => pivot
          | None => create pivot key {| sum := 0; count := 0 |}
          end in
        add pivot1 key value
  | _, _ => pivot
  end.

(** [header[indexColumnIndex]?.value || 'Category']: the empty string
    and [0] give way to ['Category'] as [null] and [undefined] do. *)
Definition indexHeader (header : list CellData) (indexColumnIndex : nat) : JS.Scalar :=
  match cell_value indexColumnIndex header with
  | Some (JS.Str s) => if String.eqb s "" then JS.Str "Category" else JS.Str s
  | Some (JS.Num n) => if Z.eqb n 0 then JS.Str "Category" else JS.Num n
  | None => JS.Str "Category"
  end.

(** [`${header[valueColumnIndex]?.value}`]. *)
Definition interpolated (header : list CellData) (valueColumnIndex : nat) : string :=
  match header !! valueColumnIndex with
  | None => "undefined"
  | Some cell =>
      match value cell with
      | None => "null"
      | Some v => JS.String_ v
      end
  end.

Definition valueHeader (aggregation : Aggregation) (header : list CellData)
    (valueColumnIndex : nat) : string :=
  match aggregation with
  | agg_sum => "SUM of " +:+ interpolated header valueColumnIndex
  | agg_average => "AVERAGE of " +:+ interpolated header valueColumnIndex
  | agg_count => "COUNT of " +:+ interpolated header valueColumnIndex
  end.

(** [`A${i+2}`]. *)
Definition numbered_address (column : string) (i : nat) : string :=
  column +:+ NilZero.string_of_uint (Nat.to_uint (i + 2)).

Definition aggValue (aggregation : Aggregation) (values : Totals) : JS.Scalar :=
  match aggregation with
  | agg_sum => JS.Num (sum values)
  | agg_average =>
      if Z.ltb 0 (count values) then quotient (sum values) (count values) else JS.Num 0
  | agg_count => JS.Num (count values)
  end.

(** The row [Object.entries(pivot).forEach] pushes for the [i]-th entry. *)
Definition pivot_row (aggregation : Aggregation) (i : nat) (entry : string * Totals)
  : list CellData :=
  [ {| address := numbered_address "A" i; value := Some (JS.Str (fst entry));
       formula := None |};
    {| address := numbered_address "B" i; value := Some (aggValue aggregation (snd entry));
       formula := None |} ].

(** [createPivotTable]. On a sheet with no row at all [header] is
    [undefined] and [header[indexColumnIndex]] throws a TypeError. *)
Definition createPivotTable (sheet : SheetData) (indexColumnIndex valueColumnIndex : nat)
    (aggregation : Aggregation) : Cache.outcome SheetData :=
  match data sheet with
  | [] => Cache.Thrown
  | header :: dataRows =>
      let pivot := fold_left (accumulate indexColumnIndex valueColumnIndex) dataRows [] in
      Cache.Returned
        {| name := "Pivot of " +:+ name sheet;
           data :=
             [ {| address := "A1"; value := Some (indexHeader header indexColumnIndex);
                  formula := None |};
               {| address := "B1";
                  value := Some (JS.Str (valueHeader aggregation header valueColumnIndex));
                  formula := None |} ]
             :: imap (pivot_row aggregation) pivot |}
  end.

End Pivot.

(** What a data row contributes to the pivot: its key and its number,
    when it has both and the key is not an inherited name. *)
Definition contribution (indexColumnIndex valueColumnIndex : nat) (row : list CellData)
  : option (string * Z) :=
  match cell_value indexColumnIndex row, cell_value valueColumnIndex row with
  | Some indexKey, Some (JS.Num value) =>
      if inherited (JS.String_ indexKey) then None else Some (JS.String_ indexKey, value)
  | _, _ => None
  end.

Fixpoint contributions (indexColumnIndex valueColumnIndex : nat)
    (rows : list (list CellData)) : list (string * Z) :=
  match rows with
  | [] => []
  | row :: rest =>
      match contribution indexColumnIndex valueColumnIndex row with
      | Some c => c :: contributions indexColumnIndex valueColumnIndex rest
      | None => contributions indexColumnIndex valueColumnIndex rest
      end
  end.

(** The numbers contributed under a key, and their sum. *)
Definition under (key : string) (cs : list (string * Z)) : list Z :=
  map snd (List.filter (fun c => String.eqb (fst c) key) cs).

Definition total (zs : list Z) : Z := fold_right Z.add 0%Z zs.

(** The numbers a column holds, row by row. *)
Fixpoint column_numbers (columnIndex : nat) (rows : list (list CellData)) : list Z :=
  match rows with
  | [] => []
  | row :: rest =>
      match cell_value columnIndex row with
      | Some (JS.Num n) => n :: column_numbers columnIndex rest
      | _ => column_numbers columnIndex rest
      end
  end.

(** The names of a list in the order of their first occurrence. *)
Definition first_occurrences (keys : list string) : list string :=
  fold_left (fun seen k => if existsb (String.eqb k) seen then seen else seen ++ [k]) keys [].

(** One array index is below another. *)
Definition index_before (a b : string) : Prop :=
  match JSON.array_index a, JSON.array_index b with
  | Some m, Some n => (m < n)%N
  | _, _ => False
  end.

Definition is_index (key : string) : bool :=
  match JSON.array_index key with
  | Some _ => true
  | None => false
  end.

(** The pivot holds, for every key contributed so far and no other, the
    sum and the number of the contributions under it. *)
Record tallies (plus : Z -> Z -> Z) (pivot : list (string * Totals))
    (cs : list (string * Z)) : Prop := {
  tally_keys : NoDup (map fst pivot);
  tally_all : forall key, In key (map fst cs) -> In key (map fst pivot);
  tally_sum : forall key g, In (key, g) pivot ->
                sum g = fold_left plus (under key cs) 0%Z
                /\ count g = Z.of_nat (length (under key cs))
                /\ In key (map fst cs)
}.

(** The keys are the array indices in ascending order, then the other
    names in the order [named]. *)
Definition ordered (keys named : list string) : Prop :=
  exists indexed,
    keys = indexed ++ named
    /\ Forall (fun k => is_index k = true) indexed
    /\ Forall (fun k => is_index k = false) named
    /\ StronglySorted index_before indexed.

(** A sheet of amounts by year or region: two rows of 2023, a row
    without a category and one whose category is an inherited name. *)
Definition sales : SheetData :=
  {| name := "Sales";
     data := [ [cell "A1" (Some (JS.Str "Year")); cell "B1" (Some (JS.Str "Amount"))];
               [cell "A2" (Some (JS.Num 2023)); cell "B2" (Some (JS.Num 10))];
               [cell "A3" (Some (JS.Str "east")); cell "B3" (Some (JS.Num 5))];
               [cell "A4" (Some (JS.Num 2021)); cell "B4" (Some (JS.Num 7))];
               [cell "A5" (Some (JS.Num 2023)); cell "B5" (Some (JS.Num 1))];
               [cell "A6" None; cell "B6" (Some (JS.Num 100))];
               [cell "A7" (Some (JS.Str "toString")); cell "B7" (Some (JS.Num 3))] ] |}.

(** A sheet without any row. *)
Definition blank : SheetData := {| name := "Blank"; data := [] |}.

(** A quotient for the samples: the integer part. *)
Definition integer_part (x y : Z) : JS.Scalar := JS.Num (x / y).

(** The number nearest to an integer in IEEE 754 double precision: the
    integer itself up to [2^53]; beyond, the nearest multiple of the
    power of two that leaves 53 significant bits, the one with an even
    significand when two are as near. (Past the largest number, about
    [1.8e308], the runtime has an infinity instead.) *)
Definition nearest_double (z : Z) : Z :=
  let a := Z.abs z in
  if Z.leb a (2 ^ 53) then z
  else
    let unit := (2 ^ (Z.log2 a - 52))%Z in
    let q := (a / unit)%Z in
    let r := (a mod unit)%Z in
    let q' :=
      if Z.ltb (2 * r) unit then q
      else if Z.ltb unit (2 * r) then (q + 1)%Z
      else if Z.even q then q else (q + 1)%Z in
    (Z.sgn z * (q' * unit))%Z.

(** The sum for the samples: the number nearest to the exact sum. *)
Definition double_plus (x y : Z) : Z := nearest_double (x + y).

(** Three amounts of one year, the first of them [2^53]. *)
Definition large : SheetData :=
  {| name := "Large";
     data := [ [cell "A1" (Some (JS.Str "Year")); cell "B1" (Some (JS.Str "Amount"))];
               [cell "A2" (Some (JS.Num 2023)); cell "B2" (Some (JS.Num 9007199254740992))];
               [cell "A3" (Some (JS.Num 2023)); cell "B3" (Some (JS.Num 1))];
               [cell "A4" (Some (JS.Num 2023)); cell "B4" (Some (JS.Num 1))] ] |}.

(** A conversion for the sample filters: the decimal numerals, [NaN]
    for every other text. *)
Definition decimal (value : string) : JSON.number :=
  match NilZero.int_of_string value with
  | Some i => if String.eqb (NilZero.string_of_int i) value
              then JSON.Finite (Z.of_int i) else JSON.NaN
  | None => JSON.NaN
  end.

End PythonService.

(* ===================================================================== *)
(** ** App: the graph edits of src/App.tsx *)
(* ===================================================================== *)

Module App.
Import Graph.

(** [{ ...n, label: newLabel }]. *)
Definition set_label (newLabel : string) (n : Node) : Node :=
  {| node_id := node_id n; node_type := node_type n; node_label := newLabel;
     node_description := node_description n; node_tags := node_tags n;
     node_formula := node_formula n; node_value := node_value n;
     node_address := node_address n |}.

(** [handleRenameNode(nodeId, newLabel)]: the function handed to
    [setKnowledgeGraph], on the current graph ([None] is [null]). *)
Definition handleRenameNode (nodeId newLabel : string)
    (currentGraph : option KnowledgeGraph) : option KnowledgeGraph :=
  match currentGraph with
  | None => None
  | Some graph =>
      let newNodes :=
        map (fun n => if String.eqb (node_id n) nodeId then set_label newLabel n else n)
            (nodes graph) in
      Some {| nodes := newNodes; links := links graph |}
  end.

(** The link [handleCreateLink] makes; [now] is [Date.now()]. *)
Definition newLink (sourceId targetId : string) (now : Z) : Link :=
  {| link_id := "link_" +:+ sourceId +:+ "_" +:+ targetId +:+ "_"
                +:+ JS.String_ (JS.Num now);
     link_source := sourceId;
     link_target := targetId;
     link_label := "RELATED_TO" |}.

(** [handleCreateLink(sourceId, targetId)]: the function handed to
    [setKnowledgeGraph] (which also selects the new link). *)
Definition handleCreateLink (sourceId targetId : string) (now : Z)
    (currentGraph : option KnowledgeGraph) : option KnowledgeGraph :=
  match currentGraph with
  | None => None
  | Some graph =>
      Some {| nodes := nodes graph;
              links := links graph ++ [newLink sourceId targetId now] |}
  end.

(** A text for the states of a sample history: the labels of the
    nodes, or ["null"]. *)
Definition labels_text (state : option KnowledgeGraph) : string :=
  match state with
  | None => "null"
  | Some graph => String.concat "," (map node_label (nodes graph))
  end.

End App.

(* ===================================================================== *)
(** ** GridView: the rest of src/components/InteractiveGridView.tsx *)
(* ===================================================================== *)

Module GridView.
Import Graph Transform.

(** *** getTagColor *)

(** The conversion to a signed 32-bit integer that [<<] applies to its
    operand and to its result. *)
Definition ToInt32 (x : Z) : Z :=
  let m := (x mod 2 ^ 32)%Z in
  if Z.ltb m (2 ^ 31) then m else (m - 2 ^ 32)%Z.

(** [hash << 5]. *)
Definition shift_left_5 (hash : Z) : Z := ToInt32 (ToInt32 hash * 32).

(** One round of the loop: [tagName.charCodeAt(i) + ((hash << 5) - hash)].
    The sum and the difference are those of numbers, exact as long as
    they stay below [2^53]. *)
Definition hash_step (hash : Z) (c : ascii) : Z :=
  (Z.of_nat (nat_of_ascii c) + (shift_left_5 hash - hash))%Z.

Definition tag_hash (tagName : string) : Z :=
  fold_left hash_step (list_ascii_of_string tagName) 0%Z.

(** [hash % 360]: the remainder has the sign of [hash]. *)
Definition hue (tagName : string) : Z := Z.rem (tag_hash tagName) 360.

(** [getTagColor(tagName)]: [{ backgroundColor, color }]. *)
Definition getTagColor (tagName : string) : string * string :=
  ("hsl(" +:+ JS.String_ (JS.Num (hue tagName)) +:+ ", 70%, 80%)",
   "hsl(" +:+ JS.String_ (JS.Num (hue tagName)) +:+ ", 70%, 20%)").

(** The polynomial hash of the code units, with 31 as base. *)
Definition polynomial_hash (tagName : string) : Z :=
  fold_left (fun h c => (31 * h + Z.of_nat (nat_of_ascii c))%Z)
            (list_ascii_of_string tagName) 0%Z.

(** *** The node of a cell, a row, a column or a sheet *)

(** The string a [NodeType] is. *)
Definition type_name (type : NodeType) : string :=
  match type with
  | Spreadsheet => "Spreadsheet" | Sheet => "Sheet" | Table => "Table"
  | Cell => "Cell" | Formula => "Formula" | Analysis => "Analysis"
  | Tag => "Tag" | Row => "Row" | Column => "Column"
  end.

(** [`${type.toLowerCase()}_${name}_${address}`.replace(/\s/g, '_')]. *)
Definition element_id (type : NodeType) (name address : string) : string :=
  JS.replace_whitespace
    (JS.toLowerCase (type_name type) +:+ "_" +:+ name +:+ "_" +:+ address).

(** [getNode(type, address, name)] on the [graph] prop. *)
Definition getNode (graph : KnowledgeGraph) (type : NodeType) (address name : string)
  : option Node :=
  if String.eqb name "" then None
  else snd <$> find_node (nodes graph) (element_id type name address).

(** The node [handleOpenTagEditor(e, type, address)] puts in the
    [tagEditor] state, [sheetName] being the name of the current sheet:
    the node of the graph with the element's id, or a new one. *)
Definition handleOpenTagEditor (graph : KnowledgeGraph) (sheetName : string)
    (type : NodeType) (address : string) : Node :=
  let id := element_id type sheetName address in
  match find_node (nodes graph) id with
  | Some (_, node) => node
  | None =>
      let label :=
        match type with
        | Cell => "Cell " +:+ address
        | Row => "Row " +:+ address
        | Column => "Column " +:+ address
        | Sheet => sheetName
        | _ => ""
        end in
      {| node_id := id; node_type := type; node_label := label;
         node_description := None; node_tags := Some [];
         node_formula := None; node_value := None; node_address := Some address |}
  end.

(** Every link of the graph starts and ends at a node of the graph. *)
Definition attached (g : KnowledgeGraph) : Prop :=
  forall l, In l (links g) ->
    In (link_source l) (map node_id (nodes g))
    /\ In (link_target l) (map node_id (nodes g)).

(** *** The tag editor *)

(** [String.prototype.trim]: the white space and line terminators at
    both ends are dropped (for code units below 256 they are the
    characters [\s] matches). *)
Fixpoint trim_start (l : list ascii) : list ascii :=
  match l with
  | [] => []
  | c :: rest => if JS.is_whitespace c then trim_start rest else l
  end.

Definition trim_end (l : list ascii) : list ascii := rev (trim_start (rev l)).

Definition trim (s : string) : string :=
  string_of_list_ascii (trim_end (trim_start (list_ascii_of_string s))).

(** [addTag(tag)] on the [tags] state of the popover:
    [if (tag && !tags.includes(tag)) setTags([...tags, tag])]. *)
Definition addTag (tags : list string) (tag : string) : list string :=
  if negb (String.eqb tag "") && negb (JS.includes tags tag) then tags ++ [tag] else tags.

(** [removeTag(tag)]: [setTags(tags.filter(t => t !== tag))]. *)
Definition removeTag (tags : list string) (tag : string) : list string :=
  List.filter (fun t => negb (String.eqb t tag)) tags.

(** What the user can do in the popover: pick a suggestion
    ([addTag(tag)]), type a text and press Enter or the
    "Create new tag" button ([addTag(inputValue.trim())]), or press the
    remove button of a tag. *)
Inductive EditorAction : Type :=
  | Suggest (tag : string)
  | Typed (inputValue : string)
  | Remove (tag : string).

Definition edit (tags : list string) (a : EditorAction) : list string :=
  match a with
  | Suggest tag => addTag tags tag
  | Typed inputValue => addTag tags (trim inputValue)
  | Remove tag => removeTag tags tag
  end.

(** The [tags] state after a sequence of actions, from
    [useState(node.tags || [])]. *)
Definition edited (node : Node) (actions : list EditorAction) : list string :=
  fold_left edit actions (default [] (node_tags node)).

(** *** The sheets of the grid *)

(** The [gridData] and [activeSheet] states of the component. *)
Record GridState : Type := mkGrid {
  gridData : list SheetData;
  activeSheet : nat
}.

(** [useState(initialSheets)], [useState(0)]. *)
Definition initialState (initialSheets : list SheetData) : GridState :=
  {| gridData := initialSheets; activeSheet := 0 |}.

(** [gridData[activeSheet]]; [None] stands for [undefined]. *)
Definition currentSheet (st : GridState) : option SheetData :=
  gridData st !! activeSheet st.

Section Handlers.

(** The conversion, the sum and the quotient of the runtime, as in
    [PythonService]. *)
Variable Number_ : string -> JSON.number.
Variable plus : Z -> Z -> Z.
Variable quotient : Z -> Z -> JS.Scalar.

(** [handleSort], with the column and the direction read from the
    form. Without a current sheet [sortData(undefined, ...)] throws:
    [JSON.stringify(undefined)] is [undefined], which [JSON.parse]
    rejects. *)
Definition handleSort (st : GridState) (columnIndex : nat) (direction : Direction)
  : Cache.outcome GridState :=
  match currentSheet st with
  | None => Cache.Thrown
  | Some sheet =>
      let sortedSheet := sortData sheet columnIndex direction in
      Cache.Returned {| gridData := <[activeSheet st := sortedSheet]> (gridData st);
                        activeSheet := activeSheet st |}
  end.

(** [handleFilter]. *)
Definition handleFilter (st : GridState) (columnIndex : nat) (operator value : string)
  : Cache.outcome GridState :=
  match currentSheet st with
  | None => Cache.Thrown
  | Some sheet =>
      let filteredSheet := PythonService.filterData Number_ sheet columnIndex operator value in
      Cache.Returned {| gridData := <[activeSheet st := filteredSheet]> (gridData st);
                        activeSheet := activeSheet st |}
  end.

(** [handlePivot]: [setGridData([...gridData, pivotSheet])] and
    [setActiveSheet(gridData.length)]. *)
Definition handlePivot (st : GridState) (indexColumnIndex valueColumnIndex : nat)
    (aggregation : PythonService.Aggregation) : Cache.outcome GridState :=
  match currentSheet st with
  | None => Cache.Thrown
  | Some sheet =>
      Cache.bind
        (PythonService.createPivotTable plus quotient sheet indexColumnIndex
           valueColumnIndex aggregation)
        (fun pivotSheet =>
           Cache.Returned {| gridData := gridData st ++ [pivotSheet];
                             activeSheet := length (gridData st) |})
  end.

(** What the user can do with the sheets: submit one of the three
    forms, press "Reset Data" ([setGridData(initialSheets)]) or the tab
    of a sheet ([setActiveSheet(index)]). *)
Inductive Action : Type :=
  | Sort (columnIndex : nat) (direction : Direction)
  | Filter (columnIndex : nat) (operator value : string)
  | Pivot (indexColumnIndex valueColumnIndex : nat) (aggregation : PythonService.Aggregation)
  | ResetData
  | SelectSheet (index : nat).

(** The state after an action. Without a current sheet the component
    renders "No sheet data available." and none of the controls; a
    handler that throws sets no state; there is a tab for every sheet
    of [gridData] and no other. *)
Definition act (initialSheets : list SheetData) (st : GridState) (a : Action) : GridState :=
  let settled (o : Cache.outcome GridState) : GridState :=
    match o with
    | Cache.Returned st' => st'
    | Cache.Thrown => st
    end in
  match currentSheet st with
  | None => st
  | Some _ =>
      match a with
      | Sort columnIndex direction => settled (handleSort st columnIndex direction)
      | Filter columnIndex operator value =>
          settled (handleFilter st columnIndex operator value)
      | Pivot indexColumnIndex valueColumnIndex aggregation =>
          settled (handlePivot st indexColumnIndex valueColumnIndex aggregation)
      | ResetData => {| gridData := initialSheets; activeSheet := activeSheet st |}
      | SelectSheet index =>
          if Nat.ltb index (length (gridData st))
          then {| gridData := gridData st; activeSheet := index |}
          else st
      end
  end.

End Handlers.

End GridView.

(* ===================================================================== *)
(** ** ExcelParser: src/services/excelParser.ts *)
(* ===================================================================== *)

Module ExcelParser.
Import Transform.

(** A cell object of a worksheet as SheetJS gives it: the formatted
    text [w], the raw value [v] (a string or a number here) and the
    formula [f], each of which may be missing. *)
Record CellObject : Type := mkCellObject {
  w : option string;
  v : option JS.Scalar;
  f : option string
}.

(** A worksheet: its ['!ref'] property and its cell objects by address. *)
Record WorkSheet : Type := mkWorkSheet {
  ref : option string;
  cells : gmap string CellObject
}.

(** [workbook.SheetNames] and [workbook.Sheets]. *)
Record WorkBook : Type := mkWorkBook {
  SheetNames : list string;
  Sheets : gmap string WorkSheet
}.

(** A decoded range [{ s: { r, c }, e: { r, c } }]. *)
Record Range : Type := mkRange {
  s_r : nat;
  s_c : nat;
  e_r : nat;
  e_c : nat
}.

Section Parser.

(** [XLSX.utils.decode_range] and [XLSX.utils.encode_cell({ r, c })],
    functions of the library. *)
Variable decode_range : string -> Range.
Variable encode_cell : nat -> nat -> string.

(** The cell pushed for row [R] and column [C]:
    [value: cell ? (cell.w ?? cell.v ?? null) : null],
    [formula: cell ? cell.f : undefined]. *)
Definition cell_at (worksheet : WorkSheet) (R C : nat) : CellData :=
  let address := encode_cell R C in
  match cells worksheet !! address with
  | Some cell =>
      {| address := address;
         value := match w cell with
                  | Some text => Some (JS.Str text)
                  | None => v cell
                  end;
         formula := f cell |}
  | None => {| address := address; value := None; formula := None |}
  end.

(** The two loops: [for (R = range.s.r; R <= range.e.r; ++R)] around
    [for (C = range.s.c; C <= range.e.c; ++C)]. *)
Definition sheetCellData (worksheet : WorkSheet) (range : Range) : list (list CellData) :=
  map (fun R => map (cell_at worksheet R) (seq (s_c range) (S (e_c range) - s_c range)))
      (seq (s_r range) (S (e_r range) - s_r range)).

(** The callback of [workbook.SheetNames.map]. A sheet that is missing
    or has no ['!ref'] (the property is absent or empty) becomes the
    minimal grid of one empty cell. *)
Definition parseSheet (workbook : WorkBook) (sheetName : string) : SheetData :=
  let minimal :=
    {| name := sheetName;
       data := [[ {| address := "A1"; value := Some (JS.Str ""); formula := None |} ]] |} in
  match Sheets workbook !! sheetName with
  | None => minimal
  | Some worksheet =>
      match ref worksheet with
      | None => minimal
      | Some text =>
          if String.eqb text "" then minimal
          else {| name := sheetName;
                  data := sheetCellData worksheet (decode_range text) |}
      end
  end.

(** The sheets [parseExcelFile] resolves with, for the workbook that
    [XLSX.read] made of the file. *)
Definition parseWorkbook (workbook : WorkBook) : list SheetData :=
  map (parseSheet workbook) (SheetNames workbook).

End Parser.

(** A library for the samples: ranges of the form
    [<column><row>:<column><row>] with single letters and single
    digits, each corner decoded by itself as the library does;
    addresses likewise. *)
Definition sample_decode_range (text : string) : Range :=
  match list_ascii_of_string text with
  | [column1; row1; _; column2; row2] =>
      {| s_r := nat_of_ascii row1 - 49; s_c := nat_of_ascii column1 - 65;
         e_r := nat_of_ascii row2 - 49; e_c := nat_of_ascii column2 - 65 |}
  | _ => {| s_r := 0; s_c := 0; e_r := 0; e_c := 0 |}
  end.

Definition sample_encode_cell (r c : nat) : string :=
  String (ascii_of_nat (65 + c)) (String (ascii_of_nat (49 + r)) EmptyString).

(** A workbook with a sheet of two rows and an empty sheet. *)
Definition sample_workbook : WorkBook :=
  {| SheetNames := ["Data"; "Empty"];
     Sheets := {[ "Data" := {| ref := Some "A1:B2";
                               cells := {[ "A1" := {| w := Some "Item"; v := Some (JS.Str "Item");
                                                      f := None |};
                                           "B2" := {| w := Some "7.00"; v := Some (JS.Num 7);
                                                      f := Some "=3+4" |} ]} |};
                  "Empty" := {| ref := None; cells := ∅ |} ]} |}.

(** A workbook whose only sheet has its range written from the last
    row to the first. *)
Definition reversed_workbook : WorkBook :=
  {| SheetNames := ["Upside"];
     Sheets := {[ "Upside" := {| ref := Some "A5:A1"; cells := ∅ |} ]} |}.

End ExcelParser.

(* ===================================================================== *)
(** * Properties *)
(* ===================================================================== *)

(** ** The history store *)

Module HistoryProofs.
Import History.

Section Store.

Context {T : Type}.
Variable JSON_stringify : T -> string.

Local Abbreviation State := (HistoryState T).
Local Abbreviation setState := (setState JSON_stringify).
Local Abbreviation step := (step JSON_stringify).
Local Abbreviation run := (run JSON_stringify).
Local Abbreviation set_all := (set_all JSON_stringify).

Lemma slicedHistory_lastn (l : list T) :
  slicedHistory l = lastn MAX_HISTORY_SIZE l.
Proof.
  unfold slicedHistory, lastn.
  destruct (Nat.ltb_spec MAX_HISTORY_SIZE (length l)) as [Hlt | Hle]; [reflexivity |].
  replace (length l - MAX_HISTORY_SIZE) with 0 by lia. reflexivity.
Qed.

Lemma length_lastn (n : nat) (l : list T) :
  length (lastn n l) = Nat.min n (length l).
Proof. unfold lastn. rewrite length_drop. lia. Qed.

Lemma lastn_snoc_lastn (n : nat) (l : list T) (v : T) :
  1 <= n -> lastn n (lastn n l ++ [v]) = lastn n (l ++ [v]).
Proof.
  intros Hn. unfold lastn at 1 3.
  rewrite !length_app, length_lastn. simpl.
  unfold lastn.
  destruct (Nat.le_gt_cases (length l) n) as [Hle | Hgt].
  - replace (length l - n) with 0 by lia. simpl.
    replace (Nat.min n (length l)) with (length l) by lia. reflexivity.
  - replace (Nat.min n (length l)) with n by lia.
    replace (n + 1 - n) with 1 by lia.
    replace (length l + 1 - n) with ((length l - n) + 1) by lia.
    rewrite <- drop_drop.
    rewrite (drop_app_le l [v] (length l - n)) by lia.
    reflexivity.
Qed.

Lemma invariant_init (v0 : T) : invariant (useHistoryState v0).
Proof. unfold invariant, MAX_HISTORY_SIZE. simpl. lia. Qed.

Lemma setState_changed (s : State) (a : StateOrFn T) (cur : T) :
  currentState s = Some cur ->
  JSON_stringify cur <> JSON_stringify (candidate a cur) ->
  setState s a =
    {| history := lastn MAX_HISTORY_SIZE
                    (take (currentIndex s + 1) (history s) ++ [candidate a cur]);
       currentIndex :=
         length (lastn MAX_HISTORY_SIZE
                   (take (currentIndex s + 1) (history s) ++ [candidate a cur])) - 1 |}.
Proof.
  intros Hcur Hne. unfold setState. rewrite Hcur.
  destruct (String.eqb_spec (JSON_stringify cur) (JSON_stringify (candidate a cur)))
    as [Heq | _]; [contradiction |].
  rewrite slicedHistory_lastn. reflexivity.
Qed.

Lemma setState_same (s : State) (a : StateOrFn T) (cur : T) :
  currentState s = Some cur ->
  JSON_stringify cur = JSON_stringify (candidate a cur) ->
  setState s a = s.
Proof.
  intros Hcur Heq. unfold setState. rewrite Hcur.
  rewrite Heq, String.eqb_refl. reflexivity.
Qed.

Lemma invariant_setState (s : State) (a : StateOrFn T) :
  invariant s -> invariant (setState s a).
Proof.
  intros Hinv. unfold setState.
  destruct (currentState s) as [cur |]; [| exact Hinv].
  destruct (String.eqb _ _); [exact Hinv |].
  rewrite slicedHistory_lastn. unfold invariant. cbn [history currentIndex].
  rewrite length_lastn, length_app. cbn [length].
  unfold MAX_HISTORY_SIZE. lia.
Qed.

Lemma invariant_undo (s : State) : invariant s -> invariant (undo s).
Proof.
  unfold invariant, undo, canUndo. intros Hinv.
  destruct (Nat.ltb_spec 0 (currentIndex s)); simpl; lia.
Qed.

Lemma invariant_redo (s : State) : invariant s -> invariant (redo s).
Proof.
  unfold invariant, redo, canRedo. intros Hinv.
  destruct (Nat.ltb_spec (currentIndex s) (length (history s) - 1)); simpl; lia.
Qed.

Lemma invariant_step (s : State) (o : Op T) : invariant s -> invariant (step s o).
Proof.
  destruct o; simpl.
  - apply invariant_setState.
  - apply invariant_undo.
  - apply invariant_redo.
  - intros _. apply invariant_init.
Qed.

Lemma invariant_fold (ops : list (Op T)) (s : State) :
  invariant s -> invariant (fold_left step ops s).
Proof.
  revert s. induction ops as [| o ops IH]; intros s Hinv; simpl; [exact Hinv |].
  apply IH, invariant_step, Hinv.
Qed.

Lemma invariant_run (v0 : T) (ops : list (Op T)) : invariant (run v0 ops).
Proof. apply invariant_fold, invariant_init. Qed.

(** [undo] never fails: at cursor 0 the truncated [0 - 1] is 0 again. *)
Lemma undo_eq (s : State) :
  undo s = {| history := history s; currentIndex := currentIndex s - 1 |}.
Proof.
  unfold undo, canUndo. destruct s as [h c]. cbn [history currentIndex].
  destruct (Nat.ltb_spec 0 c); [reflexivity |].
  replace (c - 1) with c by lia. reflexivity.
Qed.

Lemma undo_n_eq (k : nat) (s : State) :
  undo_n k s = {| history := history s; currentIndex := currentIndex s - k |}.
Proof.
  revert s. induction k as [| k IH]; intros s; cbn [undo_n].
  - destruct s as [h c]. cbn [history currentIndex].
    replace (c - 0) with c by lia. reflexivity.
  - rewrite IH, undo_eq. cbn [history currentIndex]. f_equal. lia.
Qed.

Lemma lookup_last_lastn (n : nat) (l : list T) (x : T) :
  1 <= n -> last l = Some x ->
  lastn n l !! (length (lastn n l) - 1) = Some x.
Proof.
  intros Hn Hlast. rewrite last_lookup in Hlast.
  assert (Hlen : 0 < length l).
  { destruct l; [discriminate | simpl; lia]. }
  rewrite length_lastn. unfold lastn. rewrite lookup_drop, <- Hlast.
  f_equal. lia.
Qed.

(** A run of effective [setState] calls from a store whose cursor sits on
    its last snapshot: the timeline is the last 11 of everything pushed. *)
Lemma set_all_at_end (vs : list T) : forall (all : list T) (prev : T),
  last all = Some prev ->
  each_differs JSON_stringify prev vs ->
  set_all {| history := lastn MAX_HISTORY_SIZE all;
             currentIndex := length (lastn MAX_HISTORY_SIZE all) - 1 |} vs
  = {| history := lastn MAX_HISTORY_SIZE (all ++ vs);
       currentIndex := length (lastn MAX_HISTORY_SIZE (all ++ vs)) - 1 |}.
Proof.
  induction vs as [| v vs IH]; intros all prev Hlast Hdiff.
  - rewrite app_nil_r. reflexivity.
  - destruct Hdiff as [Hne Hdiff]. unfold History.set_all. cbn [fold_left].
    assert (Hn : 1 <= MAX_HISTORY_SIZE) by (unfold MAX_HISTORY_SIZE; lia).
    assert (Hlen : 0 < length (lastn MAX_HISTORY_SIZE all)).
    { rewrite length_lastn. rewrite last_lookup in Hlast.
      destruct all; [discriminate | simpl; lia]. }
    rewrite (setState_changed _ (Value v) prev).
    + cbn [history currentIndex candidate].
      replace (length (lastn MAX_HISTORY_SIZE all) - 1 + 1)
        with (length (lastn MAX_HISTORY_SIZE all)) by lia.
      rewrite firstn_all, lastn_snoc_lastn by exact Hn.
      fold (set_all {| history := lastn MAX_HISTORY_SIZE (all ++ [v]);
                       currentIndex := length (lastn MAX_HISTORY_SIZE (all ++ [v])) - 1 |} vs).
      rewrite (IH (all ++ [v]) v (last_snoc v all) Hdiff).
      rewrite <- app_assoc. reflexivity.
    + unfold currentState. cbn [history currentIndex].
      apply lookup_last_lastn; assumption.
    + exact Hne.
Qed.

Lemma set_all_init (v0 : T) (vs : list T) :
  each_differs JSON_stringify v0 vs ->
  set_all (useHistoryState v0) vs
  = {| history := lastn MAX_HISTORY_SIZE (v0 :: vs);
       currentIndex := length (lastn MAX_HISTORY_SIZE (v0 :: vs)) - 1 |}.
Proof.
  intros Hdiff.
  exact (set_all_at_end vs [v0] v0 eq_refl Hdiff).
Qed.

(** C2, as the code has it. Whatever sequence of
    init/set/undo/redo/reset operations a store has gone through, it
    holds between 1 and 11 snapshots and its cursor is an index into
    them. A [setState] whose candidate has another JSON text than the
    current snapshot keeps the snapshots up to the cursor, appends the
    candidate, keeps the last 11 of the result and puts the cursor on the
    last one. After more than 10 [setState] calls from a fresh store,
    each with another text than the value before it, the initial value
    has been evicted: 10 [undo] calls stop at the earliest snapshot
    retained, which is one of the values set. *)
Theorem history_bounded_and_evicting :
  (forall (v0 : T) (ops : list (Op T)),
     1 <= length (history (run v0 ops)) <= 11 /\
     currentIndex (run v0 ops) < length (history (run v0 ops))) /\
  (forall (s : State) (a : StateOrFn T) (cur : T),
     currentState s = Some cur ->
     JSON_stringify cur <> JSON_stringify (candidate a cur) ->
     let appended := take (currentIndex s + 1) (history s) ++ [candidate a cur] in
     history (setState s a) = drop (length appended - 11) appended /\
     currentIndex (setState s a) = length (history (setState s a)) - 1 /\
     currentState (setState s a) = Some (candidate a cur)) /\
  (forall (v0 : T) (vs : list T),
     each_differs JSON_stringify v0 vs ->
     10 < length vs ->
     let s := set_all (useHistoryState v0) vs in
     history s = drop (length vs - 10) (v0 :: vs) /\
     currentIndex s = 10 /\
     currentState (undo_n 10 s) = vs !! (length vs - 11) /\
     currentState (undo_n 10 s) = head (history s) /\
     canUndo (undo_n 10 s) = false /\
     ((forall v, In v vs -> v <> v0) -> currentState (undo_n 10 s) <> Some v0)).
Proof.
  split; [| split].
  - intros v0 ops. exact (invariant_run v0 ops).
  - intros s a cur Hcur Hne appended.
    rewrite (setState_changed s a cur Hcur Hne).
    cbn [history currentIndex]. fold appended.
    split; [reflexivity | split; [reflexivity |]].
    unfold currentState. cbn [history currentIndex].
    apply lookup_last_lastn; [unfold MAX_HISTORY_SIZE; lia |].
    apply last_snoc.
  - intros v0 vs Hdiff Hlen s.
    assert (Hs : s = {| history := drop (length vs - 10) (v0 :: vs);
                        currentIndex := 10 |}).
    { unfold s. rewrite (set_all_init v0 vs Hdiff).
      rewrite length_lastn. unfold lastn, MAX_HISTORY_SIZE. cbn [length].
      f_equal. lia. }
    assert (Hcur : currentState (undo_n 10 s) = vs !! (length vs - 11)).
    { rewrite undo_n_eq, Hs. unfold currentState. cbn [history currentIndex].
      rewrite lookup_drop.
      replace (length vs - 10 + (10 - 10)) with (S (length vs - 11)) by lia.
      reflexivity. }
    split; [rewrite Hs; reflexivity |].
    split; [rewrite Hs; reflexivity |].
    split; [exact Hcur |].
    split.
    { rewrite undo_n_eq, Hs. unfold currentState. cbn [history currentIndex].
      replace (10 - 10) with 0 by lia.
      destruct (drop (length vs - 10) (v0 :: vs)); reflexivity. }
    split.
    { rewrite undo_n_eq, Hs. reflexivity. }
    intros Hfresh Heq. rewrite Hcur in Heq.
    apply (Hfresh v0); [| reflexivity].
    apply list_elem_of_In. eapply list_elem_of_lookup_2. exact Heq.
Qed.

(** C3, as the code has it. A [setState] whose candidate (given
    directly or computed by the updater from the current snapshot) has
    the JSON text of the current snapshot is a no-op: the store, hence
    snapshot count, cursor, current value, [canUndo] and [canRedo], is
    unchanged. This is so in particular when the candidate is the
    current snapshot itself; and setting the same value twice in a row
    leaves the store as the first call left it. *)
Theorem setState_same_text_is_noop :
  (forall (s : State) (a : StateOrFn T) (cur : T),
     currentState s = Some cur ->
     JSON_stringify (candidate a cur) = JSON_stringify cur ->
     setState s a = s /\
     length (history (setState s a)) = length (history s) /\
     currentIndex (setState s a) = currentIndex s /\
     currentState (setState s a) = Some cur /\
     canUndo (setState s a) = canUndo s /\
     canRedo (setState s a) = canRedo s) /\
  (forall (s : State) (a : StateOrFn T) (cur : T),
     currentState s = Some cur -> candidate a cur = cur -> setState s a = s) /\
  (forall (s : State) (v : T),
     setState (setState s (Value v)) (Value v) = setState s (Value v) /\
     length (history (setState (setState s (Value v)) (Value v)))
       = length (history (setState s (Value v)))).
Proof.
  split; [| split].
  - intros s a cur Hcur Hsame.
    assert (Hs : setState s a = s).
    { apply (setState_same s a cur Hcur). symmetry. exact Hsame. }
    rewrite Hs. repeat split; try reflexivity. exact Hcur.
  - intros s a cur Hcur Hsame.
    apply (setState_same s a cur Hcur). rewrite Hsame. reflexivity.
  - intros s v.
    assert (Hs : setState (setState s (Value v)) (Value v) = setState s (Value v)).
    { destruct (currentState s) as [cur |] eqn:Hcur.
      - destruct (String.eqb_spec (JSON_stringify cur) (JSON_stringify v)) as [Heq | Hne].
        + rewrite (setState_same s (Value v) cur Hcur Heq).
          apply (setState_same s (Value v) cur Hcur Heq).
        + apply (setState_same _ (Value v) v); [| reflexivity].
          rewrite (setState_changed s (Value v) cur Hcur Hne).
          unfold currentState. cbn [history currentIndex candidate].
          apply lookup_last_lastn; [unfold MAX_HISTORY_SIZE; lia |].
          apply last_snoc.
      - assert (Hid : setState s (Value v) = s).
        { unfold History.setState. rewrite Hcur. reflexivity. }
        rewrite !Hid. reflexivity. }
    rewrite Hs. split; reflexivity.
Qed.

(** C10. On every store reached by init/set/undo/redo/reset operations:
    when [canUndo] holds, [undo] followed by [redo] gives the store back
    (same snapshots, same cursor, same current value); when [canRedo]
    holds, so does [redo] followed by [undo]; and [undo] and [redo] never
    touch the snapshot sequence. *)
Theorem undo_redo_inverse (v0 : T) (ops : list (Op T)) :
  let s := run v0 ops in
  (canUndo s = true -> redo (undo s) = s) /\
  (canRedo s = true -> undo (redo s) = s) /\
  history (undo s) = history s /\
  history (redo s) = history s.
Proof.
  intros s. pose proof (invariant_run v0 ops) as [_ Hidx]. fold s in Hidx.
  destruct s as [h c]. cbn [history currentIndex] in Hidx.
  unfold undo, redo, canUndo, canRedo. cbn [history currentIndex].
  repeat split.
  - intros Hu. rewrite Hu. cbn [history currentIndex].
    apply Nat.ltb_lt in Hu.
    destruct (Nat.ltb_spec (c - 1) (length h - 1)) as [_ | Hge]; [| lia].
    f_equal. lia.
  - intros Hr. rewrite Hr. cbn [history currentIndex].
    destruct (Nat.ltb_spec 0 (c + 1)) as [_ | Hge]; [| lia].
    f_equal. lia.
  - destruct (0 <? c)%nat; reflexivity.
  - destruct (c <? length h - 1)%nat; reflexivity.
Qed.

End Store.

Lemma history_bounded_and_evicting_witness :
  currentState (undo_n 10 (set_all nat_text (useHistoryState 0%nat) eleven)) = Some 1%nat.
Proof.
  destruct (@history_bounded_and_evicting nat nat_text) as (_ & _ & H).
  assert (Hd : each_differs nat_text 0%nat eleven).
  { vm_compute. repeat split; discriminate. }
  assert (Hl : 10 < length eleven) by (vm_compute; lia).
  destruct (H 0%nat eleven Hd Hl) as (_ & _ & Hc & _).
  rewrite Hc. reflexivity.
Defined.

Lemma setState_same_text_is_noop_witness :
  setState nat_text (useHistoryState 7%nat) (Updater (fun n => n)) = useHistoryState 7%nat.
Proof.
  destruct (@setState_same_text_is_noop nat nat_text) as (H & _).
  destruct (H (useHistoryState 7%nat) (Updater (fun n => n)) 7%nat eq_refl eq_refl) as (Hs & _).
  exact Hs.
Defined.

Lemma undo_redo_inverse_witness :
  let s := run nat_text 0%nat [OpSet (Value 1%nat); OpSet (Value 2%nat)] in
  canUndo s = true /\ redo (undo s) = s.
Proof.
  intros s. split; [reflexivity |].
  apply (undo_redo_inverse nat_text 0%nat [OpSet (Value 1%nat); OpSet (Value 2%nat)]).
  reflexivity.
Defined.

(** *** Values told apart by their JSON text *)

(** A value that is not the current snapshot but has its JSON text is
    not recorded: [{ v: Infinity }] set over [{ v: NaN }], both written
    [{"v":null}], leaves the one snapshot there was. *)
Lemma same_text_value_is_dropped :
  JSON.holds_infinity <> JSON.holds_nan /\
  JSON.stringify JSON.holds_infinity = JSON.stringify JSON.holds_nan /\
  let s := setState JSON.stringify (useHistoryState JSON.holds_nan)
             (Value JSON.holds_infinity) in
  s = useHistoryState JSON.holds_nan /\
  history s = [JSON.holds_nan] /\
  currentState s = Some JSON.holds_nan /\
  canUndo s = false.
Proof.
  split; [discriminate |]. split; [reflexivity |].
  cbv zeta. repeat split.
Qed.

(** A candidate that holds the same record as the current snapshot
    with its keys in another order has another JSON text, and is
    recorded as a new snapshot: [{ b: 2, a: 1 }] set over
    [{ a: 1, b: 2 }] makes a second snapshot that can be undone. *)
Lemma reordered_keys_make_a_new_snapshot :
  JSON.key_perm JSON.a_then_b JSON.b_then_a /\
  let s := setState JSON.stringify (useHistoryState JSON.a_then_b) (Value JSON.b_then_a) in
  history s = [JSON.a_then_b; JSON.b_then_a] /\
  currentIndex s = 1 /\
  currentState s = Some JSON.b_then_a /\
  canUndo s = true.
Proof.
  split.
  - eapply JSON.kp_obj; [apply perm_swap | repeat constructor].
  - cbv zeta. repeat split.
Qed.

End HistoryProofs.

(** ** The tag reconciliation of the graph *)

Module GraphProofs.
Import Graph.

(** *** The two loops in closed form *)

Lemma fold_add_tag (o : string) (ts : list string) : forall ns ls,
  fold_left (add_tag o) ts (ns, ls)
  = (fold_left add_node ts ns, ls ++ map (tag_link o) ts).
Proof.
  induction ts as [| t ts IH]; intros ns ls; cbn [fold_left map].
  - rewrite app_nil_r. reflexivity.
  - unfold add_tag at 2. cbn [fst snd]. rewrite IH, <- app_assoc. reflexivity.
Qed.

Lemma filter_filter {A : Type} (p q : A -> bool) (l : list A) :
  List.filter p (List.filter q l) = List.filter (fun x => q x && p x) l.
Proof.
  induction l as [| x l IH]; cbn [List.filter]; [reflexivity |].
  destruct (q x); cbn [List.filter andb]; [destruct (p x) |]; rewrite IH; reflexivity.
Qed.

Lemma filter_all {A : Type} (p : A -> bool) (l : list A) :
  (forall x, In x l -> p x = true) -> List.filter p l = l.
Proof.
  induction l as [| x l IH]; intros Hp; cbn [List.filter]; [reflexivity |].
  rewrite (Hp x (or_introl eq_refl)). f_equal. apply IH.
  intros y Hy. apply Hp. right. exact Hy.
Qed.

Lemma fold_remove_tag (o : string) (rs : list string) : forall ls,
  fold_left (remove_tag o) rs ls = List.filter (fun l => negb (removed o rs l)) ls.
Proof.
  induction rs as [| r rs IH]; intros ls; cbn [fold_left].
  - symmetry. apply filter_all. intros l _. unfold removed. cbn [existsb].
    rewrite andb_false_r. reflexivity.
  - rewrite IH. unfold remove_tag. rewrite filter_filter.
    apply filter_ext. intros l. unfold removed. cbn [existsb].
    destruct (String.eqb (link_source l) o); cbn [andb negb]; [| reflexivity].
    destruct (String.eqb (link_target l) (tagId r)); reflexivity.
Qed.

Lemma removed_true (o : string) (rs : list string) (l : Link) :
  removed o rs l = true <->
  link_source l = o /\ exists r, In r rs /\ link_target l = tagId r.
Proof.
  unfold removed. rewrite andb_true_iff, String.eqb_eq, existsb_exists.
  split; intros [Hs (r & Hr & Ht)]; (split; [exact Hs | exists r; split; [exact Hr |]]).
  - apply String.eqb_eq. exact Ht.
  - apply String.eqb_eq. exact Ht.
Qed.

(** [handleSaveTags] with both loops in closed form. *)
Lemma handleSaveTags_eq (e : Node) (g : KnowledgeGraph) (o : string) (new : list string) :
  let slot := owner_slot e g o in
  let cur := owner_tags g o in
  handleSaveTags e g o new
  = {| nodes := alter (set_tags new) (snd slot)
                  (fold_left add_node (tagsToAdd cur new) (fst slot));
       links := List.filter (fun l => negb (removed o (tagsToRemove cur new) l))
                  (links g ++ map (tag_link o) (tagsToAdd cur new)) |}.
Proof.
  intros slot cur. unfold handleSaveTags. fold slot.
  assert (Hcur : match fst slot !! snd slot with
                 | Some node => default [] (node_tags node)
                 | None => []
                 end = cur).
  { unfold slot, cur, owner_slot, owner_tags.
    destruct (find_node (nodes g) o) as [[i n] |] eqn:Hfind; cbn [fst snd].
    - apply list_find_Some in Hfind as (Hi & _ & _). rewrite Hi. reflexivity.
    - rewrite lookup_app_r by lia. rewrite Nat.sub_diag. reflexivity. }
  destruct slot as [ns0 idx]. cbn [fst snd] in *. rewrite Hcur.
  rewrite fold_add_tag, fold_remove_tag. reflexivity.
Qed.

(** *** Membership and lookups *)

Lemma includes_true (l : list string) (x : string) :
  JS.includes l x = true <-> In x l.
Proof.
  unfold JS.includes. rewrite existsb_exists. split.
  - intros (y & Hy & Heq). apply String.eqb_eq in Heq. subst y. exact Hy.
  - intros Hx. exists x. split; [exact Hx | apply String.eqb_refl].
Qed.

Lemma includes_false (l : list string) (x : string) :
  JS.includes l x = false <-> ~ In x l.
Proof.
  rewrite <- includes_true. destruct (JS.includes l x); split; intros H;
    try reflexivity; try discriminate; try (intros H'; discriminate).
  exfalso. apply H. reflexivity.
Qed.

Lemma in_tagsToAdd (cur new : list string) (t : string) :
  In t (tagsToAdd cur new) <-> In t new /\ ~ In t cur.
Proof.
  unfold tagsToAdd. rewrite filter_In, negb_true_iff, includes_false. reflexivity.
Qed.

Lemma in_tagsToRemove (cur new : list string) (t : string) :
  In t (tagsToRemove cur new) <-> In t cur /\ ~ In t new.
Proof.
  unfold tagsToRemove. rewrite filter_In, negb_true_iff, includes_false. reflexivity.
Qed.

Lemma filter_none {A : Type} (p : A -> bool) (l : list A) :
  (forall x, In x l -> p x = false) -> List.filter p l = [].
Proof.
  induction l as [| x l IH]; intros Hp; cbn [List.filter]; [reflexivity |].
  rewrite (Hp x (or_introl eq_refl)). apply IH.
  intros y Hy. apply Hp. right. exact Hy.
Qed.

Lemma tagsToAdd_self (l : list string) : tagsToAdd l l = [].
Proof.
  apply filter_none. intros x Hx. apply negb_false_iff, includes_true, Hx.
Qed.

Lemma tagsToRemove_self (l : list string) : tagsToRemove l l = [].
Proof.
  apply filter_none. intros x Hx. apply negb_false_iff, includes_true, Hx.
Qed.

Lemma find_node_None (ns : list Node) (i : string) :
  find_node ns i = None <-> forall n, In n ns -> node_id n <> i.
Proof.
  unfold find_node. rewrite list_find_None, Forall_forall.
  split; intros H n Hn; apply H; apply list_elem_of_In; exact Hn.
Qed.

Lemma find_node_Some_In (ns : list Node) (i : string) (k : nat) (n : Node) :
  find_node ns i = Some (k, n) -> In n ns /\ node_id n = i.
Proof.
  intros (Hk & Hid & _)%list_find_Some. split; [| exact Hid].
  apply list_elem_of_In. eapply list_elem_of_lookup_2. exact Hk.
Qed.

Lemma find_node_is_Some (ns : list Node) (n : Node) :
  In n ns -> is_Some (find_node ns (node_id n)).
Proof.
  intros Hn. unfold find_node.
  apply (list_find_elem_of (fun m => node_id m = node_id n) ns n);
    [apply list_elem_of_In; exact Hn | reflexivity].
Qed.

(** The owner sits at its slot, provided it is in the graph or the
    editor's node carries the owner's id. *)
Lemma owner_slot_find (e : Node) (g : KnowledgeGraph) (o : string) :
  is_Some (find_node (nodes g) o) \/ node_id e = o ->
  exists n0, find_node (fst (owner_slot e g o)) o = Some (snd (owner_slot e g o), n0)
             /\ default [] (node_tags n0) = owner_tags g o.
Proof.
  intros Hown. unfold owner_slot, owner_tags.
  destruct (find_node (nodes g) o) as [[i n] |] eqn:Hfind; cbn [fst snd].
  - exists n. split; [exact Hfind | reflexivity].
  - destruct Hown as [[x Hx] | Hid]; [discriminate |].
    exists (set_tags [] e). split; [| reflexivity].
    unfold find_node. apply list_find_app_Some. right.
    split; [lia |]. split; [exact Hfind |].
    rewrite Nat.sub_diag. apply list_find_Some.
    split; [reflexivity |]. split; [exact Hid |].
    intros j y _ Hj. lia.
Qed.

Lemma fold_add_node_app (ts : list string) : forall ns,
  exists extra, fold_left add_node ts ns = ns ++ extra
                /\ Forall (fun n => exists t, In t ts /\ n = tag_node t) extra.
Proof.
  induction ts as [| t ts IH]; intros ns; cbn [fold_left].
  - exists []. rewrite app_nil_r. split; [reflexivity | constructor].
  - destruct (IH (add_node ns t)) as (extra & Heq & Hall).
    assert (Hall' : Forall (fun n => exists t', In t' (t :: ts) /\ n = tag_node t') extra).
    { eapply Forall_impl; [exact Hall |].
      intros n (t' & Ht' & Hn). exists t'. split; [right; exact Ht' | exact Hn]. }
    unfold add_node in Heq |- *.
    destruct (find_node ns (tagId t)) as [[k n] |].
    + exists extra. split; [exact Heq | exact Hall'].
    + exists (tag_node t :: extra). rewrite Heq, <- app_assoc.
      split; [reflexivity |]. constructor; [| exact Hall'].
      exists t. split; [left; reflexivity | reflexivity].
Qed.

Lemma set_tags_id (v : list string) (n : Node) : node_id (set_tags v n) = node_id n.
Proof. reflexivity. Qed.

Lemma find_node_alter (ns : list Node) (o : string) (i : nat) (n : Node) (v : list string) :
  find_node ns o = Some (i, n) ->
  find_node (alter (set_tags v) i ns) o = Some (i, set_tags v n).
Proof.
  unfold find_node. intros (Hi & Hid & Hleast)%list_find_Some.
  apply list_find_Some. split; [| split].
  - rewrite list_lookup_alter_eq, Hi. reflexivity.
  - exact Hid.
  - intros j y Hj Hlt. rewrite list_lookup_alter_ne in Hj by lia.
    exact (Hleast j y Hj Hlt).
Qed.

Lemma ids_alter (ns : list Node) (i : nat) (v : list string) :
  map node_id (alter (set_tags v) i ns) = map node_id ns.
Proof.
  revert i. induction ns as [| n ns IH]; intros [| i]; cbn; try reflexivity.
  rewrite IH. reflexivity.
Qed.

(** *** Idempotence *)

(** C8. Saving the same tags a second time leaves the graph exactly as
    the first save left it: the owner now carries [newTags], so nothing
    is to add and nothing to remove, and the owner's [tags] field is
    written with the value it has. The node held by the editor at the
    second save plays no part, the owner being in the graph by then. *)
Theorem saveTags_idempotent (e e' : Node) (g : KnowledgeGraph) (newTags : list string) :
  handleSaveTags e' (saveTags e g newTags) (node_id e) newTags = saveTags e g newTags
  /\ saveTags e (saveTags e g newTags) newTags = saveTags e g newTags.
Proof.
  assert (H : forall e2, handleSaveTags e2 (saveTags e g newTags) (node_id e) newTags
                         = saveTags e g newTags).
  { intros e2. set (o := node_id e). set (g1 := saveTags e g newTags).
    assert (Hg1 : g1 = _) by exact (handleSaveTags_eq e g o newTags).
    cbv zeta in Hg1.
    destruct (owner_slot_find e g o (or_intror eq_refl)) as (n0 & Hfind0 & _).
    destruct (fold_add_node_app (tagsToAdd (owner_tags g o) newTags)
                (fst (owner_slot e g o))) as (extra & Hext & _).
    assert (Hfind1 : find_node (nodes g1) o
                     = Some (snd (owner_slot e g o), set_tags newTags n0)).
    { rewrite Hg1. cbn [nodes]. apply find_node_alter. rewrite Hext.
      apply list_find_app_l. exact Hfind0. }
    rewrite (handleSaveTags_eq e2 g1 o newTags). cbv zeta.
    assert (Hcur : owner_tags g1 o = newTags).
    { unfold owner_tags. rewrite Hfind1. reflexivity. }
    assert (Hslot : owner_slot e2 g1 o = (nodes g1, snd (owner_slot e g o))).
    { unfold owner_slot at 1. rewrite Hfind1. reflexivity. }
    rewrite Hcur, Hslot, tagsToAdd_self, tagsToRemove_self. cbn [fst snd fold_left map].
    rewrite app_nil_r.
    rewrite filter_all by (intros l _; unfold removed; cbn [existsb];
                           rewrite andb_false_r; reflexivity).
    destruct g1 as [ns1 ls1]. cbn [nodes links] in *. f_equal.
    injection Hg1 as Hns _. rewrite Hns at 2. rewrite <- Hns.
    rewrite Hns, list_alter_alter_eq. apply list_alter_ext; [| reflexivity].
    intros x _. reflexivity. }
  split; [apply H | apply (H e)].
Qed.

(** *** What the removal loop deletes and what it leaves *)

Lemma links_saveTags (e : Node) (g : KnowledgeGraph) (new : list string) :
  let o := node_id e in
  let cur := owner_tags g o in
  links (saveTags e g new)
  = List.filter (fun l => negb (removed o (tagsToRemove cur new) l)) (links g)
    ++ List.filter (fun l => negb (removed o (tagsToRemove cur new) l))
         (map (tag_link o) (tagsToAdd cur new)).
Proof.
  intros o cur. unfold saveTags. rewrite handleSaveTags_eq. cbn [links].
  apply List.filter_app.
Qed.

Lemma nodes_saveTags (e : Node) (g : KnowledgeGraph) (new : list string) :
  let o := node_id e in
  exists extra,
    nodes (saveTags e g new)
    = alter (set_tags new) (snd (owner_slot e g o)) (fst (owner_slot e g o) ++ extra)
    /\ Forall (fun n => exists t, In t (tagsToAdd (owner_tags g o) new) /\ n = tag_node t)
         extra.
Proof.
  intros o. unfold saveTags. rewrite handleSaveTags_eq. cbn [nodes].
  destruct (fold_add_node_app (tagsToAdd (owner_tags g o) new) (fst (owner_slot e g o)))
    as (extra & Heq & Hall).
  exists extra. fold o. rewrite Heq. split; [reflexivity | exact Hall].
Qed.

(** Every node of the input keeps its position; only the owner is
    rewritten, and only in its [tags] field. *)
Lemma nodes_kept (e : Node) (g : KnowledgeGraph) (new : list string) (k : nat) (n : Node) :
  nodes g !! k = Some n ->
  exists n', nodes (saveTags e g new) !! k = Some n'
             /\ (n' = n \/ (n' = set_tags new n /\ node_id n = node_id e)).
Proof.
  intros Hk. destruct (nodes_saveTags e g new) as (extra & Hns & _).
  cbv zeta in Hns. rewrite Hns.
  assert (Hk0 : (fst (owner_slot e g (node_id e)) ++ extra) !! k = Some n).
  { unfold owner_slot. destruct (find_node (nodes g) (node_id e)) as [[i m] |];
      cbn [fst]; [| rewrite <- app_assoc]; apply lookup_app_l_Some; exact Hk. }
  destruct (decide (snd (owner_slot e g (node_id e)) = k)) as [Heq | Hne].
  - exists (set_tags new n). rewrite Heq, list_lookup_alter_eq, Hk0.
    split; [reflexivity |]. right. split; [reflexivity |].
    unfold owner_slot in Heq.
    destruct (find_node (nodes g) (node_id e)) as [[i m] |] eqn:Hfind; cbn [snd] in Heq.
    + subst i. apply list_find_Some in Hfind as (Hi & Hid & _).
      rewrite Hk in Hi. injection Hi as ->. exact Hid.
    + apply lookup_lt_Some in Hk. lia.
  - exists n. rewrite list_lookup_alter_ne by exact Hne.
    split; [exact Hk0 | left; reflexivity].
Qed.

(** C9, as the code has it. For the labels of [tagsToRemove] the save
    deletes every link from the owner to the label's derived id,
    whatever the link's label; every other link of the input graph is
    kept, in its order, and the only links that come after them are
    HAS_TAG links made for [tagsToAdd]. No node is deleted: each node of
    the input keeps its position, id, type and label, and is unchanged
    unless it is the owner. *)
Theorem remove_deletes_owner_to_tag_links (e : Node) (g : KnowledgeGraph)
    (newTags : list string) :
  let o := node_id e in
  let rs := tagsToRemove (owner_tags g o) newTags in
  let g' := saveTags e g newTags in
  (forall l, In l (links g) ->
     (In l (links g') <->
      ~ (link_source l = o /\ exists r, In r rs /\ link_target l = tagId r))) /\
  (exists added,
     links g' = List.filter (fun l => negb (removed o rs l)) (links g) ++ added /\
     Forall (fun l => exists t, In t newTags /\ l = tag_link o t) added) /\
  (forall k n, nodes g !! k = Some n ->
     exists n', nodes g' !! k = Some n' /\
                node_id n' = node_id n /\ node_type n' = node_type n /\
                node_label n' = node_label n /\
                (node_id n <> o -> n' = n)).
Proof.
  intros o rs g'. pose proof (links_saveTags e g newTags) as Hl. cbv zeta in Hl.
  fold o rs g' in Hl.
  split; [| split].
  - intros l Hin. rewrite Hl, in_app_iff, !filter_In, negb_true_iff.
    rewrite <- removed_true.
    destruct (removed o rs l); split.
    + intros [[_ H] | [_ H]]; discriminate.
    + intros H. exfalso. apply H. reflexivity.
    + intros _ H. discriminate.
    + intros _. left. split; [exact Hin | reflexivity].
  - eexists. split; [exact Hl |].
    apply Forall_forall. intros l Hin%list_elem_of_In.
    apply filter_In in Hin as [Hin _]. apply in_map_iff in Hin as (t & Ht & Hin).
    apply in_tagsToAdd in Hin as [Hin _].
    exists t. split; [exact Hin | symmetry; exact Ht].
  - intros k n Hk. destruct (nodes_kept e g newTags k n Hk) as (n' & Hk' & Hn').
    exists n'. split; [exact Hk' |].
    destruct Hn' as [-> | [-> Hid]].
    + repeat split; reflexivity.
    + repeat split; try reflexivity. intros Hne. contradiction.
Qed.

(** *** The links against the [tags] field *)

Lemma find_node_is_Some_iff (ns : list Node) (i : string) :
  is_Some (find_node ns i) <-> In i (map node_id ns).
Proof.
  split.
  - intros [[k n] Hfind]. apply find_node_Some_In in Hfind as [Hin Hid].
    apply in_map_iff. exists n. split; [exact Hid | exact Hin].
  - intros (n & Hid & Hin)%in_map_iff. subst i. apply find_node_is_Some, Hin.
Qed.

Lemma in_alter_set_tags (v : list string) (l : list Node) : forall (i : nat) (n : Node),
  In n (alter (set_tags v) i l) ->
  exists m, In m l /\ node_id n = node_id m /\ node_label n = node_label m.
Proof.
  induction l as [| x l IH]; intros [| i] n Hin; cbn in Hin; try contradiction.
  - destruct Hin as [<- | Hin].
    + exists x. split; [left; reflexivity | split; reflexivity].
    + exists n. split; [right; exact Hin | split; reflexivity].
  - destruct Hin as [<- | Hin].
    + exists x. split; [left; reflexivity | split; reflexivity].
    + destruct (IH i n Hin) as (m & Hm & Hids). exists m. split; [right; exact Hm | exact Hids].
Qed.

Lemma add_node_has (ns : list Node) (t : string) :
  In (tagId t) (map node_id (add_node ns t)).
Proof.
  unfold add_node. destruct (find_node ns (tagId t)) as [p |] eqn:Hfind.
  - apply find_node_is_Some_iff. rewrite Hfind. eexists. reflexivity.
  - rewrite map_app, in_app_iff. right. left. reflexivity.
Qed.

Lemma fold_add_node_has (ts : list string) : forall (ns : list Node) (t : string),
  In t ts -> In (tagId t) (map node_id (fold_left add_node ts ns)).
Proof.
  induction ts as [| a ts IH]; intros ns t Hin; [contradiction |].
  cbn [fold_left]. destruct Hin as [<- | Hin]; [| apply IH, Hin].
  destruct (fold_add_node_app ts (add_node ns a)) as (extra & Heq & _).
  rewrite Heq, map_app, in_app_iff. left. apply add_node_has.
Qed.

Lemma in_reachable (g : KnowledgeGraph) (o t : string) :
  In t (reachable_tag_labels g o) <->
  exists l k n, In l (links g) /\ link_source l = o /\ link_label l = "HAS_TAG"
                /\ find_node (nodes g) (link_target l) = Some (k, n)
                /\ node_label n = t.
Proof.
  unfold reachable_tag_labels, has_tag_links.
  rewrite <- list_elem_of_In, list_elem_of_omap. split.
  - intros (l & Hl%list_elem_of_In & Hf). apply filter_In in Hl as [Hl Hb].
    apply andb_true_iff in Hb as [Hs%String.eqb_eq Hh%String.eqb_eq].
    destruct (find_node (nodes g) (link_target l)) as [[k n] |] eqn:Hfind; [| discriminate].
    cbn in Hf. injection Hf as Hf. exists l, k, n. repeat split; assumption.
  - intros (l & k & n & Hl & Hs & Hh & Hfind & Hlab). exists l. split.
    + apply list_elem_of_In, filter_In. split; [exact Hl |].
      apply andb_true_iff. split; apply String.eqb_eq; assumption.
    + rewrite Hfind. cbn. rewrite Hlab. reflexivity.
Qed.

Lemma in_has_tag_targets (g : KnowledgeGraph) (o x : string) :
  In x (map link_target (has_tag_links g o)) <->
  exists l, In l (links g) /\ link_source l = o /\ link_label l = "HAS_TAG"
            /\ link_target l = x.
Proof.
  unfold has_tag_links. rewrite in_map_iff. split.
  - intros (l & Hx & Hl). apply filter_In in Hl as [Hl Hb].
    apply andb_true_iff in Hb as [Hs%String.eqb_eq Hh%String.eqb_eq].
    exists l. repeat split; assumption.
  - intros (l & Hl & Hs & Hh & Hx). exists l. split; [exact Hx |].
    apply filter_In. split; [exact Hl |].
    apply andb_true_iff. split; apply String.eqb_eq; assumption.
Qed.

(** The ids of the result: those of the input (and of the owner pushed),
    followed by those of the Tag nodes created. *)
Lemma ids_saveTags (e : Node) (g : KnowledgeGraph) (new : list string) :
  exists extra,
    map node_id (nodes (saveTags e g new))
    = map node_id (fst (owner_slot e g (node_id e))) ++ map node_id extra.
Proof.
  destruct (nodes_saveTags e g new) as (extra & Hns & _). cbv zeta in Hns.
  exists extra. rewrite Hns, ids_alter, map_app. reflexivity.
Qed.

Lemma in_ids_slot (e : Node) (g : KnowledgeGraph) (o i : string) :
  In i (map node_id (nodes g)) -> In i (map node_id (fst (owner_slot e g o))).
Proof.
  unfold owner_slot. destruct (find_node (nodes g) o) as [[k n] |]; cbn [fst]; [tauto |].
  rewrite map_app, in_app_iff. tauto.
Qed.

Lemma labelled_saveTags (e : Node) (g : KnowledgeGraph) (new : list string) :
  labelled (nodes g ++ [e]) new ->
  distinct_ids (owner_tags g (node_id e) ++ new) ->
  labelled (nodes (saveTags e g new)) new.
Proof.
  intros Hlab Hinj n t Hn Ht Hid.
  destruct (nodes_saveTags e g new) as (extra & Hns & Hextra). cbv zeta in Hns.
  rewrite Hns in Hn. apply in_alter_set_tags in Hn as (m & Hm & Hidm & Hlabm).
  rewrite Hlabm. rewrite Hidm in Hid. clear Hidm Hlabm Hns.
  apply in_app_iff in Hm as [Hm | Hm].
  - assert (Hm' : exists m', In m' (nodes g ++ [e]) /\ node_id m' = node_id m
                             /\ node_label m' = node_label m).
    { unfold owner_slot in Hm.
      destruct (find_node (nodes g) (node_id e)) as [[k x] |]; cbn [fst] in Hm.
      - exists m. rewrite in_app_iff. tauto.
      - apply in_app_iff in Hm as [Hm | [<- | []]].
        + exists m. rewrite in_app_iff. tauto.
        + exists e. rewrite in_app_iff. cbn. tauto. }
    destruct Hm' as (m' & Hin & Hi & Hl). rewrite <- Hl.
    apply (Hlab m' t Hin Ht). rewrite Hi. exact Hid.
  - rewrite Forall_forall in Hextra.
    destruct (Hextra m (proj2 (list_elem_of_In _ _) Hm)) as (t' & Ht' & ->).
    cbn [tag_node node_id node_label] in *.
    apply in_tagsToAdd in Ht' as [Ht' _].
    apply Hinj; [apply in_app_iff; right; exact Ht' | apply in_app_iff; right; exact Ht
                | exact Hid].
Qed.

(** C1, as the code has it. The save computes what to add and what to
    remove from the owner's [tags] field, not from its links. When that
    field agrees with the owner's HAS_TAG links beforehand, the Tag
    nodes of its labels are in the graph, different labels have
    different derived ids, and a node holding the derived id of a new
    label carries that label, then afterwards the labels reachable from
    the owner through HAS_TAG links are exactly [newTags]. *)
Theorem saveTags_links_match_newTags (e : Node) (g : KnowledgeGraph)
    (newTags : list string) :
  let o := node_id e in
  tags_agree g o ->
  tag_nodes_present g (owner_tags g o) ->
  distinct_ids (owner_tags g o ++ newTags) ->
  labelled (nodes g ++ [e]) newTags ->
  forall t, In t (reachable_tag_labels (saveTags e g newTags) o) <-> In t newTags.
Proof.
  intros o Hagree Hpresent Hinj Hlab t.
  set (cur := owner_tags g o) in *. set (g' := saveTags e g newTags).
  pose proof (labelled_saveTags e g newTags Hlab Hinj) as Hlab'. fold g' in Hlab'.
  pose proof (links_saveTags e g newTags) as Hlinks. cbv zeta in Hlinks.
  fold o cur g' in Hlinks.
  assert (Hkeep : forall a, In a newTags ->
            forall l, link_source l = o -> link_target l = tagId a ->
            removed o (tagsToRemove cur newTags) l = false).
  { intros a Ha l Hs Hta.
    destruct (removed o (tagsToRemove cur newTags) l) eqn:Hrem; [| reflexivity].
    apply removed_true in Hrem as (_ & r & Hr & Htr).
    apply in_tagsToRemove in Hr as [Hrc Hrn]. exfalso. apply Hrn.
    rewrite <- (Hinj a r); [exact Ha | | | congruence];
      apply in_app_iff; [right; exact Ha | left; exact Hrc]. }
  rewrite in_reachable. split.
  - intros (l & k & n & Hl & Hs & Hh & Hfind & Hn).
    apply find_node_Some_In in Hfind as [Hin Hid].
    rewrite Hlinks in Hl. apply in_app_iff in Hl as [Hl | Hl];
      apply filter_In in Hl as [Hl Hrem]; apply negb_true_iff in Hrem.
    + assert (Hx : In (link_target l) (map tagId cur)).
      { apply Hagree, in_has_tag_targets. exists l. repeat split; assumption. }
      apply in_map_iff in Hx as (c & Hc & Hcin).
      assert (Hcnew : In c newTags).
      { destruct (in_dec string_dec c newTags) as [Hy | Hno]; [exact Hy |].
        exfalso. assert (Hr : removed o (tagsToRemove cur newTags) l = true).
        { apply removed_true. split; [exact Hs |]. exists c.
          split; [apply in_tagsToRemove; split; assumption | symmetry; exact Hc]. }
        rewrite Hr in Hrem. discriminate. }
      rewrite <- Hn, (Hlab' n c Hin Hcnew); [exact Hcnew | congruence].
    + apply in_map_iff in Hl as (a & <- & Ha). apply in_tagsToAdd in Ha as [Ha _].
      cbn [tag_link link_target] in Hid.
      rewrite <- Hn, (Hlab' n a Hin Ha Hid). exact Ha.
  - intros Ht.
    assert (Hnode : is_Some (find_node (nodes g') (tagId t))
                    -> forall l, In l (links g') -> link_source l = o ->
                       link_label l = "HAS_TAG" -> link_target l = tagId t ->
                       exists l k n, In l (links g') /\ link_source l = o
                         /\ link_label l = "HAS_TAG"
                         /\ find_node (nodes g') (link_target l) = Some (k, n)
                         /\ node_label n = t).
    { intros [[k n] Hfind] l Hl Hs Hh Htl. exists l, k, n.
      rewrite Htl. repeat split; try assumption.
      apply find_node_Some_In in Hfind as [Hin Hid]. exact (Hlab' n t Hin Ht Hid). }
    destruct (ids_saveTags e g newTags) as (extra & Hids). fold g' o in Hids.
    destruct (in_dec string_dec t cur) as [Hc | Hnc].
    + assert (Hx : In (tagId t) (map link_target (has_tag_links g o))).
      { apply Hagree, in_map. exact Hc. }
      apply in_has_tag_targets in Hx as (l & Hl & Hs & Hh & Htl).
      apply (Hnode) with (l := l); try assumption.
      * apply find_node_is_Some_iff. rewrite Hids, in_app_iff. left.
        apply in_ids_slot, find_node_is_Some_iff, Hpresent, Hc.
      * rewrite Hlinks, in_app_iff. left. apply filter_In. split; [exact Hl |].
        apply negb_true_iff, (Hkeep t Ht l Hs Htl).
    + assert (Ha : In t (tagsToAdd cur newTags)) by (apply in_tagsToAdd; tauto).
      apply (Hnode) with (l := tag_link o t); try reflexivity.
      * apply find_node_is_Some_iff. unfold g', saveTags.
        rewrite handleSaveTags_eq. cbn [nodes]. rewrite ids_alter.
        apply fold_add_node_has. exact Ha.
      * rewrite Hlinks, in_app_iff. right. apply filter_In.
        split; [apply in_map; exact Ha |].
        apply negb_true_iff, (Hkeep t Ht); reflexivity.
Qed.

(** *** Tag nodes are shared by id *)

Lemma NoDup_snoc_id (ns : list Node) (n : Node) :
  NoDup (map node_id ns) -> find_node ns (node_id n) = None ->
  NoDup (map node_id (ns ++ [n])).
Proof.
  intros Hnd Hfind. rewrite map_app. apply NoDup_app. split; [exact Hnd |].
  split; [| apply NoDup_singleton].
  intros x Hx Hx'. apply list_elem_of_singleton in Hx'. subst x.
  apply list_elem_of_In, find_node_is_Some_iff in Hx. rewrite Hfind in Hx.
  destruct Hx as [? Hx]. discriminate.
Qed.

Lemma NoDup_add_node (ns : list Node) (t : string) :
  NoDup (map node_id ns) -> NoDup (map node_id (add_node ns t)).
Proof.
  intros Hnd. unfold add_node.
  destruct (find_node ns (tagId t)) as [p |] eqn:Hfind; [exact Hnd |].
  apply NoDup_snoc_id; [exact Hnd | exact Hfind].
Qed.

Lemma NoDup_fold_add_node (ts : list string) : forall ns,
  NoDup (map node_id ns) -> NoDup (map node_id (fold_left add_node ts ns)).
Proof.
  induction ts as [| t ts IH]; intros ns Hnd; cbn [fold_left]; [exact Hnd |].
  apply IH, NoDup_add_node, Hnd.
Qed.

(** Unique node ids stay unique across a save. *)
Lemma NoDup_saveTags (e : Node) (g : KnowledgeGraph) (new : list string) :
  NoDup (map node_id (nodes g)) -> NoDup (map node_id (nodes (saveTags e g new))).
Proof.
  intros Hnd. unfold saveTags. rewrite handleSaveTags_eq. cbn [nodes].
  rewrite ids_alter. apply NoDup_fold_add_node.
  unfold owner_slot. destruct (find_node (nodes g) (node_id e)) as [[k n] |] eqn:Hfind;
    cbn [fst]; [exact Hnd |].
  apply NoDup_snoc_id; [exact Hnd | exact Hfind].
Qed.

Lemma nodes_with_id_none (i : string) (ns : list Node) :
  ~ In i (map node_id ns) -> nodes_with_id i ns = [].
Proof.
  intros Hno. apply filter_none. intros n Hn. apply String.eqb_neq.
  intros Heq. apply Hno. apply in_map_iff. exists n. split; assumption.
Qed.

Lemma nodes_with_id_NoDup (i : string) (ns : list Node) :
  NoDup (map node_id ns) -> length (nodes_with_id i ns) <= 1.
Proof.
  induction ns as [| n ns IH]; intros Hnd; [cbn; lia |].
  cbn in Hnd. apply NoDup_cons in Hnd as [Hn Hnd].
  change (nodes_with_id i (n :: ns))
    with (if String.eqb (node_id n) i then n :: nodes_with_id i ns
          else nodes_with_id i ns).
  destruct (String.eqb_spec (node_id n) i) as [Heq | Hne]; [| apply IH, Hnd].
  cbn [length]. rewrite nodes_with_id_none; [cbn; lia |].
  rewrite <- Heq. intros Hin. apply Hn, list_elem_of_In, Hin.
Qed.

Lemma nodes_with_id_some (i : string) (ns : list Node) :
  In i (map node_id ns) -> 1 <= length (nodes_with_id i ns).
Proof.
  intros (n & Hid & Hn)%in_map_iff.
  assert (Hin : In n (nodes_with_id i ns)).
  { apply filter_In. split; [exact Hn | apply String.eqb_eq, Hid]. }
  destruct (nodes_with_id i ns); [contradiction | cbn; lia].
Qed.

(** C7, as the code has it. The derived id is ["tag_"] followed by the
    label lowercased with every whitespace character replaced by an
    underscore; nothing is trimmed or collapsed. Two labels that agree
    after that transformation have the same id, and a save that carries
    both, on a graph whose node ids are unique, leaves at most one node
    with that id, exactly one as soon as one of the two labels is new to
    the owner: the two labels share it. *)
Theorem same_lowered_label_same_tag_node (a b : string) :
  JS.replace_whitespace (JS.toLowerCase a) = JS.replace_whitespace (JS.toLowerCase b) ->
  tagId a = tagId b /\
  forall (e : Node) (g : KnowledgeGraph) (newTags : list string),
    NoDup (map node_id (nodes g)) -> In a newTags -> In b newTags ->
    let g' := saveTags e g newTags in
    nodes_with_id (tagId a) (nodes g') = nodes_with_id (tagId b) (nodes g') /\
    length (nodes_with_id (tagId a) (nodes g')) <= 1 /\
    (~ In a (owner_tags g (node_id e)) \/ ~ In b (owner_tags g (node_id e)) ->
     length (nodes_with_id (tagId a) (nodes g')) = 1).
Proof.
  intros Hsame.
  assert (Hid : tagId a = tagId b) by (unfold tagId; rewrite Hsame; reflexivity).
  split; [exact Hid |].
  intros e g newTags Hnd Ha Hb g'.
  pose proof (nodes_with_id_NoDup (tagId a) (nodes g') (NoDup_saveTags e g newTags Hnd))
    as Hle.
  split; [rewrite Hid; reflexivity |]. split; [exact Hle |].
  intros Hnew.
  assert (Hin : In (tagId a) (map node_id (nodes g'))).
  { unfold g', saveTags. rewrite handleSaveTags_eq. cbn [nodes]. rewrite ids_alter.
    destruct Hnew as [Hna | Hnb].
    - apply fold_add_node_has, in_tagsToAdd. split; assumption.
    - rewrite Hid. apply fold_add_node_has, in_tagsToAdd. split; assumption. }
  apply nodes_with_id_some in Hin. lia.
Qed.

(** *** Concrete saves *)

(** With a HAS_TAG link the [tags] field does not know of, saving the
    empty tag list leaves the link behind. *)
Lemma stale_link_survives :
  reachable_tag_labels (saveTags cellA1 stale_graph []) (node_id cellA1) = ["x"] /\
  ~ (forall t, In t (reachable_tag_labels (saveTags cellA1 stale_graph []) (node_id cellA1))
               <-> In t []).
Proof.
  split; [vm_compute; reflexivity |].
  intros H. destruct (H "x") as [H1 _].
  assert (Hx : In "x" (reachable_tag_labels (saveTags cellA1 stale_graph [])
                         (node_id cellA1))) by (vm_compute; left; reflexivity).
  exact (H1 Hx).
Qed.

Lemma saveTags_links_match_newTags_witness :
  In "c" (reachable_tag_labels (saveTags cellA1 tagged_graph ["b"; "c"]) (node_id cellA1)).
Proof.
  apply (saveTags_links_match_newTags cellA1 tagged_graph ["b"; "c"]).
  - intros x. vm_compute. tauto.
  - intros t Ht. vm_compute in Ht.
    destruct Ht as [<- | [<- | []]]; vm_compute; eexists; reflexivity.
  - intros a b Ha Hb Hid. vm_compute in Ha, Hb.
    destruct Ha as [<- | [<- | [<- | [<- | []]]]];
      destruct Hb as [<- | [<- | [<- | [<- | []]]]];
      first [reflexivity | vm_compute in Hid; discriminate Hid].
  - intros n t Hn Ht Hid. vm_compute in Hn, Ht.
    destruct Hn as [<- | [<- | [<- | [<- | []]]]];
      destruct Ht as [<- | [<- | []]];
      first [reflexivity | vm_compute in Hid; discriminate Hid].
  - vm_compute. tauto.
Defined.

(** "Revenue" and "revenue " get different ids, and two Tag nodes. *)
Lemma trailing_space_makes_second_tag :
  tagId "Revenue" = "tag_revenue" /\
  tagId "revenue " = "tag_revenue_" /\
  map node_id (nodes (saveTags cellA1 empty_graph ["Revenue"; "revenue "]))
  = ["cell_Sheet1_A1"; "tag_revenue"; "tag_revenue_"].
Proof. repeat split. Qed.

Lemma same_lowered_label_same_tag_node_witness :
  tagId "Net Income" = tagId "net_income".
Proof.
  apply (same_lowered_label_same_tag_node "Net Income" "net_income").
  reflexivity.
Defined.

(** Removing tag "a" also deletes the RELATED_TO link to its node. *)
Lemma related_link_deleted :
  In related_link (links related_graph) /\
  link_label related_link = "RELATED_TO" /\
  links (saveTags (set_tags ["a"] cellA1) related_graph []) = [].
Proof. repeat split. right. left. reflexivity. Qed.

End GraphProofs.

(** ** The order of strings *)

Module StringOrder.

Lemma ltb_lt (a b : string) :
  String.ltb a b = true <-> OrderedTypeEx.String_as_OT.lt a b.
Proof.
  rewrite <- OrderedTypeEx.String_as_OT.cmp_lt.
  unfold String.ltb, OrderedTypeEx.String_as_OT.cmp.
  destruct (String.compare a b); split; intros H; try reflexivity; discriminate.
Qed.

Lemma ltb_trans (a b c : string) :
  String.ltb a b = true -> String.ltb b c = true -> String.ltb a c = true.
Proof.
  rewrite !ltb_lt. apply OrderedTypeEx.String_as_OT.lt_trans.
Qed.

Lemma ltb_irrefl (a : string) : String.ltb a a = false.
Proof.
  destruct (String.ltb a a) eqn:H; [| reflexivity].
  apply ltb_lt, OrderedTypeEx.String_as_OT.lt_not_eq in H.
  exfalso. apply H. reflexivity.
Qed.

Lemma ltb_asym (a b : string) :
  String.ltb a b = true -> String.ltb b a = false.
Proof.
  intros Hab. destruct (String.ltb b a) eqn:Hba; [| reflexivity].
  rewrite <- (ltb_irrefl a). symmetry. exact (ltb_trans a b a Hab Hba).
Qed.

Lemma ltb_total (a b : string) :
  a <> b -> String.ltb a b = true \/ String.ltb b a = true.
Proof.
  intros Hne. unfold String.ltb. rewrite (String.compare_antisym b a).
  destruct (String.compare a b) eqn:Hc; cbn; auto.
  apply String.compare_eq_iff in Hc. contradiction.
Qed.

End StringOrder.

(** ** The stable sort *)

Module SortProofs.
Export Order.

Section Insertion.

Context {A : Type}.
Variable cmp : A -> A -> Z.

Lemma insert_perm (x : A) (l : list A) : Permutation (JS.insert cmp x l) (x :: l).
Proof.
  induction l as [| y ys IH]; cbn [JS.insert]; [reflexivity |].
  destruct (cmp x y <? 0)%Z; [reflexivity |].
  rewrite IH. apply perm_swap.
Qed.

Lemma fold_insert_perm (l : list A) : forall acc,
  Permutation (fold_left (fun placed x => JS.insert cmp x placed) l acc) (acc ++ l).
Proof.
  induction l as [| x l IH]; intros acc; cbn [fold_left].
  - rewrite app_nil_r. reflexivity.
  - rewrite IH, insert_perm. apply Permutation_middle.
Qed.

Lemma sort_perm (l : list A) : Permutation (JS.sort cmp l) l.
Proof. unfold JS.sort. rewrite fold_insert_perm. reflexivity. Qed.

Lemma insert_Forall (Q : A -> Prop) (x : A) (l : list A) :
  Q x -> Forall Q l -> Forall Q (JS.insert cmp x l).
Proof.
  intros Hx Hl. apply (Permutation_Forall (Permutation_sym (insert_perm x l))).
  constructor; assumption.
Qed.

(** An element below everything in [back] goes in front of [back]. *)
Lemma insert_before (x : A) (front back : list A) :
  Forall (fun y => (cmp x y < 0)%Z) back ->
  JS.insert cmp x (front ++ back) = JS.insert cmp x front ++ back.
Proof.
  intros Hback. induction front as [| p front IH]; cbn [app JS.insert].
  - destruct Hback as [| y back Hy _]; cbn [JS.insert]; [reflexivity |].
    apply Z.ltb_lt in Hy. rewrite Hy. reflexivity.
  - destruct (cmp x p <? 0)%Z; [reflexivity |]. rewrite IH. reflexivity.
Qed.

(** An element below nothing in [front] goes past [front]. *)
Lemma insert_after (x : A) (front back : list A) :
  Forall (fun y => ~ (cmp x y < 0)%Z) front ->
  JS.insert cmp x (front ++ back) = front ++ JS.insert cmp x back.
Proof.
  intros Hfront. induction Hfront as [| p front Hp _ IH]; cbn [app JS.insert];
    [reflexivity |].
  apply Z.ltb_nlt in Hp. rewrite Hp, IH. reflexivity.
Qed.

Lemma insert_last (x : A) (l : list A) :
  Forall (fun y => ~ (cmp x y < 0)%Z) l -> JS.insert cmp x l = l ++ [x].
Proof.
  intros Hl. rewrite <- (app_nil_r l) at 1. rewrite (insert_after x l [] Hl).
  reflexivity.
Qed.

Lemma insert_first (x : A) (l : list A) :
  Forall (fun y => (cmp x y < 0)%Z) l -> JS.insert cmp x l = x :: l.
Proof.
  intros Hl. change l with ([] ++ l) at 1. rewrite (insert_before x [] l Hl).
  reflexivity.
Qed.

Lemma strict_total_on_incl (l l' : list A) :
  (forall a, In a l' -> In a l) -> strict_total_on cmp l -> strict_total_on cmp l'.
Proof.
  intros Hin [Ht Ha Htr]. split.
  - intros a b Ha' Hb'. apply Ht; apply Hin; assumption.
  - intros a b Ha' Hb'. apply Ha; apply Hin; assumption.
  - intros a b c Ha' Hb' Hc'. apply Htr; apply Hin; assumption.
Qed.

Lemma insert_sorted (x : A) (l : list A) :
  strict_total_on cmp (x :: l) -> ~ In x l ->
  StronglySorted (before cmp) l -> StronglySorted (before cmp) (JS.insert cmp x l).
Proof.
  intros Hsto Hx Hs. induction Hs as [| y ys Hs IH Hy]; cbn [JS.insert].
  - constructor; constructor.
  - destruct (Z.ltb_spec (cmp x y) 0) as [Hlt | Hge].
    + constructor; [constructor; assumption |].
      constructor; [exact Hlt |].
      rewrite Forall_forall in Hy |- *. intros z Hz.
      apply list_elem_of_In in Hz.
      apply (sto_trans cmp _ Hsto x y z); cbn; auto.
      apply Hy, list_elem_of_In, Hz.
    + assert (Hyx : before cmp y x).
      { destruct (sto_total cmp _ Hsto x y) as [H | H]; cbn; auto.
        - intros ->. apply Hx. left. reflexivity.
        - unfold before in H. lia. }
      constructor.
      * apply IH.
        -- apply (strict_total_on_incl (x :: y :: ys)); [| exact Hsto].
           intros a Ha. cbn in *. tauto.
        -- intros Hin. apply Hx. right. exact Hin.
      * apply insert_Forall; assumption.
Qed.

Lemma fold_insert_sorted (l : list A) : forall acc,
  strict_total_on cmp (acc ++ l) -> NoDup (acc ++ l) ->
  StronglySorted (before cmp) acc ->
  StronglySorted (before cmp) (fold_left (fun placed x => JS.insert cmp x placed) l acc).
Proof.
  induction l as [| x l IH]; intros acc Hsto Hnd Hs; cbn [fold_left]; [exact Hs |].
  assert (Hp : Permutation (acc ++ x :: l) (JS.insert cmp x acc ++ l)).
  { rewrite insert_perm. symmetry. apply Permutation_middle. }
  apply IH.
  - apply (strict_total_on_incl (acc ++ x :: l)); [| exact Hsto].
    intros a. apply Permutation_in. symmetry. exact Hp.
  - rewrite <- Hp. exact Hnd.
  - apply insert_sorted; [| | exact Hs].
    + apply (strict_total_on_incl (acc ++ x :: l)); [| exact Hsto].
      intros a Ha. rewrite in_app_iff. cbn in *. tauto.
    + intros Hin. apply NoDup_app in Hnd as (_ & Hdisj & _).
      apply (Hdisj x); [apply list_elem_of_In; exact Hin | left].
Qed.

Lemma sort_sorted (l : list A) :
  strict_total_on cmp l -> NoDup l -> StronglySorted (before cmp) (JS.sort cmp l).
Proof.
  intros Hsto Hnd. unfold JS.sort. apply fold_insert_sorted; cbn [app];
    [exact Hsto | exact Hnd | constructor].
Qed.

End Insertion.

Section Sorted.

Context {A : Type}.

Lemma sorted_snoc (R : A -> A -> Prop) (l : list A) (x : A) :
  StronglySorted R l -> Forall (fun y => R y x) l -> StronglySorted R (l ++ [x]).
Proof.
  intros Hs. induction Hs as [| y ys Hs IH Hy]; intros Hx; cbn [app].
  - constructor; constructor.
  - apply Forall_cons in Hx as [Hyx Hx]. constructor; [apply IH, Hx |].
    apply Forall_app. split; [exact Hy | constructor; [exact Hyx | constructor]].
Qed.

Lemma sorted_rev (R R' : A -> A -> Prop) (l : list A) :
  StronglySorted R l -> NoDup l ->
  (forall a b, In a l -> In b l -> a <> b -> R a b -> R' b a) ->
  StronglySorted R' (rev l).
Proof.
  intros Hs. induction Hs as [| y ys Hs IH Hy]; intros Hnd Hflip; cbn [rev].
  - constructor.
  - apply NoDup_cons in Hnd as [Hy' Hnd]. apply sorted_snoc.
    + apply IH; [exact Hnd |]. intros a b Ha Hb. apply Hflip; right; assumption.
    + apply Forall_forall. intros z Hz. apply list_elem_of_In, in_rev in Hz.
      apply Hflip; [left; reflexivity | right; exact Hz | |].
      * intros ->. apply Hy', list_elem_of_In, Hz.
      * rewrite Forall_forall in Hy. apply Hy, list_elem_of_In, Hz.
Qed.

Lemma sorted_unique (R : A -> A -> Prop) (l1 : list A) : forall l2,
  StronglySorted R l1 -> StronglySorted R l2 -> Permutation l1 l2 -> NoDup l1 ->
  (forall a b, In a l1 -> In b l1 -> a <> b -> R a b -> R b a -> False) ->
  l1 = l2.
Proof.
  induction l1 as [| a l1 IH]; intros l2 Hs1 Hs2 Hp Hnd Hasym.
  - apply Permutation_nil in Hp. symmetry. exact Hp.
  - destruct l2 as [| b l2].
    { symmetry in Hp. apply Permutation_nil in Hp. discriminate. }
    apply StronglySorted_inv in Hs1 as [Hs1 Ha].
    apply StronglySorted_inv in Hs2 as [Hs2 Hb].
    rewrite Forall_forall in Ha, Hb.
    assert (Hab : a = b).
    { assert (Hain : In a (b :: l2)) by (apply (Permutation_in _ Hp); left; reflexivity).
      assert (Hbin : In b (a :: l1)).
      { apply (Permutation_in _ (Permutation_sym Hp)). left. reflexivity. }
      destruct Hain as [Heq | Hain]; [symmetry; exact Heq |].
      destruct Hbin as [Heq | Hbin]; [exact Heq |].
      exfalso. assert (Hne : a <> b).
      { intros ->. apply NoDup_cons in Hnd as [Hn _]. apply Hn, list_elem_of_In, Hbin. }
      apply (Hasym a b); [left; reflexivity | right; exact Hbin | exact Hne | |].
      - apply Ha, list_elem_of_In, Hbin.
      - apply Hb, list_elem_of_In, Hain. }
    subst b. f_equal. apply NoDup_cons in Hnd as [_ Hnd].
    apply IH; [exact Hs1 | exact Hs2 | exact (Permutation_cons_inv Hp) | exact Hnd |].
    intros x y Hx Hy. apply Hasym; right; assumption.
Qed.

(** Sorting a sorted list by the mirrored comparator reverses it, when
    no two elements tie: both comparators are strict total orders on
    the elements and each puts [b] before [a] where the other puts [a]
    before [b]. *)
Lemma sort_mirrored (cmp_a cmp_d : A -> A -> Z) (l : list A) :
  strict_total_on cmp_a l -> strict_total_on cmp_d l -> NoDup l ->
  (forall a b, In a l -> In b l -> a <> b -> before cmp_a a b -> before cmp_d b a) ->
  JS.sort cmp_d (JS.sort cmp_a l) = rev (JS.sort cmp_a l).
Proof.
  intros Hsa Hsd Hnd Hflip.
  pose proof (sort_perm cmp_a l) as Hp.
  assert (Hin : forall a, In a (JS.sort cmp_a l) -> In a l).
  { intros a. apply Permutation_in. exact Hp. }
  assert (Hnd' : NoDup (JS.sort cmp_a l)) by (rewrite Hp; exact Hnd).
  assert (Hsd' : strict_total_on cmp_d (JS.sort cmp_a l)).
  { apply (strict_total_on_incl cmp_d l); assumption. }
  apply (sorted_unique (before cmp_d)).
  - apply sort_sorted; assumption.
  - apply (sorted_rev (before cmp_a)); [apply sort_sorted; assumption | exact Hnd' |].
    intros a b Ha Hb. apply Hflip; apply Hin; assumption.
  - rewrite sort_perm. apply Permutation_rev.
  - rewrite sort_perm. exact Hnd'.
  - intros a b Ha Hb. apply (sto_asym cmp_d _ Hsd');
      apply (Permutation_in _ (sort_perm cmp_d _)); assumption.
Qed.

End Sorted.

End SortProofs.

(** ** Sorting a sheet *)

Module TransformProofs.
Import Transform SortProofs StringOrder.

(** *** The comparator on values of one kind *)

Lemma cv_total (d : Direction) (ka kb : option JS.Scalar) :
  same_kind ka kb -> ka <> kb ->
  (compare_values d ka kb < 0 \/ compare_values d kb ka < 0)%Z.
Proof.
  destruct d, ka as [[a | x] |], kb as [[b | y] |]; cbn; intros Hk Hne;
    try contradiction; try lia.
  all: try (assert (x <> y) by congruence; lia).
  all: assert (Hab : a <> b) by congruence;
    destruct (ltb_total a b Hab) as [H | H]; rewrite H;
    try rewrite (ltb_asym _ _ H); lia.
Qed.

Lemma cv_asym (d : Direction) (ka kb : option JS.Scalar) :
  same_kind ka kb -> ka <> kb ->
  (compare_values d ka kb < 0)%Z -> (compare_values d kb ka < 0)%Z -> False.
Proof.
  destruct d, ka as [[a | x] |], kb as [[b | y] |]; cbn; intros Hk Hne;
    try contradiction; try lia.
  all: try (exfalso; apply Hne; reflexivity).
  all: destruct (String.ltb a b) eqn:E1; [rewrite (ltb_asym _ _ E1) | ];
    destruct (String.ltb b a) eqn:E2; try lia; try discriminate.
Qed.

Lemma cv_trans (d : Direction) (ka kb kc : option JS.Scalar) :
  same_kind ka kb -> same_kind kb kc -> same_kind ka kc ->
  (compare_values d ka kb < 0)%Z -> (compare_values d kb kc < 0)%Z ->
  (compare_values d ka kc < 0)%Z.
Proof.
  destruct d, ka as [[a | x] |], kb as [[b | y] |], kc as [[c | z] |]; cbn;
    intros H1 H2 H3; try contradiction; try lia.
  - destruct (String.ltb a b) eqn:E1; [| destruct (String.ltb b a); lia].
    destruct (String.ltb b c) eqn:E2; [| destruct (String.ltb c b); lia].
    rewrite (ltb_trans a b c E1 E2). lia.
  - destruct (String.ltb a b) eqn:E1; [lia |].
    destruct (String.ltb b a) eqn:E2; [| lia].
    destruct (String.ltb b c) eqn:E3; [lia |].
    destruct (String.ltb c b) eqn:E4; [| lia].
    rewrite (ltb_asym _ _ (ltb_trans c b a E4 E2)), (ltb_trans c b a E4 E2). lia.
Qed.

Lemma cv_flip (ka kb : option JS.Scalar) :
  same_kind ka kb -> ka <> kb ->
  (compare_values asc ka kb < 0)%Z -> (compare_values desc kb ka < 0)%Z.
Proof.
  destruct ka as [[a | x] |], kb as [[b | y] |]; cbn; intros Hk Hne;
    try contradiction; try lia.
  destruct (String.ltb a b) eqn:E1; [rewrite (ltb_asym _ _ E1); lia |].
  destruct (String.ltb b a); lia.
Qed.

(** *** Rows with and without a value *)

Section Column.

Variable col : nat.

Local Abbreviation key := (cell_value col).
Local Abbreviation has_value := (fun r => present col r = true).
Local Abbreviation no_value := (fun r => present col r = false).

Lemma present_Some (r : list CellData) :
  present col r = true <-> exists v, cell_value col r = Some v.
Proof.
  unfold present. destruct (cell_value col r) as [v |]; split.
  - intros _. exists v. reflexivity.
  - intros _. reflexivity.
  - discriminate.
  - intros [v Hv]. discriminate.
Qed.

Lemma compare_absent_left (d : Direction) (a b : list CellData) :
  present col a = false -> compare_rows col d a b = (1 * factor d)%Z.
Proof.
  unfold present, compare_rows. destruct (cell_value col a); [discriminate |].
  reflexivity.
Qed.

Lemma compare_absent_right (d : Direction) (a b : list CellData) :
  present col a = true -> present col b = false ->
  compare_rows col d a b = (-1 * factor d)%Z.
Proof.
  unfold present, compare_rows.
  destruct (cell_value col a) as [va |]; [| discriminate].
  destruct (cell_value col b); [discriminate |]. intros _ _.
  destruct va; reflexivity.
Qed.

(** Ascending: the rows with a value, then the rows without. *)
Lemma fold_insert_asc (rows : list (list CellData)) : forall ps ns,
  Forall has_value ps -> Forall no_value ns ->
  exists ps' ns',
    fold_left (fun placed x => JS.insert (compare_rows col asc) x placed) rows (ps ++ ns)
    = ps' ++ ns'
    /\ Forall has_value ps' /\ Forall no_value ns'.
Proof.
  induction rows as [| x rows IH]; intros ps ns Hps Hns; cbn [fold_left].
  - exists ps, ns. repeat split; assumption.
  - destruct (present col x) eqn:Hx.
    + rewrite insert_before.
      * apply IH; [apply insert_Forall; assumption | exact Hns].
      * eapply Forall_impl; [exact Hns |]. intros y Hy. cbn beta in Hy.
        rewrite (compare_absent_right asc x y Hx Hy). cbn. lia.
    + rewrite insert_last.
      * rewrite <- app_assoc. apply IH; [exact Hps |].
        apply Forall_app. split; [exact Hns | constructor; [exact Hx | constructor]].
      * apply Forall_forall. intros y _.
        rewrite (compare_absent_left asc x y Hx). cbn. lia.
Qed.

(** Descending: the rows without a value, then the rows with one. *)
Lemma fold_insert_desc (rows : list (list CellData)) : forall ns ps,
  Forall no_value ns -> Forall has_value ps ->
  exists ns' ps',
    fold_left (fun placed x => JS.insert (compare_rows col desc) x placed) rows (ns ++ ps)
    = ns' ++ ps'
    /\ Forall no_value ns' /\ Forall has_value ps'.
Proof.
  induction rows as [| x rows IH]; intros ns ps Hns Hps; cbn [fold_left].
  - exists ns, ps. repeat split; assumption.
  - destruct (present col x) eqn:Hx.
    + rewrite insert_after.
      * apply IH; [exact Hns | apply insert_Forall; assumption].
      * eapply Forall_impl; [exact Hns |]. intros y Hy. cbn beta in Hy.
        rewrite (compare_absent_right desc x y Hx Hy). cbn. lia.
    + rewrite insert_first.
      * change (x :: ns ++ ps) with ((x :: ns) ++ ps).
        apply IH; [constructor; assumption | exact Hps].
      * apply Forall_forall. intros y _.
        rewrite (compare_absent_left desc x y Hx). cbn. lia.
Qed.

(** *** Rows that never tie *)

Lemma key_injective (rows : list (list CellData)) (a b : list CellData) :
  NoDup (map key rows) -> In a rows -> In b rows -> a <> b -> key a <> key b.
Proof.
  induction rows as [| r rows IH]; intros Hnd Ha Hb Hne; [contradiction |].
  cbn [map] in Hnd. apply NoDup_cons in Hnd as [Hr Hnd].
  assert (Hin : forall x, In x rows -> key r <> key x).
  { intros x Hx Heq. apply Hr. rewrite Heq.
    apply list_elem_of_In, in_map, Hx. }
  destruct Ha as [-> | Ha], Hb as [-> | Hb].
  - contradiction.
  - apply Hin, Hb.
  - intros Heq. apply (Hin a Ha). symmetry. exact Heq.
  - apply IH; assumption.
Qed.

Lemma column_same_kind (rows : list (list CellData)) (a b : list CellData) :
  numeric_column col rows \/ text_column col rows ->
  In a rows -> In b rows -> same_kind (key a) (key b).
Proof.
  unfold numeric_column, text_column. rewrite !Forall_forall.
  intros Hcol Ha%list_elem_of_In Hb%list_elem_of_In. unfold same_kind.
  destruct (key a) as [[sa | xa] |] eqn:Eka, (key b) as [[sb | xb] |] eqn:Ekb;
    try exact I; destruct Hcol as [Hn | Ht].
  - apply (Hn a Ha sa Eka).
  - apply (Ht b Hb xb Ekb).
  - apply (Hn b Hb sb Ekb).
  - apply (Ht a Ha xa Eka).
Qed.

Lemma compare_rows_strict_total (d : Direction) (rows : list (list CellData)) :
  NoDup (map key rows) ->
  numeric_column col rows \/ text_column col rows ->
  strict_total_on (compare_rows col d) rows.
Proof.
  intros Hnd Hcol. split; unfold before, compare_rows.
  - intros a b Ha Hb Hne. apply cv_total.
    + apply (column_same_kind rows); assumption.
    + apply (key_injective rows); assumption.
  - intros a b Ha Hb Hne. apply cv_asym.
    + apply (column_same_kind rows); assumption.
    + apply (key_injective rows); assumption.
  - intros a b c Ha Hb Hc. apply cv_trans; apply (column_same_kind rows); assumption.
Qed.

(** C4, as the code has it. The direction factor multiplies the results
    for absent values too. Sorting keeps the header in front and
    permutes the data rows; ascending, the rows with no value in the
    column come after all rows that have one; descending, they come
    before them. When the column holds only numbers or only strings and
    no two data rows have the same value there (so at most one has
    none), sorting the ascending result descending gives its data rows
    in exactly the reverse order. *)
Theorem sortData_absent_rows_follow_direction
    (sheet : SheetData) (header : list CellData) (rows : list (list CellData)) :
  data sheet = header :: rows ->
  let up := sortData sheet col asc in
  let down := sortData sheet col desc in
  (exists with_value without,
     data up = header :: (with_value ++ without) /\
     Permutation (with_value ++ without) rows /\
     Forall has_value with_value /\ Forall no_value without) /\
  (exists without with_value,
     data down = header :: (without ++ with_value) /\
     Permutation (without ++ with_value) rows /\
     Forall no_value without /\ Forall has_value with_value) /\
  (NoDup (map key rows) ->
   numeric_column col rows \/ text_column col rows ->
   data (sortData up col desc) = header :: rev (tail (data up))).
Proof.
  intros Hdata up down.
  assert (Hup : data up = header :: JS.sort (compare_rows col asc) rows).
  { unfold up, sortData. rewrite Hdata. reflexivity. }
  assert (Hdown : data down = header :: JS.sort (compare_rows col desc) rows).
  { unfold down, sortData. rewrite Hdata. reflexivity. }
  split; [| split].
  - destruct (fold_insert_asc rows [] [] (List.Forall_nil _) (List.Forall_nil _))
      as (ps & ns & Heq & Hps & Hns).
    exists ps, ns. change (fold_left _ rows ([] ++ [])) with
      (JS.sort (compare_rows col asc) rows) in Heq.
    rewrite Hup, <- Heq. repeat split; try assumption. apply sort_perm.
  - destruct (fold_insert_desc rows [] [] (List.Forall_nil _) (List.Forall_nil _))
      as (ns & ps & Heq & Hns & Hps).
    exists ns, ps. change (fold_left _ rows ([] ++ [])) with
      (JS.sort (compare_rows col desc) rows) in Heq.
    rewrite Hdown, <- Heq. repeat split; try assumption. apply sort_perm.
  - intros Hnd Hcol. unfold sortData at 1. rewrite Hup. cbn [tail name data].
    f_equal. apply sort_mirrored.
    + apply compare_rows_strict_total; assumption.
    + apply compare_rows_strict_total; assumption.
    + apply (NoDup_fmap_1 key). exact Hnd.
    + intros a b Ha Hb Hne. unfold before, compare_rows. apply cv_flip.
      * apply (column_same_kind rows); assumption.
      * apply (key_injective rows); assumption.
Qed.

End Column.

(** Descending, the row with no amount comes first. *)
Lemma desc_puts_absent_first :
  data (sortData amounts 0 desc)
  = [ [cell "A1" (Some (JS.Str "Amount"))];
      [cell "A3" None];
      [cell "A2" (Some (JS.Num 5))] ].
Proof. reflexivity. Qed.

(** Two rows with the same amount keep their order in both passes. *)
Lemma ties_are_not_reversed :
  data (sortData (sortData tied_amounts 0 asc) 0 desc) = data (sortData tied_amounts 0 asc).
Proof. reflexivity. Qed.

Lemma sortData_absent_rows_follow_direction_witness :
  data (sortData (sortData three_amounts 0 asc) 0 desc)
  = [ [cell "A1" (Some (JS.Str "Amount"))];
      [cell "A3" None];
      [cell "A2" (Some (JS.Num 5))];
      [cell "A4" (Some (JS.Num 2))] ].
Proof.
  destruct (sortData_absent_rows_follow_direction 0 three_amounts
              [cell "A1" (Some (JS.Str "Amount"))]
              [ [cell "A2" (Some (JS.Num 5))]; [cell "A3" None];
                [cell "A4" (Some (JS.Num 2))] ] eq_refl) as (_ & _ & H).
  rewrite H.
  - reflexivity.
  - vm_compute. repeat constructor; rewrite ?list_elem_of_In; cbn; intuition discriminate.
  - left. vm_compute. repeat constructor; intros s H'; discriminate H'.
Defined.

End TransformProofs.

(** ** The text of a JSON value *)

Module TextProofs.
Import JSON.

Lemma fold_conj_Forall {A : Type} (Q : A -> Prop) (l : list A) :
  fold_right (fun x acc => Q x /\ acc) True l <-> Forall Q l.
Proof.
  induction l as [| x l IH]; cbn [fold_right].
  - split; [constructor | trivial].
  - rewrite IH, Forall_cons. reflexivity.
Qed.

(** *** Runs of digits *)

Local Abbreviation digits_only := (Forall (fun c => is_digit c = true)).

Lemma ends_number_digits (r : list ascii) : ends_number r -> ends_digits r.
Proof.
  destruct r as [| c r]; [trivial |]. cbn. unfold number_unit.
  destruct (is_digit c); [discriminate | reflexivity].
Qed.

(** A run of digits ends where the text says it does. *)
Lemma digits_span (l1 : list ascii) : forall l2 r1 r2,
  digits_only l1 -> digits_only l2 -> ends_digits r1 -> ends_digits r2 ->
  l1 ++ r1 = l2 ++ r2 -> l1 = l2 /\ r1 = r2.
Proof.
  induction l1 as [| c1 l1 IH]; intros [| c2 l2] r1 r2 H1 H2 E1 E2 Heq; cbn [app] in Heq.
  - split; [reflexivity | exact Heq].
  - subst r1. apply Forall_cons in H2 as [Hc _]. cbn in E1. congruence.
  - subst r2. apply Forall_cons in H1 as [Hc _]. cbn in E2. congruence.
  - injection Heq as -> Heq.
    apply Forall_cons in H1 as [_ H1]. apply Forall_cons in H2 as [_ H2].
    destruct (IH l2 r1 r2 H1 H2 E1 E2 Heq) as [-> ->]. split; reflexivity.
Qed.

Lemma uint_units_digits (d : Decimal.uint) : digits_only (uint_units d).
Proof.
  unfold uint_units.
  induction d; cbn [NilEmpty.string_of_uint list_ascii_of_string];
    constructor; (reflexivity || assumption).
Qed.

Lemma uint_units_eq (d1 : Decimal.uint) : forall d2,
  uint_units d1 = uint_units d2 -> d1 = d2.
Proof.
  unfold uint_units.
  induction d1 as [| d1 IH | d1 IH | d1 IH | d1 IH | d1 IH
                   | d1 IH | d1 IH | d1 IH | d1 IH | d1 IH];
    intros [| d2 | d2 | d2 | d2 | d2 | d2 | d2 | d2 | d2 | d2] Heq;
    cbn in Heq; try reflexivity; try discriminate Heq;
    injection Heq as Heq; rewrite (IH d2 Heq); reflexivity.
Qed.

Lemma uint_units_inj (d1 d2 : Decimal.uint) (r1 r2 : list ascii) :
  uint_units d1 ++ r1 = uint_units d2 ++ r2 ->
  ends_digits r1 -> ends_digits r2 -> d1 = d2 /\ r1 = r2.
Proof.
  intros Heq E1 E2.
  destruct (digits_span _ _ _ _ (uint_units_digits d1) (uint_units_digits d2) E1 E2 Heq)
    as [Hd ->].
  split; [apply uint_units_eq, Hd | reflexivity].
Qed.

Lemma uint_units_head (d : Decimal.uint) :
  d <> Decimal.Nil ->
  exists c rest, uint_units d = c :: rest /\ is_digit c = true.
Proof.
  intros Hd. destruct d; [contradiction | ..]; cbn; eauto.
Qed.

(** *** Numerals *)

Lemma exponent_units_inj (e1 e2 : Z) (r1 r2 : list ascii) :
  exponent_units e1 ++ r1 = exponent_units e2 ++ r2 ->
  ends_digits r1 -> ends_digits r2 -> e1 = e2 /\ r1 = r2.
Proof.
  unfold exponent_units. cbn [app]. intros Heq E1 E2.
  injection Heq as Hsign Heq.
  destruct (uint_units_inj _ _ _ _ Heq E1 E2) as [Hd ->].
  split; [| reflexivity].
  apply DecimalN.Unsigned.to_uint_inj in Hd.
  apply (f_equal Z.of_N) in Hd. rewrite !Zabs2N.id_abs in Hd.
  destruct (Z.ltb_spec e1 0), (Z.ltb_spec e2 0); try discriminate Hsign; lia.
Qed.

(** The text of a numeral gives its parts, whatever follows it. *)
Lemma numeral_units_inj (m1 m2 : numeral) (r1 r2 : list ascii) :
  well_formed m1 -> well_formed m2 ->
  numeral_units m1 ++ r1 = numeral_units m2 ++ r2 ->
  ends_number r1 -> ends_number r2 -> m1 = m2 /\ r1 = r2.
Proof.
  destruct m1 as [w1 f1 e1], m2 as [w2 f2 e2].
  unfold well_formed, numeral_units. cbn [whole fractional exponent].
  intros (_ & Hw1 & Hf1) (_ & Hw2 & Hf2) Heq E1 E2.
  rewrite <- !app_assoc in Heq.
  assert (Hstop : forall (f : option (list ascii)) (e : option Z) r,
            ends_number r ->
            ends_digits (match f with Some f => "."%char :: f | None => [] end
                         ++ match e with Some e => exponent_units e | None => [] end ++ r)).
  { intros [f |] [e |] r Hr; cbn [app]; try reflexivity.
    apply ends_number_digits, Hr. }
  destruct (digits_span w1 w2 _ _ Hw1 Hw2 (Hstop f1 e1 r1 E1) (Hstop f2 e2 r2 E2) Heq)
    as [-> Heq'].
  clear Heq Hstop.
  assert (Hstop : forall (e : option Z) r,
            ends_number r ->
            ends_digits (match e with Some e => exponent_units e | None => [] end ++ r)).
  { intros [e |] r Hr; cbn [app]; [reflexivity | apply ends_number_digits, Hr]. }
  assert (Hexp : forall r r',
            match e1 with Some e => exponent_units e | None => [] end ++ r
            = match e2 with Some e => exponent_units e | None => [] end ++ r' ->
            ends_number r -> ends_number r' -> e1 = e2 /\ r = r').
  { intros r r' H Hr Hr'. destruct e1 as [x1 |], e2 as [x2 |]; cbn [app] in H.
    - destruct (exponent_units_inj x1 x2 r r' H (ends_number_digits _ Hr)
                  (ends_number_digits _ Hr')) as [-> ->].
      split; reflexivity.
    - subst r'. cbn in Hr'. discriminate Hr'.
    - subst r. cbn in Hr. discriminate Hr.
    - split; [reflexivity | exact H]. }
  destruct f1 as [f1 |], f2 as [f2 |]; cbn [app] in Heq'.
  - injection Heq' as Heq'.
    destruct (digits_span f1 f2 _ _ Hf1 Hf2 (Hstop e1 r1 E1) (Hstop e2 r2 E2) Heq')
      as [-> Heq''].
    destruct (Hexp r1 r2 Heq'' E1 E2) as [-> ->]. split; reflexivity.
  - destruct e2 as [x2 |]; cbn [app] in Heq'; [discriminate Heq' |].
    subst r2. cbn in E2. discriminate E2.
  - destruct e1 as [x1 |]; cbn [app] in Heq'; [discriminate Heq' |].
    subst r1. cbn in E1. discriminate E1.
  - destruct (Hexp r1 r2 Heq' E1 E2) as [-> ->]. split; reflexivity.
Qed.

Lemma numeral_units_head (m : numeral) :
  well_formed m -> exists c rest, numeral_units m = c :: rest /\ is_digit c = true.
Proof.
  destruct m as [w f e]. unfold well_formed, numeral_units. cbn [whole fractional exponent].
  intros (Hne & Hw & _). destruct w as [| c w]; [contradiction |].
  apply Forall_cons in Hw as [Hc _]. eexists _, _. split; [reflexivity | exact Hc].
Qed.

(** *** Numbers that are not integers *)

(** What [shortest] asks of the digits. *)
Lemma shortest_spec (digits : Decimal.uint) (n : Z) :
  shortest digits n = true ->
  exists first rest,
    uint_units digits = first :: rest /\ first <> "0"%char
    /\ (forall l, uint_units digits <> l ++ ["0"%char])
    /\ (n < Z.of_nat (length (uint_units digits)))%Z.
Proof.
  unfold shortest. intros H. apply andb_true_iff in H as [H Hn].
  apply andb_true_iff in H as [Hfirst Hlast]. apply Z.ltb_lt in Hn.
  destruct (uint_units digits) as [| first rest] eqn:Hds; [discriminate |].
  exists first, rest. split; [reflexivity |]. split; [| split; [| exact Hn]].
  - intros ->. discriminate Hfirst.
  - intros l Heq. rewrite Heq, last_snoc in Hlast. discriminate Hlast.
Qed.

Lemma digits_only_take (k : nat) (l : list ascii) : digits_only l -> digits_only (take k l).
Proof. intros H. apply Forall_take, H. Qed.

Lemma digits_only_drop (k : nat) (l : list ascii) : digits_only l -> digits_only (drop k l).
Proof. intros H. apply Forall_drop, H. Qed.

(** The three forms of the numeral. *)
Lemma fraction_numeral_cases (digits : Decimal.uint) (n : Z) :
  let ds := uint_units digits in
  ((0 < n <= 21)%Z /\
   fraction_numeral digits n
   = {| whole := take (Z.to_nat n) ds; fractional := Some (drop (Z.to_nat n) ds);
        exponent := None |}) \/
  ((-6 < n <= 0)%Z /\
   fraction_numeral digits n
   = {| whole := ["0"%char];
        fractional := Some (repeat "0"%char (Z.to_nat (- n)) ++ ds);
        exponent := None |}) \/
  ((n <= -6 \/ 21 < n)%Z /\
   fraction_numeral digits n
   = {| whole := take 1 ds;
        fractional := match drop 1 ds with
                      | [] => None
                      | d :: rest => Some (d :: rest)
                      end;
        exponent := Some (n - 1)%Z |}).
Proof.
  intros ds. unfold fraction_numeral. fold ds.
  destruct (Z.ltb_spec 0 n), (Z.leb_spec n 21), (Z.ltb_spec (-6) n), (Z.leb_spec n 0);
    cbn [andb]; try lia;
    first [left; split; [lia | reflexivity]
          | right; left; split; [lia | reflexivity]
          | right; right; split; [lia | reflexivity]].
Qed.

Lemma fraction_numeral_well_formed (digits : Decimal.uint) (n : Z) :
  shortest digits n = true -> well_formed (fraction_numeral digits n).
Proof.
  intros Hs. destruct (shortest_spec digits n Hs) as (first & rest & Hds & _ & _ & _).
  pose proof (uint_units_digits digits) as Hall.
  destruct (fraction_numeral_cases digits n) as [[Hn ->] | [[Hn ->] | [Hn ->]]];
    unfold well_formed; cbn [whole fractional].
  - split; [| split; [apply digits_only_take, Hall | apply digits_only_drop, Hall]].
    rewrite Hds. destruct (Z.to_nat n) eqn:Hk; [lia | discriminate].
  - split; [discriminate |]. split; [repeat constructor |].
    apply Forall_app. split; [| exact Hall].
    apply Forall_forall. intros c Hc%list_elem_of_In%repeat_spec. subst c. reflexivity.
  - split; [rewrite Hds; discriminate |].
    split; [apply digits_only_take, Hall |].
    pose proof (digits_only_drop 1 _ Hall) as Hd.
    destruct (drop 1 (uint_units digits)); [exact I | exact Hd].
Qed.

Lemma zeros_inj (a : nat) : forall (b : nat) (l1 l2 : list ascii),
  (forall rest, l1 <> "0"%char :: rest) -> (forall rest, l2 <> "0"%char :: rest) ->
  repeat "0"%char a ++ l1 = repeat "0"%char b ++ l2 -> a = b /\ l1 = l2.
Proof.
  induction a as [| a IH]; intros [| b] l1 l2 H1 H2 Heq; cbn [repeat app] in Heq.
  - split; [reflexivity | exact Heq].
  - exfalso. exact (H1 _ Heq).
  - exfalso. symmetry in Heq. exact (H2 _ Heq).
  - injection Heq as Heq. destruct (IH b l1 l2 H1 H2 Heq) as [-> ->].
    split; reflexivity.
Qed.

Lemma tail_match_inj (l1 l2 : list ascii) :
  match l1 with [] => None | c :: rest => Some (c :: rest) end
  = match l2 with [] => None | c :: rest => Some (c :: rest) end ->
  l1 = l2.
Proof. destruct l1, l2; intros H; try discriminate H; congruence. Qed.

(** The parts of the numeral give the digits and the place back. *)
Lemma fraction_numeral_inj (d1 d2 : Decimal.uint) (n1 n2 : Z) :
  shortest d1 n1 = true -> shortest d2 n2 = true ->
  fraction_numeral d1 n1 = fraction_numeral d2 n2 -> d1 = d2 /\ n1 = n2.
Proof.
  intros S1 S2.
  destruct (shortest_spec d1 n1 S1) as (c1 & t1 & Hd1 & Hc1 & _ & Hn1).
  destruct (shortest_spec d2 n2 S2) as (c2 & t2 & Hd2 & Hc2 & _ & Hn2).
  assert (Hfrom : uint_units d1 = uint_units d2 -> d1 = d2) by apply uint_units_eq.
  destruct (fraction_numeral_cases d1 n1) as [[P1 ->] | [[P1 ->] | [P1 ->]]];
    destruct (fraction_numeral_cases d2 n2) as [[P2 ->] | [[P2 ->] | [P2 ->]]];
    intros Heq; try discriminate Heq.
  - (* the point among the digits, twice *)
    injection Heq as Hw Hf.
    assert (Hds : uint_units d1 = uint_units d2).
    { rewrite <- (take_drop (Z.to_nat n1) (uint_units d1)),
        <- (take_drop (Z.to_nat n2) (uint_units d2)), Hw, Hf. reflexivity. }
    split; [apply Hfrom, Hds |].
    apply (f_equal (@length ascii)) in Hw. rewrite !length_take, <- Hds in Hw. lia.
  - (* the point among the digits, and before them *)
    injection Heq as Hw _. rewrite Hd1 in Hw.
    destruct (Z.to_nat n1) eqn:Hn; [lia |]. cbn [take] in Hw.
    injection Hw as Hw _. contradiction.
  - injection Heq as Hw _. rewrite Hd2 in Hw.
    destruct (Z.to_nat n2) eqn:Hn; [lia |]. cbn [take] in Hw.
    injection Hw as Hw _. symmetry in Hw. contradiction.
  - (* zeros between the point and the digits, twice *)
    injection Heq as Hf.
    assert (Z1 : forall rest, uint_units d1 <> "0"%char :: rest)
      by (intros rest H; rewrite Hd1 in H; congruence).
    assert (Z2 : forall rest, uint_units d2 <> "0"%char :: rest)
      by (intros rest H; rewrite Hd2 in H; congruence).
    destruct (zeros_inj _ _ _ _ Z1 Z2 Hf) as [Hz Hds].
    split; [apply Hfrom, Hds | lia].
  - (* the exponent, twice *)
    injection Heq as Hw Hf He. apply tail_match_inj in Hf.
    split; [| lia]. apply Hfrom.
    rewrite <- (take_drop 1 (uint_units d1)), <- (take_drop 1 (uint_units d2)), Hw, Hf.
    reflexivity.
Qed.

(** *** Integers *)

Lemma to_uint_first (p : positive) :
  exists c rest, uint_units (Pos.to_uint p) = c :: rest /\ c <> "0"%char.
Proof.
  assert (Hnorm : Pos.to_uint p = Decimal.unorm (Pos.to_uint p)).
  { pose proof (DecimalN.Unsigned.to_of (Pos.to_uint p)) as H.
    change (N.of_uint (Pos.to_uint p)) with (Pos.of_uint (Pos.to_uint p)) in H.
    rewrite DecimalPos.Unsigned.of_to in H. exact H. }
  assert (Hhead : Decimal.nzhead (Pos.to_uint p) <> Decimal.Nil).
  { intros H. apply DecimalFacts.unorm_0 in H. rewrite <- Hnorm in H.
    exact (DecimalPos.Unsigned.to_uint_nonzero p H). }
  rewrite (DecimalFacts.unorm_nzhead _ Hhead) in Hnorm. rewrite Hnorm.
  pose proof (DecimalFacts.nzhead_nonzero (Pos.to_uint p)) as Hnz.
  destruct (Decimal.nzhead (Pos.to_uint p)) as [| d | d | d | d | d | d | d | d | d | d];
    [contradiction | exfalso; exact (Hnz d eq_refl) | ..];
    eexists _, _; (split; [reflexivity | discriminate]).
Qed.

(** The digits of an integer: there is one at least, and the first is
    0 only when it is the only one. *)
Lemma integer_digits (z : Z) (d : Decimal.uint) :
  Z.to_int z = Decimal.Pos d \/ Z.to_int z = Decimal.Neg d ->
  exists c rest, uint_units d = c :: rest /\ (rest <> [] -> c <> "0"%char).
Proof.
  destruct z as [| p | p]; cbn [Z.to_int]; intros [H | H]; try discriminate H;
    injection H as <-.
  - exists "0"%char, []. split; [reflexivity | intros Hr; contradiction].
  - destruct (to_uint_first p) as (c & rest & Hc & Hne). exists c, rest. auto.
  - destruct (to_uint_first p) as (c & rest & Hc & Hne). exists c, rest. auto.
Qed.

Lemma trim_zeros_spec (ds : list ascii) :
  exists m, ds = trim_zeros ds ++ repeat "0"%char m.
Proof.
  induction ds as [| c rest [m IH]]; [exists 0; reflexivity |].
  cbn [trim_zeros]. destruct (trim_zeros rest) as [| t ts].
  - cbn [app] in IH. destruct (Ascii.eqb_spec c "0") as [-> | _].
    + exists (S m). rewrite IH. reflexivity.
    + exists m. rewrite IH at 1. reflexivity.
  - exists m. rewrite IH at 1. reflexivity.
Qed.

Lemma trim_zeros_head (c : ascii) (rest : list ascii) :
  c <> "0"%char -> exists t, trim_zeros (c :: rest) = c :: t.
Proof.
  intros Hc. cbn [trim_zeros]. destruct (trim_zeros rest) as [| t ts].
  - destruct (Ascii.eqb_spec c "0"); [contradiction | exists []; reflexivity].
  - eexists. reflexivity.
Qed.

Lemma trim_zeros_inj (ds1 ds2 : list ascii) :
  trim_zeros ds1 = trim_zeros ds2 -> length ds1 = length ds2 -> ds1 = ds2.
Proof.
  intros Ht Hl.
  destruct (trim_zeros_spec ds1) as [m1 H1]. destruct (trim_zeros_spec ds2) as [m2 H2].
  assert (Hm : m1 = m2).
  { apply (f_equal (@length ascii)) in H1, H2.
    rewrite length_app, repeat_length in H1, H2. rewrite Ht in H1. lia. }
  rewrite H1, H2, Ht, Hm. reflexivity.
Qed.

(** The two forms of the numeral of an integer. *)
Lemma integer_numeral_cases (d : Decimal.uint) :
  let ds := uint_units d in
  (length ds <= 21 /\
   integer_numeral d = {| whole := ds; fractional := None; exponent := None |}) \/
  (21 < length ds /\
   integer_numeral d
   = {| whole := take 1 (trim_zeros ds);
        fractional := match drop 1 (trim_zeros ds) with
                      | [] => None
                      | c :: rest => Some (c :: rest)
                      end;
        exponent := Some (Z.of_nat (length ds) - 1)%Z |}).
Proof.
  intros ds. unfold integer_numeral. fold ds.
  destruct (Nat.leb_spec (length ds) 21); [left | right]; split; (lia || reflexivity).
Qed.

Lemma digits_only_trim (ds : list ascii) :
  Forall (fun c => is_digit c = true) ds ->
  Forall (fun c => is_digit c = true) (trim_zeros ds).
Proof.
  intros H. destruct (trim_zeros_spec ds) as [m Hm]. rewrite Hm in H.
  apply Forall_app in H as [H _]. exact H.
Qed.

Lemma integer_numeral_well_formed (z : Z) (d : Decimal.uint) :
  Z.to_int z = Decimal.Pos d \/ Z.to_int z = Decimal.Neg d ->
  well_formed (integer_numeral d).
Proof.
  intros Hz. destruct (integer_digits z d Hz) as (c & rest & Hds & Hc).
  pose proof (uint_units_digits d) as Hall.
  destruct (integer_numeral_cases d) as [[Hlen ->] | [Hlen ->]];
    unfold well_formed; cbn [whole fractional].
  - split; [rewrite Hds; discriminate |]. split; [exact Hall | exact I].
  - assert (Hne : c <> "0"%char).
    { apply Hc. intros ->. rewrite Hds in Hlen. cbn [length] in Hlen. lia. }
    pose proof (digits_only_trim _ Hall) as Htrim.
    rewrite Hds in Htrim |- *. destruct (trim_zeros_head c rest Hne) as [t Ht].
    rewrite Ht in Htrim |- *. cbn [take drop].
    apply Forall_cons in Htrim as [Hd Htrim].
    split; [discriminate |]. split; [repeat constructor; exact Hd |].
    destruct t; [exact I | exact Htrim].
Qed.

Lemma integer_numeral_inj (d1 d2 : Decimal.uint) :
  integer_numeral d1 = integer_numeral d2 -> d1 = d2.
Proof.
  destruct (integer_numeral_cases d1) as [[L1 ->] | [L1 ->]];
    destruct (integer_numeral_cases d2) as [[L2 ->] | [L2 ->]];
    intros Heq; try discriminate Heq.
  - injection Heq as Heq. apply uint_units_eq, Heq.
  - injection Heq as Hw Hf He. apply tail_match_inj in Hf.
    apply uint_units_eq, trim_zeros_inj; [| lia].
    rewrite <- (take_drop 1 (trim_zeros (uint_units d1))),
      <- (take_drop 1 (trim_zeros (uint_units d2))), Hw, Hf. reflexivity.
Qed.

(** The numeral of an integer is not that of a number that is none:
    without an exponent it has no fractional part, and with one it has
    more digits before the point than there are digits to write. *)
Lemma integer_numeral_not_fraction (d digits : Decimal.uint) (n : Z) :
  shortest digits n = true -> integer_numeral d <> fraction_numeral digits n.
Proof.
  intros Hs Heq.
  destruct (shortest_spec digits n Hs) as (c & t & Hds & _ & _ & Hn).
  destruct (integer_numeral_cases d) as [[L1 H1] | [L1 H1]];
    destruct (fraction_numeral_cases digits n) as [[P H2] | [[P H2] | [P H2]]];
    rewrite H1, H2 in Heq; try discriminate Heq.
  injection Heq as Hw Hf He. apply tail_match_inj in Hf.
  assert (Htrim : trim_zeros (uint_units d) = uint_units digits).
  { rewrite <- (take_drop 1 (trim_zeros (uint_units d))),
      <- (take_drop 1 (uint_units digits)), Hw, Hf. reflexivity. }
  destruct (trim_zeros_spec (uint_units d)) as [m Hm].
  apply (f_equal (@length ascii)) in Hm. rewrite length_app, Htrim in Hm. lia.
Qed.

(** *** Numbers *)

Lemma number_units_numeral (x : number) :
  legible_number x ->
  number_units x
  = (if fst (sign_and_numeral x) then ["-"%char] else [])
    ++ numeral_units (snd (sign_and_numeral x))
  /\ well_formed (snd (sign_and_numeral x)).
Proof.
  destruct x as [z | negative digits n | | | |]; cbn [legible_number]; intros Hx;
    try contradiction.
  - cbn [sign_and_numeral number_units].
    destruct (Z.to_int z) as [d | d] eqn:Hz; cbn [fst snd app].
    + split; [reflexivity | apply (integer_numeral_well_formed z); left; exact Hz].
    + split; [reflexivity | apply (integer_numeral_well_formed z); right; exact Hz].
  - cbn [sign_and_numeral number_units fst snd].
    split; [reflexivity | apply fraction_numeral_well_formed, Hx].
Qed.

Lemma sign_and_numeral_inj (x y : number) :
  legible_number x -> legible_number y ->
  sign_and_numeral x = sign_and_numeral y -> x = y.
Proof.
  destruct x as [z1 | s1 d1 n1 | | | |], y as [z2 | s2 d2 n2 | | | |];
    cbn [legible_number]; intros Hx Hy Heq; try contradiction.
  - cbn [sign_and_numeral] in Heq. f_equal. apply DecimalZ.to_int_inj.
    destruct (Z.to_int z1) as [a | a], (Z.to_int z2) as [b | b];
      injection Heq as Heq; try discriminate;
      rewrite (integer_numeral_inj a b Heq); reflexivity.
  - cbn [sign_and_numeral] in Heq. exfalso.
    destruct (Z.to_int z1) as [a | a]; injection Heq as _ Heq;
      exact (integer_numeral_not_fraction a d2 n2 Hy Heq).
  - cbn [sign_and_numeral] in Heq. exfalso.
    destruct (Z.to_int z2) as [a | a]; injection Heq as _ Heq; symmetry in Heq;
      exact (integer_numeral_not_fraction a d1 n1 Hx Heq).
  - cbn [sign_and_numeral] in Heq. injection Heq as -> Heq.
    destruct (fraction_numeral_inj d1 d2 n1 n2 Hx Hy Heq) as [-> ->]. reflexivity.
Qed.

(** The text of a legible number gives the number, whatever follows. *)
Lemma number_units_inj (x y : number) (r1 r2 : list ascii) :
  legible_number x -> legible_number y ->
  number_units x ++ r1 = number_units y ++ r2 ->
  ends_number r1 -> ends_number r2 -> x = y /\ r1 = r2.
Proof.
  intros Hx Hy Heq E1 E2.
  destruct (number_units_numeral x Hx) as [Ux Wx].
  destruct (number_units_numeral y Hy) as [Uy Wy].
  rewrite Ux, Uy in Heq.
  destruct (numeral_units_head _ Wx) as (cx & tx & Hcx & Hdx).
  destruct (numeral_units_head _ Wy) as (cy & ty & Hcy & Hdy).
  assert (Hsame : fst (sign_and_numeral x) = fst (sign_and_numeral y)
                  /\ numeral_units (snd (sign_and_numeral x)) ++ r1
                     = numeral_units (snd (sign_and_numeral y)) ++ r2).
  { destruct (fst (sign_and_numeral x)), (fst (sign_and_numeral y)); cbn [app] in Heq.
    - injection Heq as Heq. split; [reflexivity | exact Heq].
    - rewrite Hcy in Heq. cbn [app] in Heq. injection Heq as <- _. discriminate Hdy.
    - rewrite Hcx in Heq. cbn [app] in Heq. injection Heq as -> _. discriminate Hdx.
    - split; [reflexivity | exact Heq]. }
  destruct Hsame as [Hsign Hnum].
  destruct (numeral_units_inj _ _ r1 r2 Wx Wy Hnum E1 E2) as [Hm ->].
  split; [| reflexivity].
  apply sign_and_numeral_inj; [exact Hx | exact Hy |].
  destruct (sign_and_numeral x), (sign_and_numeral y). cbn [fst snd] in *. congruence.
Qed.

Lemma number_units_head (x : number) :
  legible_number x ->
  exists c rest, number_units x = c :: rest /\ (c = "-"%char \/ is_digit c = true).
Proof.
  intros Hx. destruct (number_units_numeral x Hx) as [Ux Wx]. rewrite Ux.
  destruct (numeral_units_head _ Wx) as (c & rest & Hc & Hd).
  destruct (fst (sign_and_numeral x)); cbn [app].
  - eexists _, _. split; [reflexivity | left; reflexivity].
  - exists c, rest. split; [exact Hc | right; exact Hd].
Qed.

(** *** Strings *)

Lemma in_all_units (c : ascii) : In c all_units.
Proof.
  unfold all_units. apply in_map_iff. exists (nat_of_ascii c).
  split; [apply ascii_nat_embedding |].
  apply in_seq. pose proof (nat_ascii_bounded c). lia.
Qed.

Lemma prefix_either_app (l1 l2 x y : list ascii) :
  l1 ++ x = l2 ++ y -> prefix_either l1 l2 = true.
Proof.
  revert l2. induction l1 as [| c1 l1 IH]; intros [| c2 l2] Heq; try reflexivity.
  cbn in Heq. injection Heq as -> Heq. cbn [prefix_either].
  rewrite Ascii.eqb_refl. apply (IH l2 Heq).
Qed.

(** No escape begins with a quote, and none begins another: checked on
    the 256 code units. *)
Lemma escapes_checked : forallb escape_checked all_units = true.
Proof. vm_compute. reflexivity. Qed.

Lemma escape_checked_true (c : ascii) : escape_checked c = true.
Proof.
  exact (proj1 (forallb_forall escape_checked all_units) escapes_checked c (in_all_units c)).
Qed.

Lemma escape_unit_head (c : ascii) :
  exists h t, escape_unit c = h :: t /\ h <> dquote.
Proof.
  pose proof (escape_checked_true c) as H. unfold escape_checked in H.
  apply andb_true_iff in H as [H _].
  destruct (escape_unit c) as [| h t]; [discriminate |].
  exists h, t. split; [reflexivity |].
  intros ->. rewrite Ascii.eqb_refl in H. discriminate.
Qed.

Lemma escape_unit_inj (c1 c2 : ascii) (x y : list ascii) :
  escape_unit c1 ++ x = escape_unit c2 ++ y -> c1 = c2 /\ x = y.
Proof.
  intros Heq. pose proof (escape_checked_true c1) as H. unfold escape_checked in H.
  apply andb_true_iff in H as [_ H].
  pose proof (proj1 (forallb_forall _ _) H c2 (in_all_units c2)) as H2.
  cbv beta in H2. rewrite (prefix_either_app _ _ _ _ Heq) in H2.
  apply Ascii.eqb_eq in H2. subst c2. split; [reflexivity |].
  exact (app_inv_head _ _ _ Heq).
Qed.

Lemma escaped_inj (l1 : list ascii) : forall l2 r1 r2,
  flat_map escape_unit l1 ++ dquote :: r1 = flat_map escape_unit l2 ++ dquote :: r2 ->
  l1 = l2 /\ r1 = r2.
Proof.
  induction l1 as [| c1 l1 IH]; intros [| c2 l2] r1 r2 Heq; cbn [flat_map app] in Heq.
  - injection Heq as ->. split; reflexivity.
  - destruct (escape_unit_head c2) as (h & t & Hc & Hh). rewrite Hc in Heq.
    cbn in Heq. injection Heq as <- _. contradiction.
  - destruct (escape_unit_head c1) as (h & t & Hc & Hh). rewrite Hc in Heq.
    cbn in Heq. injection Heq as -> _. contradiction.
  - rewrite <- !app_assoc in Heq.
    destruct (escape_unit_inj c1 c2 _ _ Heq) as [-> Heq'].
    destruct (IH l2 r1 r2 Heq') as [-> ->]. split; reflexivity.
Qed.

Lemma list_ascii_of_string_inj (s1 s2 : string) :
  list_ascii_of_string s1 = list_ascii_of_string s2 -> s1 = s2.
Proof.
  intros H. rewrite <- (string_of_list_ascii_of_string s1),
    <- (string_of_list_ascii_of_string s2), H. reflexivity.
Qed.

Lemma quote_inj (s1 s2 : string) (r1 r2 : list ascii) :
  quote s1 ++ r1 = quote s2 ++ r2 -> s1 = s2 /\ r1 = r2.
Proof.
  unfold quote. cbn [app]. intros Heq. injection Heq as Heq.
  rewrite <- !app_assoc in Heq. cbn [app] in Heq.
  destruct (escaped_inj _ _ _ _ Heq) as [Hs ->].
  split; [apply list_ascii_of_string_inj, Hs | reflexivity].
Qed.

(** *** Elements joined by commas *)

Section Joined.

Context {A : Type}.
Variable f : A -> list ascii.
Variable Q : A -> Prop.
Variable close : ascii.
Hypothesis close_not_digit : number_unit close = false.
Hypothesis close_not_comma : close <> ","%char.
Hypothesis head_not_close :
  forall y, Q y -> exists c rest, f y = c :: rest /\ c <> close.

Lemma join_more (x : A) (l : list A) (R : list ascii) :
  join (map f (x :: l)) ++ R = f x ++ more f l R.
Proof.
  revert x. induction l as [| y l IH]; intros x.
  - reflexivity.
  - change (join (map f (x :: y :: l))) with (f x ++ ","%char :: join (map f (y :: l))).
    rewrite <- app_assoc. cbn [app more]. rewrite IH. reflexivity.
Qed.

Lemma more_ends (l : list A) (R : list ascii) :
  ends_number (more f l (close :: R)).
Proof. destruct l; cbn; [exact close_not_digit | reflexivity]. Qed.

Lemma more_inj (l1 : list A) : forall l2 r1 r2,
  Forall (told_apart f Q) l1 -> Forall Q l2 ->
  more f l1 (close :: r1) = more f l2 (close :: r2) -> l1 = l2 /\ r1 = r2.
Proof.
  induction l1 as [| x1 l1 IH]; intros [| x2 l2] r1 r2 Hin HQ Heq; cbn [more] in Heq.
  - injection Heq as ->. split; reflexivity.
  - injection Heq as Hc _. contradiction.
  - injection Heq as Hc _. symmetry in Hc. contradiction.
  - injection Heq as Heq.
    apply Forall_cons in Hin as [Hx Hin]. apply Forall_cons in HQ as [Hq HQ].
    destruct (Hx x2 _ _ Hq Heq (more_ends _ _) (more_ends _ _)) as [-> Heq'].
    destruct (IH l2 r1 r2 Hin HQ Heq') as [-> ->]. split; reflexivity.
Qed.

Lemma joined_inj (l1 l2 : list A) (r1 r2 : list ascii) :
  Forall (told_apart f Q) l1 -> Forall Q l1 -> Forall Q l2 ->
  join (map f l1) ++ close :: r1 = join (map f l2) ++ close :: r2 ->
  l1 = l2 /\ r1 = r2.
Proof.
  intros Hin HQ1 HQ2 Heq. destruct l1 as [| x1 l1], l2 as [| x2 l2].
  - cbn in Heq. injection Heq as ->. split; reflexivity.
  - rewrite join_more in Heq. cbn [map join app] in Heq.
    apply Forall_cons in HQ2 as [Hq _].
    destruct (head_not_close x2 Hq) as (c & rest & Hc & Hne).
    rewrite Hc in Heq. injection Heq as -> _. contradiction.
  - rewrite join_more in Heq. cbn [map join app] in Heq.
    apply Forall_cons in HQ1 as [Hq _].
    destruct (head_not_close x1 Hq) as (c & rest & Hc & Hne).
    rewrite Hc in Heq. injection Heq as <- _. contradiction.
  - rewrite !join_more in Heq.
    apply Forall_cons in Hin as [Hx Hin]. apply Forall_cons in HQ2 as [Hq HQ2].
    destruct (Hx x2 _ _ Hq Heq (more_ends _ _) (more_ends _ _)) as [-> Heq'].
    destruct (more_inj l1 l2 r1 r2 Hin HQ2 Heq') as [-> ->]. split; reflexivity.
Qed.

End Joined.

(** *** Values *)

Lemma units_begins (v : json) :
  legible v -> exists c rest, units v = c :: rest /\ begins v c.
Proof.
  destruct v as [| [] | x | s | items | props]; cbn [legible]; intros Hf;
    try (eexists _, _; split; reflexivity).
  destruct (number_units_head x Hf) as (c & rest & Hc & Hhead).
  exists c, rest. split; [exact Hc | exact Hhead].
Qed.

Ltac clash Hf1 Hf2 Heq :=
  let c1 := fresh "c" in let t1 := fresh "t" in
  let E1 := fresh "E" in let K1 := fresh "K" in
  let c2 := fresh "c" in let t2 := fresh "t" in
  let E2 := fresh "E" in let K2 := fresh "K" in
  destruct (units_begins _ Hf1) as (c1 & t1 & E1 & K1);
  destruct (units_begins _ Hf2) as (c2 & t2 & E2 & K2);
  rewrite E1, E2 in Heq; cbn [app] in Heq; injection Heq as Heq _;
  cbn [begins] in K1, K2; subst c2;
  repeat match goal with
    | H : _ \/ _ |- _ => destruct H
    end;
  subst; discriminate.

(** The text of a value without [NaN] and infinities determines the
    value, also when more text follows. *)
Lemma units_inj_followed (v1 : json) :
  legible v1 -> forall v2 r1 r2, legible v2 ->
  units v1 ++ r1 = units v2 ++ r2 -> ends_number r1 -> ends_number r2 ->
  v1 = v2 /\ r1 = r2.
Proof.
  induction v1 as [| b1 | n1 | s1 | items1 IH | props1 IH] using json_induction;
    intros Hf1 v2 r1 r2 Hf2 Heq H1 H2;
    destruct v2 as [| [] | n2 | s2 | items2 | props2];
    try match goal with b : bool |- _ => destruct b end;
    try solve [clash Hf1 Hf2 Heq];
    try solve [split; [reflexivity | exact (app_inv_head _ _ _ Heq)]].
  - cbn [units] in Heq. cbn [legible] in Hf1, Hf2.
    destruct (number_units_inj n1 n2 r1 r2 Hf1 Hf2 Heq H1 H2) as [-> ->].
    split; reflexivity.
  - cbn [units] in Heq. destruct (quote_inj s1 s2 r1 r2 Heq) as [-> ->].
    split; reflexivity.
  - cbn [units app] in Heq. injection Heq as Heq.
    rewrite <- !app_assoc in Heq. cbn [app] in Heq.
    cbn [legible] in Hf1, Hf2. apply fold_conj_Forall in Hf1, Hf2.
    assert (Hnc : "]"%char <> ","%char) by discriminate.
    assert (Hhead : forall y, legible y ->
              exists c rest, units y = c :: rest /\ c <> "]"%char).
    { intros y Hy. destruct (units_begins y Hy) as (c & rest & Hc & Hb).
      exists c, rest. split; [exact Hc |].
      intros ->. destruct y as [| [] | | | |]; cbn [begins] in Hb;
        try discriminate Hb. destruct Hb as [Hb | Hb]; discriminate Hb. }
    assert (Htold : Forall (told_apart units legible) items1).
    { rewrite Forall_forall in IH, Hf1 |- *. intros x Hx y T1 T2 Hy.
      apply (IH x Hx (Hf1 x Hx)). exact Hy. }
    destruct (joined_inj units legible "]"%char eq_refl Hnc Hhead
                items1 items2 r1 r2 Htold Hf1 Hf2 Heq) as [-> ->].
    split; reflexivity.
  - cbn [units app] in Heq. injection Heq as Heq.
    rewrite <- !app_assoc in Heq. cbn [app] in Heq.
    cbn [legible] in Hf1, Hf2. apply fold_conj_Forall in Hf1, Hf2.
    change (map (fun p => quote (fst p) ++ ":"%char :: units (snd p)))
      with (map property_units) in Heq.
    assert (Hnc : "}"%char <> ","%char) by discriminate.
    assert (Hhead : forall p : string * json, legible (snd p) ->
              exists c rest, property_units p = c :: rest /\ c <> "}"%char).
    { intros [k v] _. unfold property_units, quote. cbn [fst app].
      eexists _, _. split; [reflexivity | discriminate]. }
    assert (Htold : Forall (told_apart property_units (fun p => legible (snd p))) props1).
    { rewrite Forall_forall in IH, Hf1 |- *.
      intros [k1 x1] Hx [k2 x2] T1 T2 Hy Hp Ht1 Ht2.
      unfold property_units in Hp. cbn [fst snd] in Hp, Hy.
      rewrite <- !app_assoc in Hp.
      destruct (quote_inj _ _ _ _ Hp) as [-> Hp']. cbn [app] in Hp'.
      injection Hp' as Hp'.
      destruct (IH (k2, x1) Hx (Hf1 (k2, x1) Hx) x2 T1 T2 Hy Hp' Ht1 Ht2) as [Hv ->].
      cbn [snd] in Hv. subst x2. split; reflexivity. }
    destruct (joined_inj property_units (fun p => legible (snd p)) "}"%char eq_refl Hnc Hhead
                props1 props2 r1 r2 Htold Hf1 Hf2 Heq) as [-> ->].
    split; reflexivity.
Qed.

(** [JSON.stringify] is injective on values without [NaN] and
    infinities. *)
Lemma stringify_inj (v1 v2 : json) :
  legible v1 -> legible v2 -> stringify v1 = stringify v2 -> v1 = v2.
Proof.
  intros Hf1 Hf2 Heq. unfold stringify in Heq.
  assert (Hu : units v1 = units v2).
  { rewrite <- (list_ascii_of_string_of_list_ascii (units v1)),
      <- (list_ascii_of_string_of_list_ascii (units v2)), Heq. reflexivity. }
  destruct (units_inj_followed v1 Hf1 v2 [] [] Hf2) as [Hv _]; try exact I.
  - rewrite !app_nil_r. exact Hu.
  - exact Hv.
Qed.

End TextProofs.

(** ** The cache key *)

Module CacheProofs.
Import JSON Cache SortProofs StringOrder TextProofs.

(** *** Sorting the keys of an object *)

Lemma compare_strings_before (a b : string) :
  before compare_strings a b <-> String.ltb a b = true.
Proof.
  unfold before, compare_strings.
  destruct (String.ltb a b) eqn:Hab; [split; [reflexivity | lia] |].
  destruct (String.ltb b a); split; (discriminate || lia).
Qed.

Lemma compare_strings_strict_total (l : list string) :
  strict_total_on compare_strings l.
Proof.
  split.
  - intros a b _ _ Hne. rewrite !compare_strings_before. apply ltb_total, Hne.
  - intros a b _ _ _. rewrite !compare_strings_before. intros Hab Hba.
    rewrite (ltb_asym a b Hab) in Hba. discriminate.
  - intros a b c _ _ _. rewrite !compare_strings_before. apply ltb_trans.
Qed.

Lemma sort_strings_perm (l1 l2 : list string) :
  NoDup l1 -> Permutation l1 l2 ->
  JS.sort compare_strings l1 = JS.sort compare_strings l2.
Proof.
  intros Hnd Hp.
  assert (Hnd2 : NoDup l2) by (rewrite <- Hp; exact Hnd).
  apply (sorted_unique (before compare_strings)).
  - apply sort_sorted; [apply compare_strings_strict_total | exact Hnd].
  - apply sort_sorted; [apply compare_strings_strict_total | exact Hnd2].
  - rewrite !sort_perm. exact Hp.
  - rewrite sort_perm. exact Hnd.
  - intros a b Ha Hb. apply (sto_asym compare_strings _ (compare_strings_strict_total [a; b]));
      cbn; auto.
Qed.

Lemma get_Some_In (props : list (string * json)) (k : string) (v : json) :
  JSON.get props k = Some v -> In (k, v) props.
Proof.
  unfold JSON.get. destruct (List.find _ props) as [[k' v'] |] eqn:Hfind; [| discriminate].
  cbn. intros [= ->]. apply find_some in Hfind as [Hin Heq].
  cbn in Heq. apply String.eqb_eq in Heq. subst k'. exact Hin.
Qed.

Lemma get_In (props : list (string * json)) (k : string) (v : json) :
  NoDup (map fst props) -> In (k, v) props -> JSON.get props k = Some v.
Proof.
  unfold JSON.get. induction props as [| [k' v'] props IH]; intros Hnd Hin;
    [contradiction |].
  cbn [map fst] in Hnd. apply NoDup_cons in Hnd as [Hk Hnd].
  cbn [List.find fst]. destruct (String.eqb_spec k' k) as [-> | Hne].
  - destruct Hin as [[= ->] | Hin]; [reflexivity |].
    exfalso. apply Hk, list_elem_of_In, in_map_iff. exists (k, v). split; [reflexivity | exact Hin].
  - destruct Hin as [[= -> ->] | Hin]; [contradiction |]. apply IH; assumption.
Qed.

Lemma get_perm (props props' : list (string * json)) (k : string) :
  NoDup (map fst props) -> Permutation props props' ->
  JSON.get props k = JSON.get props' k.
Proof.
  intros Hnd Hp.
  assert (Hnd' : NoDup (map fst props')) by (rewrite <- Hp; exact Hnd).
  destruct (JSON.get props k) as [v |] eqn:Hg.
  - symmetry. apply get_In; [exact Hnd' |].
    apply (Permutation_in _ Hp), get_Some_In, Hg.
  - destruct (JSON.get props' k) as [v' |] eqn:Hg'; [| reflexivity].
    rewrite <- Hg. apply get_In; [exact Hnd |].
    apply (Permutation_in _ (Permutation_sym Hp)), get_Some_In, Hg'.
Qed.

(** The sorted copy of an object does not depend on the order its
    properties came in. *)
Lemma sort_keys_perm (props props' : list (string * json)) :
  NoDup (map fst props) -> Permutation props props' ->
  sort_keys props = sort_keys props'.
Proof.
  intros Hnd Hp. unfold sort_keys.
  rewrite (sort_strings_perm (map fst props) (map fst props') Hnd (Permutation_map fst Hp)).
  generalize (JS.sort compare_strings (map fst props')) as keys.
  generalize (@nil (string * json)) as acc.
  intros acc keys. revert acc.
  induction keys as [| k keys IH]; intros acc; cbn [fold_left]; [reflexivity |].
  rewrite (get_perm props props' k Hnd Hp). apply IH.
Qed.

(** *** The same records in another key order *)

Lemma replaced_key_perm (a : json) : forall b,
  unique_keys a -> key_perm a b -> replaced a = replaced b.
Proof.
  induction a as [| b0 | n | s | items IH | props IH] using json_induction;
    intros b Hu Hkp; inversion Hkp; subst; try reflexivity.
  - (* arrays *)
    cbn [replaced]. f_equal.
    cbn [unique_keys] in Hu. apply fold_conj_Forall in Hu.
    match goal with H : Forall2 key_perm _ _ |- _ => rename H into Hall end.
    clear Hkp. revert IH Hu.
    induction Hall as [| x y l l' Hxy Hall IHl]; intros IH Hu; [reflexivity |].
    apply Forall_cons in IH as [IHx IH]. apply Forall_cons in Hu as [Hux Hu].
    cbn [map]. f_equal; [apply IHx; assumption | apply IHl; assumption].
  - (* objects *)
    match goal with
    | H1 : Permutation props ?q, H2 : Forall2 _ ?q _ |- _ =>
        rename H1 into Hp; rename H2 into Hall; rename q into props1
    end.
    cbn [replaced]. f_equal.
    cbn [unique_keys] in Hu. destruct Hu as [Hnd Hu]. apply fold_conj_Forall in Hu.
    set (f := fun p : string * json => (fst p, replaced (snd p))).
    assert (Hkeys : forall l, map fst (map f l) = map fst l).
    { intros l. rewrite map_map. reflexivity. }
    rewrite (sort_keys_perm (map f props) (map f props1)).
    + f_equal.
      assert (IH1 : Forall (fun p => forall b, unique_keys (snd p) ->
                                     key_perm (snd p) b -> replaced (snd p) = replaced b)
                      props1) by (rewrite <- Hp; exact IH).
      assert (Hu1 : Forall (fun p => unique_keys (snd p)) props1)
        by (rewrite <- Hp; exact Hu).
      clear Hkp Hp IH Hu Hnd. revert IH1 Hu1.
      induction Hall as [| p q l l' [Hk Hpq] Hall IHl]; intros IH1 Hu1; [reflexivity |].
      apply Forall_cons in IH1 as [IHp IH1]. apply Forall_cons in Hu1 as [Hup Hu1].
      cbn [map]. f_equal; [| apply IHl; assumption].
      unfold f. rewrite Hk, (IHp (snd q) Hup Hpq). reflexivity.
    + rewrite Hkeys. exact Hnd.
    + apply Permutation_map. exact Hp.
Qed.

(** *** Tables *)

Lemma sort_keys_sheet (x y : json) :
  sort_keys [("name", x); ("data", y)] = [("data", y); ("name", x)].
Proof. vm_compute. reflexivity. Qed.

Lemma sort_keys_cell (a v : json) :
  sort_keys [("address", a); ("value", v)] = [("address", a); ("value", v)].
Proof. vm_compute. reflexivity. Qed.

Lemma sort_keys_cell_formula (a v f : json) :
  sort_keys [("address", a); ("value", v); ("formula", f)]
  = [("address", a); ("formula", f); ("value", v)].
Proof. vm_compute. reflexivity. Qed.

Lemma replaced_arr (items : list json) :
  replaced (JArr items) = JArr (map replaced items).
Proof. reflexivity. Qed.

Lemma replaced_scalar (v : option JS.Scalar) : replaced (scalar_json v) = scalar_json v.
Proof. destruct v as [[s | n] |]; reflexivity. Qed.

(** What the walk writes for a cell and for a sheet. *)
Lemma replaced_cell (c : Transform.CellData) :
  replaced (cell_json c)
  = JObj (("address", JStr (Transform.address c))
          :: match Transform.formula c with
             | Some f => [("formula", JStr f)]
             | None => []
             end
          ++ [("value", scalar_json (Transform.value c))]).
Proof.
  unfold cell_json. destruct (Transform.formula c) as [f |];
    cbn [replaced map app fst snd]; rewrite replaced_scalar.
  - rewrite sort_keys_cell_formula. reflexivity.
  - rewrite sort_keys_cell. reflexivity.
Qed.

Lemma replaced_sheet (s : Transform.SheetData) :
  replaced (sheet_json s)
  = JObj [("data", replaced_rows (Transform.data s)); ("name", JStr (Transform.name s))].
Proof.
  unfold sheet_json. cbn [replaced map fst snd]. rewrite sort_keys_sheet.
  unfold replaced_rows. rewrite !map_map. do 4 f_equal.
  apply map_ext. intros row. cbn [replaced]. rewrite map_map. reflexivity.
Qed.

Lemma map_inj {A B : Type} (f : A -> B) (l1 : list A) : forall l2,
  (forall x y, In x l1 -> f x = f y -> x = y) -> map f l1 = map f l2 -> l1 = l2.
Proof.
  induction l1 as [| x l1 IH]; intros [| y l2] Hinj Heq; try discriminate Heq;
    [reflexivity |].
  cbn [map] in Heq. injection Heq as Hxy Heq. f_equal.
  - apply Hinj; [left; reflexivity | exact Hxy].
  - apply IH; [| exact Heq]. intros a b Ha. apply Hinj. right. exact Ha.
Qed.

Lemma scalar_json_inj (v1 v2 : option JS.Scalar) :
  scalar_json v1 = scalar_json v2 -> v1 = v2.
Proof.
  destruct v1 as [[s1 | n1] |], v2 as [[s2 | n2] |]; cbn; intros H;
    try discriminate H; try reflexivity; injection H as ->; reflexivity.
Qed.

Lemma replaced_cell_inj (c1 c2 : Transform.CellData) :
  replaced (cell_json c1) = replaced (cell_json c2) -> c1 = c2.
Proof.
  rewrite !replaced_cell. destruct c1 as [a1 v1 [f1 |]], c2 as [a2 v2 [f2 |]];
    cbn [Transform.address Transform.value Transform.formula app]; intros H;
    try discriminate H.
  - injection H as -> -> Hv. apply scalar_json_inj in Hv. subst v2. reflexivity.
  - injection H as -> Hv. apply scalar_json_inj in Hv. subst v2. reflexivity.
Qed.

Lemma replaced_rows_inj (rows1 rows2 : list (list Transform.CellData)) :
  replaced_rows rows1 = replaced_rows rows2 -> rows1 = rows2.
Proof.
  unfold replaced_rows. intros H. injection H as H.
  refine (map_inj _ rows1 rows2 _ H). intros row1 row2 _ Hrow.
  injection Hrow as Hrow.
  refine (map_inj _ row1 row2 _ Hrow). intros c1 c2 _. apply replaced_cell_inj.
Qed.

Lemma replaced_sheet_inj (s1 s2 : Transform.SheetData) :
  replaced (sheet_json s1) = replaced (sheet_json s2) -> s1 = s2.
Proof.
  rewrite !replaced_sheet. destruct s1 as [n1 rows1], s2 as [n2 rows2].
  cbn [Transform.name Transform.data]. intros H.
  assert (Hname : n1 = n2) by congruence.
  assert (Hrows : replaced_rows rows1 = replaced_rows rows2) by congruence.
  rewrite Hname, (replaced_rows_inj rows1 rows2 Hrows). reflexivity.
Qed.

Lemma replaced_sheets_inj (d1 d2 : list Transform.SheetData) :
  replaced (sheets_json d1) = replaced (sheets_json d2) -> d1 = d2.
Proof.
  unfold sheets_json. rewrite !replaced_arr, !map_map. intros H. injection H as H.
  refine (map_inj _ d1 d2 _ H). intros s1 s2 _. apply replaced_sheet_inj.
Qed.

Lemma legible_arr (items : list json) : legible (JArr items) <-> Forall legible items.
Proof. cbn [legible]. apply fold_conj_Forall. Qed.

Lemma legible_replaced_sheets (d : list Transform.SheetData) :
  legible (replaced (sheets_json d)).
Proof.
  unfold sheets_json. rewrite replaced_arr, map_map.
  apply legible_arr, Forall_forall. intros x (s & <- & _)%list_elem_of_In%in_map_iff.
  rewrite replaced_sheet. cbn [legible fold_right snd].
  split; [| split; exact I]. apply fold_conj_Forall, Forall_forall.
  intros x (row & <- & _)%list_elem_of_In%in_map_iff.
  apply legible_arr, Forall_forall. intros x (c & <- & _)%list_elem_of_In%in_map_iff.
  rewrite replaced_cell. destruct c as [a v f].
  cbn [Transform.address Transform.value Transform.formula].
  destruct f as [f |], v as [[t | z] |]; cbn; tauto.
Qed.

(** *** The sorted copy holds the properties of the object *)

Lemma json_insert_indexed_perm (n : N) (k : string) (v : json)
    (props : list (string * json)) :
  Permutation (JSON.insert_indexed n k v props) ((k, v) :: props).
Proof.
  induction props as [| [k' v'] props IH]; cbn [JSON.insert_indexed]; [reflexivity |].
  destruct (array_index k') as [m |]; [| reflexivity].
  destruct (N.ltb n m); [reflexivity |].
  rewrite IH. apply perm_swap.
Qed.

Lemma set_new (props : list (string * json)) (k : string) (v : json) :
  k <> "__proto__" -> ~ In k (map fst props) ->
  Permutation (JSON.set props k v) ((k, v) :: props).
Proof.
  intros Hproto Hnew. unfold JSON.set.
  destruct (String.eqb_spec k "__proto__") as [-> | _]; [contradiction |].
  destruct (existsb (fun p => String.eqb (fst p) k) props) eqn:Hex.
  - exfalso. apply existsb_exists in Hex as (p & Hp & Hk).
    apply String.eqb_eq in Hk. apply Hnew, in_map_iff. exists p. split; assumption.
  - destruct (array_index k) as [n |].
    + apply json_insert_indexed_perm.
    + symmetry. apply Permutation_cons_append.
Qed.

(** The properties an object has under the names of a list. *)
Local Abbreviation under_names props names :=
  (flat_map (fun k => match JSON.get props k with
                      | Some v => [(k, v)]
                      | None => []
                      end) names).

Lemma fold_set_perm (props : list (string * json)) (names : list string) :
  forall sorted,
  NoDup names -> ~ In "__proto__" names ->
  (forall k, In k names -> ~ In k (map fst sorted)) ->
  Permutation
    (fold_left (fun sorted key =>
                  match JSON.get props key with
                  | Some v => JSON.set sorted key v
                  | None => sorted
                  end) names sorted)
    (under_names props names ++ sorted).
Proof.
  induction names as [| k names IH]; intros sorted Hnd Hproto Hnew;
    cbn [fold_left flat_map app]; [reflexivity |].
  apply NoDup_cons in Hnd as [Hk Hnd]. rewrite list_elem_of_In in Hk.
  assert (Hproto' : ~ In "__proto__" names) by (intros H; apply Hproto; right; exact H).
  destruct (JSON.get props k) as [v |] eqn:Hget.
  - assert (Hset : Permutation (JSON.set sorted k v) ((k, v) :: sorted)).
    { apply set_new; [| apply Hnew; left; reflexivity].
      intros ->. apply Hproto. left. reflexivity. }
    rewrite IH; [| exact Hnd | exact Hproto' |].
    + rewrite Hset. cbn [app]. symmetry. apply Permutation_middle.
    + intros k' Hk' Hin. rewrite (Permutation_map fst Hset) in Hin. cbn [map fst] in Hin.
      destruct Hin as [<- | Hin]; [contradiction |].
      exact (Hnew k' (or_intror Hk') Hin).
  - cbn [app]. apply IH; [exact Hnd | exact Hproto' |].
    intros k' Hk'. apply Hnew. right. exact Hk'.
Qed.

Lemma under_own_names (props : list (string * json)) :
  NoDup (map fst props) -> under_names props (map fst props) = props.
Proof.
  intros Hnd.
  assert (H : forall l, (forall p, In p l -> In p props) ->
                        under_names props (map fst l) = l).
  { induction l as [| [k v] l IH]; intros Hsub; [reflexivity |].
    cbn [map fst flat_map]. rewrite (get_In props k v Hnd (Hsub _ (or_introl eq_refl))).
    cbn [app]. f_equal. apply IH. intros p Hp. apply Hsub. right. exact Hp. }
  apply H. trivial.
Qed.

(** Without a property named [__proto__] the sorted copy has the
    properties of the object, all of them and no other. *)
Lemma sort_keys_all (props : list (string * json)) :
  NoDup (map fst props) -> ~ In "__proto__" (map fst props) ->
  Permutation (sort_keys props) props.
Proof.
  intros Hnd Hproto. unfold sort_keys.
  pose proof (sort_perm compare_strings (map fst props)) as Hsort.
  rewrite fold_set_perm.
  - rewrite app_nil_r, Hsort. rewrite under_own_names by exact Hnd. reflexivity.
  - rewrite Hsort. exact Hnd.
  - intros Hin. apply Hproto. apply (Permutation_in _ Hsort), Hin.
  - intros k _ [].
Qed.

(** *** The text tells the records *)

Lemma replaced_keys (props : list (string * json)) :
  map fst (map (fun p => (fst p, replaced (snd p))) props) = map fst props.
Proof. rewrite map_map. reflexivity. Qed.

Lemma legible_replaced (a : json) :
  unique_keys a -> no_proto a -> legible a -> legible (replaced a).
Proof.
  induction a as [| b | n | s | items IH | props IH] using json_induction;
    intros Hu Hp Hl; try exact Hl.
  - cbn [replaced legible]. cbn [unique_keys no_proto legible] in Hu, Hp, Hl.
    apply fold_conj_Forall in Hu, Hp, Hl. apply fold_conj_Forall.
    apply Forall_forall. intros x (y & <- & Hy)%list_elem_of_In%in_map_iff.
    rewrite Forall_forall in IH, Hu, Hp, Hl. apply list_elem_of_In in Hy.
    apply IH; auto.
  - cbn [replaced legible]. cbn [unique_keys no_proto legible] in Hu, Hp, Hl.
    destruct Hu as [Hnd Hu]. destruct Hp as [Hproto Hp].
    apply fold_conj_Forall in Hu, Hp, Hl. apply fold_conj_Forall.
    rewrite sort_keys_all by (rewrite replaced_keys; assumption).
    apply Forall_forall. intros x (p & <- & Hy)%list_elem_of_In%in_map_iff. cbn [snd].
    rewrite Forall_forall in IH, Hu, Hp, Hl. apply list_elem_of_In in Hy.
    apply IH; auto.
Qed.

(** Two values with the same sorted copy hold the same records up to
    the order of the keys. *)
Lemma replaced_reflects (a : json) : forall b,
  unique_keys a -> no_proto a -> unique_keys b -> no_proto b ->
  replaced a = replaced b -> key_perm a b.
Proof.
  induction a as [| b0 | n | s | items IH | props IH] using json_induction;
    intros b Hua Hpa Hub Hpb Heq;
    destruct b as [| b1 | n1 | s1 | items1 | props1]; cbn [replaced] in Heq;
    try discriminate Heq; try (injection Heq as <-); try constructor.
  - (* arrays *)
    injection Heq as Heq.
    cbn [unique_keys no_proto] in Hua, Hpa, Hub, Hpb.
    apply fold_conj_Forall in Hua, Hpa, Hub, Hpb.
    revert items1 Heq Hub Hpb.
    induction items as [| x items IHl]; intros [| y items1] Heq Hub Hpb;
      try discriminate Heq; constructor.
    + cbn [map] in Heq. injection Heq as Hxy _.
      apply Forall_cons in IH as [IHx _]. apply Forall_cons in Hua as [Hx _].
      apply Forall_cons in Hpa as [Hx' _]. apply Forall_cons in Hub as [Hy _].
      apply Forall_cons in Hpb as [Hy' _]. apply IHx; assumption.
    + cbn [map] in Heq. injection Heq as _ Heq.
      apply Forall_cons in IH as [_ IH]. apply Forall_cons in Hua as [_ Hua].
      apply Forall_cons in Hpa as [_ Hpa]. apply Forall_cons in Hub as [_ Hub].
      apply Forall_cons in Hpb as [_ Hpb]. apply IHl; assumption.
  - (* objects *)
    injection Heq as Heq.
    cbn [unique_keys no_proto] in Hua, Hpa, Hub, Hpb.
    destruct Hua as [Hnda Hua]. destruct Hpa as [Hproa Hpa].
    destruct Hub as [Hndb Hub]. destruct Hpb as [Hprob Hpb].
    apply fold_conj_Forall in Hua, Hpa, Hub, Hpb.
    set (f := fun p : string * json => (fst p, replaced (snd p))) in *.
    assert (Hperm : Permutation (map f props1) (map f props)).
    { rewrite <- (sort_keys_all (map f props1)), <- (sort_keys_all (map f props)), Heq;
        try reflexivity; unfold f; rewrite replaced_keys; assumption. }
    apply Permutation_map_inv in Hperm as (props' & Hmap & Hperm).
    apply (kp_obj _ props' _ Hperm).
    assert (IH' : Forall (fun p => forall b, unique_keys (snd p) -> no_proto (snd p) ->
                            unique_keys b -> no_proto b ->
                            replaced (snd p) = replaced b -> key_perm (snd p) b) props')
      by (rewrite <- Hperm; exact IH).
    assert (Hua' : Forall (fun p => unique_keys (snd p)) props') by (rewrite <- Hperm; exact Hua).
    assert (Hpa' : Forall (fun p => no_proto (snd p)) props') by (rewrite <- Hperm; exact Hpa).
    clear Hperm IH Hua Hpa Hnda Hproa Hndb Hprob Heq.
    revert props1 Hmap Hub Hpb.
    induction props' as [| p props' IHl]; intros [| q props1] Hmap Hub Hpb;
      try discriminate Hmap; constructor.
    + cbn [map] in Hmap. injection Hmap as Hk Hv _.
      apply Forall_cons in IH' as [IHp _]. apply Forall_cons in Hua' as [Hp _].
      apply Forall_cons in Hpa' as [Hp' _]. apply Forall_cons in Hub as [Hq _].
      apply Forall_cons in Hpb as [Hq' _].
      split; [congruence |]. apply IHp; try assumption. congruence.
    + cbn [map] in Hmap. injection Hmap as _ _ Hmap.
      apply Forall_cons in IH' as [_ IH']. apply Forall_cons in Hua' as [_ Hua'].
      apply Forall_cons in Hpa' as [_ Hpa']. apply Forall_cons in Hub as [_ Hub].
      apply Forall_cons in Hpb as [_ Hpb]. apply IHl; assumption.
Qed.

(** Two plain values with the same text to digest hold the same
    records up to the order of the keys. *)
Lemma dataString_reflects (a b : json) :
  plain a -> plain b -> dataString a = dataString b -> key_perm a b.
Proof.
  intros (Hla & Hua & Hpa) (Hlb & Hub & Hpb) Heq. unfold dataString in Heq.
  apply replaced_reflects; try assumption.
  apply stringify_inj; [apply legible_replaced | apply legible_replaced |]; assumption.
Qed.

(** C5, as the code has it. Two values that hold the same records up
    to the order of the keys within each object, at every level, get
    the same cache key, whatever the digest. Nothing else is lost in
    the text that is digested, on plain values (numbers other than
    [NaN], the infinities and the negative zero, fractions included,
    and no property named [__proto__]): two arrays with the same text
    have the same elements in the same order, and any two values with
    the same text hold the same records up to the order of the keys;
    so changing a cell value, or the place of a row, changes the text.
    For the tables of the grid this means that two table sequences
    that differ anywhere are digested from different texts. The key is
    a digest of the text, not the text. *)
Theorem cache_key_ignores_key_order_only :
  (forall (digest : list Byte.byte -> list Byte.byte) (a b : json),
     unique_keys a -> key_perm a b ->
     generateCacheKey digest a = generateCacheKey digest b) /\
  (forall items1 items2 : list json,
     plain (JArr items1) -> plain (JArr items2) ->
     dataString (JArr items1) = dataString (JArr items2) ->
     Forall2 key_perm items1 items2) /\
  (forall a b : json,
     plain a -> plain b -> dataString a = dataString b -> key_perm a b) /\
  (forall d1 d2 : list Transform.SheetData,
     d1 <> d2 -> dataString (sheets_json d1) <> dataString (sheets_json d2)).
Proof.
  split; [| split; [| split]].
  - intros digest a b Hu Hkp. unfold generateCacheKey, dataString.
    rewrite (replaced_key_perm a b Hu Hkp). reflexivity.
  - intros items1 items2 H1 H2 Heq.
    pose proof (dataString_reflects _ _ H1 H2 Heq) as Hkp.
    inversion Hkp. assumption.
  - exact dataString_reflects.
  - intros d1 d2 Hne Heq. apply Hne, replaced_sheets_inj.
    apply stringify_inj; [apply legible_replaced_sheets
                         | apply legible_replaced_sheets | exact Heq].
Qed.

Lemma cache_key_ignores_key_order_only_witness :
  generateCacheKey (fun bytes => bytes) name_first
  = generateCacheKey (fun bytes => bytes) data_first
  /\ Forall2 key_perm [a_then_b; JNum half] [b_then_a; JNum half].
Proof.
  destruct cache_key_ignores_key_order_only as (H1 & H2 & _).
  split.
  - apply H1.
    + cbn. repeat split. repeat constructor; rewrite ?list_elem_of_In; cbn; intuition discriminate.
    + unfold name_first, data_first. constructor. constructor; [| constructor].
      apply (kp_obj _ [("data", JArr []); ("name", JStr "Sheet1")]).
      * apply perm_swap.
      * repeat constructor.
  - apply H2.
    + vm_compute. repeat split; try (intros [[= ] | [[= ] | []]]);
        repeat constructor; rewrite ?list_elem_of_In; cbn; intuition discriminate.
    + vm_compute. repeat split; try (intros [[= ] | [[= ] | []]]);
        repeat constructor; rewrite ?list_elem_of_In; cbn; intuition discriminate.
    + reflexivity.
Defined.

(** *** Reading an entry back *)

Section Storage.

Variable JSON_parse : string -> option json.

Local Abbreviation getCachedAnalysis := (Cache.getCachedAnalysis JSON_parse).

Lemma try_block_parsed (store : gmap string string) (key text : string) (parsed : json) :
  store !! key = Some text -> text <> "" -> JSON_parse text = Some parsed ->
  try_block JSON_parse store key
  = match parsed with
    | JNull => Thrown
    | _ => Returned (if shaped parsed then Some parsed else None)
    end.
Proof.
  intros Hstore Hne Hparse. unfold try_block. rewrite Hstore.
  destruct (String.eqb_spec text "") as [-> | _]; [contradiction |].
  rewrite Hparse. destruct parsed as [| b | n | s | items | props]; try reflexivity.
  cbn [property bind shaped].
  destruct (truthy (JSON.get props "metadata")); [| reflexivity].
  destruct (truthy (JSON.get props "graph")); [| reflexivity].
  destruct (truthy (JSON.get props "sheets")); reflexivity.
Qed.

(** C6, as the code has it: what [getCachedAnalysis] does with each kind
    of corrupt entry. An entry that does not parse, or parses to
    [null], is removed and [null] is returned. An entry that parses to
    anything else but lacks the shape of a cache entry is answered with
    [null] too, but stays in the store; so does an empty entry. *)
Theorem corrupt_entry_outcomes (store : gmap string string) (key text : string) :
  store !! key = Some text ->
  (text <> "" -> JSON_parse text = None ->
   getCachedAnalysis store key = (None, delete key store)) /\
  (text <> "" -> JSON_parse text = Some JNull ->
   getCachedAnalysis store key = (None, delete key store)) /\
  (forall parsed, text <> "" -> JSON_parse text = Some parsed ->
   parsed <> JNull -> shaped parsed = false ->
   getCachedAnalysis store key = (None, store)
   /\ snd (getCachedAnalysis store key) !! key = Some text) /\
  (text = "" ->
   getCachedAnalysis store key = (None, store)
   /\ snd (getCachedAnalysis store key) !! key = Some text).
Proof.
  intros Hstore. unfold Cache.getCachedAnalysis. split; [| split; [| split]].
  - intros Hne Hparse. unfold try_block. rewrite Hstore.
    destruct (String.eqb_spec text "") as [-> | _]; [contradiction |].
    rewrite Hparse. reflexivity.
  - intros Hne Hparse. rewrite (try_block_parsed store key text JNull Hstore Hne Hparse).
    reflexivity.
  - intros parsed Hne Hparse Hnull Hshape.
    rewrite (try_block_parsed store key text parsed Hstore Hne Hparse), Hshape.
    destruct parsed; try (split; [reflexivity | exact Hstore]). contradiction.
  - intros ->. unfold try_block. rewrite Hstore.
    split; [reflexivity | exact Hstore].
Qed.

End Storage.

Lemma corrupt_entry_outcomes_witness :
  snd (Cache.getCachedAnalysis (parse_only no_metadata_text no_metadata)
         {[ "k" := no_metadata_text ]} "k") !! "k"
  = Some no_metadata_text.
Proof.
  destruct (corrupt_entry_outcomes (parse_only no_metadata_text no_metadata)
              {[ "k" := no_metadata_text ]} "k" no_metadata_text
              (lookup_singleton_eq "k" no_metadata_text)) as (_ & _ & H & _).
  apply (H no_metadata); [discriminate | reflexivity | discriminate | reflexivity].
Defined.

(** *** Two tables with one key *)

(** A cell holding [NaN] and a cell holding [null] give the same text,
    hence the same key whatever the digest; so do a cell holding the
    negative zero and a cell holding 0. *)
Lemma nan_and_null_share_a_key :
  one_cell (JNum NaN) <> one_cell JNull /\
  dataString (one_cell (JNum NaN)) = dataString (one_cell JNull) /\
  (forall digest, generateCacheKey digest (one_cell (JNum NaN))
                  = generateCacheKey digest (one_cell JNull)) /\
  one_cell (JNum NegZero) <> one_cell (JNum (Finite 0)) /\
  (forall digest, generateCacheKey digest (one_cell (JNum NegZero))
                  = generateCacheKey digest (one_cell (JNum (Finite 0)))).
Proof.
  split; [discriminate |]. split; [reflexivity |].
  split; [intros digest; reflexivity |].
  split; [discriminate |].
  intros digest. reflexivity.
Qed.

End CacheProofs.

(** ** Undo and redo along the timeline *)

Module TimelineProofs.
Import History HistoryProofs.

Section Store.

Context {T : Type}.
Variable JSON_stringify : T -> string.

Local Abbreviation State := (HistoryState T).
Local Abbreviation setState := (setState JSON_stringify).
Local Abbreviation run := (run JSON_stringify).

Lemma redo_n_eq (k : nat) (s : State) :
  currentIndex s + k <= length (history s) - 1 ->
  redo_n k s = {| history := history s; currentIndex := currentIndex s + k |}.
Proof.
  revert s. induction k as [| k IH]; intros s Hk; cbn [redo_n].
  - destruct s as [h c]. cbn [history currentIndex]. f_equal. lia.
  - unfold redo at 1, canRedo.
    destruct (Nat.ltb_spec (currentIndex s) (length (history s) - 1)) as [Hlt | Hge]; [| lia].
    rewrite IH; cbn [history currentIndex]; [f_equal; lia | lia].
Qed.

Lemma redo_n_saturates (k : nat) (s : State) :
  currentIndex s < length (history s) ->
  length (history s) - 1 <= currentIndex s + k ->
  redo_n k s = {| history := history s; currentIndex := length (history s) - 1 |}.
Proof.
  revert s. induction k as [| k IH]; intros s Hin Hk; cbn [redo_n].
  - destruct s as [h c]. cbn [history currentIndex] in *. f_equal. lia.
  - unfold redo at 1, canRedo.
    destruct (Nat.ltb_spec (currentIndex s) (length (history s) - 1)) as [Hlt | Hge].
    + rewrite IH; cbn [history currentIndex]; [reflexivity | lia | lia].
    + rewrite IH; [reflexivity | lia | lia].
Qed.

(** X2. On every store reached by init/set/undo/redo/reset operations,
    [k] undos followed by [k] redos give the store back when the cursor
    is at least [k] steps from the oldest snapshot, and [k] redos
    followed by [k] undos when it is at least [k] steps from the newest;
    beyond that the calls stop at the oldest (resp. newest) snapshot,
    where [canUndo] (resp. [canRedo]) is false. *)
Theorem undo_n_redo_n_round_trip (v0 : T) (ops : list (Op T)) (k : nat) :
  let s := run v0 ops in
  (k <= currentIndex s -> redo_n k (undo_n k s) = s) /\
  (currentIndex s + k <= length (history s) - 1 -> undo_n k (redo_n k s) = s) /\
  (currentIndex s <= k ->
   undo_n k s = {| history := history s; currentIndex := 0 |}
   /\ canUndo (undo_n k s) = false) /\
  (length (history s) - 1 <= currentIndex s + k ->
   redo_n k s = {| history := history s; currentIndex := length (history s) - 1 |}
   /\ canRedo (redo_n k s) = false).
Proof.
  intros s. pose proof (invariant_run JSON_stringify v0 ops) as [_ Hidx]. fold s in Hidx.
  destruct s as [h c]. cbn [history currentIndex] in *.
  repeat split.
  - intros Hk. rewrite undo_n_eq. cbn [history currentIndex].
    rewrite redo_n_eq; cbn [history currentIndex]; [f_equal; lia | lia].
  - intros Hk. rewrite redo_n_eq by exact Hk. rewrite undo_n_eq.
    cbn [history currentIndex]. f_equal. lia.
  - rewrite undo_n_eq. cbn [history currentIndex]. f_equal. lia.
  - rewrite undo_n_eq. unfold canUndo. cbn [history currentIndex].
    apply Nat.ltb_ge. lia.
  - rewrite redo_n_saturates; cbn [history currentIndex]; [reflexivity | lia | lia].
  - rewrite redo_n_saturates; cbn [history currentIndex]; [| lia | lia].
    unfold canRedo. cbn [history currentIndex]. apply Nat.ltb_irrefl.
Qed.

Lemma lookup_lastn (n : nat) (l : list T) (j : nat) :
  j < Nat.min n (length l) ->
  lastn n l !! (length (lastn n l) - 1 - j) = l !! (length l - 1 - j).
Proof.
  intros Hj. rewrite length_lastn. unfold lastn. rewrite lookup_drop. f_equal. lia.
Qed.

(** X1. On every store reached by init/set/undo/redo/reset operations, a
    [setState] that changes the value can be undone and leaves nothing
    to redo: afterwards [canUndo] holds and [canRedo] does not, [undo]
    brings back the value that was current before the change, and
    [redo] after that [undo] returns to the new value. *)
Theorem change_then_undo_restores (v0 : T) (ops : list (Op T)) (a : StateOrFn T) (cur : T) :
  let s := run v0 ops in
  currentState s = Some cur ->
  JSON_stringify cur <> JSON_stringify (candidate a cur) ->
  let s' := setState s a in
  canUndo s' = true /\ canRedo s' = false /\
  currentState (undo s') = Some cur /\
  redo (undo s') = s' /\
  currentState (redo (undo s')) = Some (candidate a cur).
Proof.
  intros s Hcur Hne s'.
  pose proof (invariant_run JSON_stringify v0 ops) as [_ Hidx]. fold s in Hidx.
  assert (Hs' : s' = _) by exact (setState_changed JSON_stringify s a cur Hcur Hne).
  set (appended := take (currentIndex s + 1) (history s) ++ [candidate a cur]) in Hs'.
  assert (Hlen : length appended = currentIndex s + 2).
  { unfold appended. rewrite length_app, length_take. cbn [length]. lia. }
  assert (Hl : 2 <= length (lastn MAX_HISTORY_SIZE appended) <= 11).
  { rewrite length_lastn, Hlen. unfold MAX_HISTORY_SIZE. lia. }
  assert (Hu : canUndo s' = true).
  { rewrite Hs'. unfold canUndo. cbn [currentIndex]. apply Nat.ltb_lt. lia. }
  assert (Hr : canRedo s' = false).
  { rewrite Hs'. unfold canRedo. cbn [currentIndex history]. apply Nat.ltb_irrefl. }
  assert (Hundo : undo s' = {| history := history s'; currentIndex := currentIndex s' - 1 |}).
  { unfold undo. rewrite Hu. reflexivity. }
  assert (Hback : redo (undo s') = s').
  { rewrite Hundo. unfold redo, canRedo. cbn [history currentIndex].
    rewrite Hs'. cbn [history currentIndex].
    destruct (Nat.ltb_spec (length (lastn MAX_HISTORY_SIZE appended) - 1 - 1)
                (length (lastn MAX_HISTORY_SIZE appended) - 1)) as [_ | Hge]; [| lia].
    f_equal. lia. }
  split; [exact Hu |]. split; [exact Hr |]. split; [| split; [exact Hback |]].
  - rewrite Hundo, Hs'. unfold currentState. cbn [history currentIndex].
    rewrite (lookup_lastn MAX_HISTORY_SIZE appended 1)
      by (rewrite Hlen; unfold MAX_HISTORY_SIZE; lia).
    rewrite Hlen. unfold appended.
    rewrite lookup_app_l by (rewrite length_take; lia).
    rewrite lookup_take_lt by lia.
    replace (currentIndex s + 2 - 1 - 1) with (currentIndex s) by lia. exact Hcur.
  - rewrite Hback, Hs'. unfold currentState. cbn [history currentIndex].
    apply lookup_last_lastn; [unfold MAX_HISTORY_SIZE; lia | apply last_snoc].
Qed.

End Store.

Lemma change_then_undo_restores_witness :
  let s' := setState nat_text (run nat_text 0%nat [OpSet (Value 1%nat)]) (Value 2%nat) in
  canUndo s' = true /\ currentState (undo s') = Some 1%nat.
Proof.
  intros s'.
  destruct (change_then_undo_restores nat_text 0%nat [OpSet (Value 1%nat)] (Value 2%nat) 1%nat)
    as (Hu & _ & Hc & _).
  - reflexivity.
  - vm_compute. discriminate.
  - split; [exact Hu | exact Hc].
Defined.

Lemma undo_n_redo_n_round_trip_witness :
  let s := run nat_text 0%nat [OpSet (Value 1%nat); OpSet (Value 2%nat); OpSet (Value 3%nat)] in
  redo_n 2 (undo_n 2 s) = s.
Proof.
  intros s.
  apply (undo_n_redo_n_round_trip nat_text 0%nat
           [OpSet (Value 1%nat); OpSet (Value 2%nat); OpSet (Value 3%nat)] 2).
  vm_compute. lia.
Defined.

End TimelineProofs.

(** ** Writing to the cache *)

Module CacheWriteProofs.
Import JSON Cache CacheProofs.

Lemma string_of_list_ascii_cons_nonempty (c : ascii) (l : list ascii) :
  string_of_list_ascii (c :: l) <> "".
Proof. cbn. discriminate. Qed.

Lemma stringify_object_nonempty (props : list (string * json)) :
  String.eqb (stringify (JObj props)) "" = false.
Proof. unfold stringify. cbn [units string_of_list_ascii]. reflexivity. Qed.

Section Store.

Variable JSON_parse : string -> option json.
Variable quota_allows : gmap string string -> string -> string -> bool.

Local Abbreviation getCachedAnalysis := (Cache.getCachedAnalysis JSON_parse).
Local Abbreviation setCachedAnalysis := (Cache.setCachedAnalysis quota_allows).

Lemma getCachedAnalysis_entry (store : gmap string string) (key generatedAt : string)
    (graph sheets : json) :
  let entry := analysisToCache key generatedAt graph sheets in
  store !! key = Some (stringify entry) ->
  JSON_parse (stringify entry) = Some entry ->
  truthy (Some graph) = true -> truthy (Some sheets) = true ->
  getCachedAnalysis store key = (Some entry, store).
Proof.
  intros entry Hstored Hparse Hg Hs.
  unfold Cache.getCachedAnalysis, try_block. rewrite Hstored.
  unfold entry at 1, analysisToCache at 1. rewrite stringify_object_nonempty.
  fold (analysisToCache key generatedAt graph sheets). fold entry. rewrite Hparse.
  unfold entry, analysisToCache. cbn [property bind JSON.get List.find String.eqb fst snd
    Ascii.eqb Bool.eqb fmap option_fmap option_map truthy].
  cbn. cbn in Hg, Hs. rewrite Hg, Hs. reflexivity.
Qed.

Lemma setCachedAnalysis_stored (store : gmap string string) (key generatedAt : string)
    (graph sheets : json) :
  quota_allows store key (stringify (analysisToCache key generatedAt graph sheets)) = true ->
  setCachedAnalysis generatedAt store key graph sheets
  = <[key := stringify (analysisToCache key generatedAt graph sheets)]> store.
Proof. intros Hq. unfold Cache.setCachedAnalysis, setItem. rewrite Hq. reflexivity. Qed.

Lemma setCachedAnalysis_other (store : gmap string string) (key other generatedAt : string)
    (graph sheets : json) :
  other <> key ->
  setCachedAnalysis generatedAt store key graph sheets !! other = store !! other.
Proof.
  intros Hne. unfold Cache.setCachedAnalysis, setItem.
  destruct (quota_allows _ _ _); [| reflexivity].
  apply lookup_insert_ne. congruence.
Qed.

Lemma getCachedAnalysis_store (store : gmap string string) (key : string) :
  snd (getCachedAnalysis store key) = store
  \/ snd (getCachedAnalysis store key) = delete key store.
Proof.
  unfold Cache.getCachedAnalysis. destruct (try_block _ _ _); [left | right]; reflexivity.
Qed.

Lemma getCachedAnalysis_other (store : gmap string string) (key other : string) :
  other <> key -> snd (getCachedAnalysis store key) !! other = store !! other.
Proof.
  intros Hne. destruct (getCachedAnalysis_store store key) as [-> | ->]; [reflexivity |].
  apply lookup_delete_ne. congruence.
Qed.

(** The value [getCachedAnalysis] returns depends on the entry under
    the key alone. *)
Lemma getCachedAnalysis_local (store1 store2 : gmap string string) (key : string) :
  store1 !! key = store2 !! key ->
  fst (getCachedAnalysis store1 key) = fst (getCachedAnalysis store2 key).
Proof.
  intros Heq. unfold Cache.getCachedAnalysis, try_block. rewrite Heq.
  destruct (store2 !! key) as [text |]; [| reflexivity].
  destruct (String.eqb text ""); [reflexivity |].
  destruct (JSON_parse text) as [parsed |]; [| reflexivity].
  destruct (bind _ _); reflexivity.
Qed.

Lemma getCachedAnalysis_after_set (store : gmap string string) (key generatedAt : string)
    (graph sheets : json) :
  let entry := analysisToCache key generatedAt graph sheets in
  let stored := setCachedAnalysis generatedAt store key graph sheets in
  quota_allows store key (stringify entry) = true ->
  JSON_parse (stringify entry) = Some entry ->
  truthy (Some graph) = true -> truthy (Some sheets) = true ->
  getCachedAnalysis stored key = (Some entry, stored).
Proof.
  intros entry stored Hq Hparse Hg Hs.
  apply (getCachedAnalysis_entry stored key generatedAt graph sheets); try assumption.
  unfold stored. rewrite setCachedAnalysis_stored by exact Hq.
  apply lookup_insert_eq.
Qed.

(** X3. An analysis written by [setCachedAnalysis] is read back by
    [getCachedAnalysis] under the same key, with the graph and the
    sheets that were given, and reading leaves it in the store. This
    needs the browser to accept the write, [JSON.parse] to read the
    written text back as the entry, and the graph and the sheets to
    count as true (any object and any array do). *)
Theorem cached_analysis_round_trip (store : gmap string string) (key generatedAt : string)
    (graph sheets : json) :
  let entry := analysisToCache key generatedAt graph sheets in
  let stored := setCachedAnalysis generatedAt store key graph sheets in
  quota_allows store key (stringify entry) = true ->
  JSON_parse (stringify entry) = Some entry ->
  truthy (Some graph) = true -> truthy (Some sheets) = true ->
  getCachedAnalysis stored key = (Some entry, stored)
  /\ property entry "graph" = Returned (Some graph)
  /\ property entry "sheets" = Returned (Some sheets).
Proof.
  intros entry stored Hq Hparse Hg Hs. split; [| split; reflexivity].
  exact (getCachedAnalysis_after_set store key generatedAt graph sheets Hq Hparse Hg Hs).
Qed.

(** X4. Writing or reading the entry of one key never disturbs the
    entry of another: [setCachedAnalysis] and [getCachedAnalysis] leave
    every other key's text as it was, so a later read of another key
    returns what it would have returned before. A write the browser
    refuses changes nothing at all. *)
Theorem cache_entries_do_not_interfere (store : gmap string string)
    (key other generatedAt : string) (graph sheets : json) :
  other <> key ->
  let stored := setCachedAnalysis generatedAt store key graph sheets in
  stored !! other = store !! other /\
  snd (getCachedAnalysis store key) !! other = store !! other /\
  fst (getCachedAnalysis stored other) = fst (getCachedAnalysis store other) /\
  fst (getCachedAnalysis (snd (getCachedAnalysis store key)) other)
  = fst (getCachedAnalysis store other) /\
  (quota_allows store key (stringify (analysisToCache key generatedAt graph sheets)) = false ->
   stored = store).
Proof.
  intros Hne stored.
  pose proof (setCachedAnalysis_other store key other generatedAt graph sheets Hne) as H1.
  pose proof (getCachedAnalysis_other store key other Hne) as H2.
  split; [exact H1 |]. split; [exact H2 |].
  split; [apply getCachedAnalysis_local; exact H1 |].
  split; [apply getCachedAnalysis_local; exact H2 |].
  intros Hq. unfold stored, Cache.setCachedAnalysis, setItem. rewrite Hq. reflexivity.
Qed.

Section Key.

Variable subtle_digest : list Byte.byte -> list Byte.byte.

Local Abbreviation generateCacheKey := (Cache.generateCacheKey subtle_digest).

(** X5. An analysis stored under the key of a table is found again
    under the key generated from any table that holds the same records
    with the object keys in another order: the second upload hits the
    cache. *)
Theorem reordered_table_hits_cache (store : gmap string string) (generatedAt : string)
    (graph sheets reordered : json) :
  let key := generateCacheKey sheets in
  let entry := analysisToCache key generatedAt graph sheets in
  unique_keys sheets -> key_perm sheets reordered ->
  quota_allows store key (stringify entry) = true ->
  JSON_parse (stringify entry) = Some entry ->
  truthy (Some graph) = true -> truthy (Some sheets) = true ->
  fst (getCachedAnalysis (setCachedAnalysis generatedAt store key graph sheets)
         (generateCacheKey reordered))
  = Some entry.
Proof.
  intros key entry Hu Hkp Hq Hparse Hg Hs.
  assert (Hkey : generateCacheKey reordered = key).
  { unfold key, Cache.generateCacheKey, dataString.
    rewrite (replaced_key_perm sheets reordered Hu Hkp). reflexivity. }
  rewrite Hkey.
  fold key. rewrite (getCachedAnalysis_after_set store key generatedAt graph sheets Hq Hparse Hg Hs).
  reflexivity.
Qed.

End Key.

End Store.

Lemma cached_analysis_round_trip_witness :
  fst (Cache.getCachedAnalysis (parse_only (stringify (sample_entry "k")) (sample_entry "k"))
         (Cache.setCachedAnalysis roomy "2025-01-01T00:00:00.000Z" ∅ "k" no_nodes name_first)
         "k")
  = Some (sample_entry "k").
Proof.
  destruct (cached_analysis_round_trip
              (parse_only (stringify (sample_entry "k")) (sample_entry "k")) roomy
              ∅ "k" "2025-01-01T00:00:00.000Z" no_nodes name_first) as (H & _).
  - reflexivity.
  - vm_compute. reflexivity.
  - reflexivity.
  - reflexivity.
  - rewrite H. reflexivity.
Defined.

Lemma cache_entries_do_not_interfere_witness :
  Cache.setCachedAnalysis roomy "2025-01-01T00:00:00.000Z" {[ "other" := "{}" ]} "k"
    no_nodes name_first !! "other"
  = Some "{}".
Proof.
  destruct (cache_entries_do_not_interfere (fun _ => None) roomy {[ "other" := "{}" ]}
              "k" "other" "2025-01-01T00:00:00.000Z" no_nodes name_first) as (H & _).
  - discriminate.
  - rewrite H. apply lookup_singleton_eq.
Defined.

Lemma reordered_table_hits_cache_witness :
  let key := Cache.generateCacheKey (fun bytes => bytes) name_first in
  fst (Cache.getCachedAnalysis (parse_only (stringify (sample_entry key)) (sample_entry key))
         (Cache.setCachedAnalysis roomy "2025-01-01T00:00:00.000Z" ∅ key no_nodes name_first)
         (Cache.generateCacheKey (fun bytes => bytes) data_first))
  = Some (sample_entry key).
Proof.
  intros key.
  apply (reordered_table_hits_cache
           (parse_only (stringify (sample_entry key)) (sample_entry key)) roomy
           (fun bytes => bytes) ∅ "2025-01-01T00:00:00.000Z" no_nodes name_first data_first).
  - cbn. repeat split. repeat constructor; rewrite ?list_elem_of_In; cbn; intuition discriminate.
  - unfold name_first, data_first. constructor. constructor; [| constructor].
    apply (kp_obj _ [("data", JArr []); ("name", JStr "Sheet1")]).
    + apply perm_swap.
    + repeat constructor.
  - reflexivity.
  - vm_compute. reflexivity.
  - reflexivity.
  - reflexivity.
Defined.

End CacheWriteProofs.

(** ** The logging service *)

Module LoggingProofs.
Import Logging.

Lemma addLog_logs (this : LoggingService) (lv : LogLevel) (m now : string) :
  logs (fst (addLog this lv m now))
  = take maxLogs ({| timestamp := now; level := lv; message := m |} :: logs this).
Proof.
  unfold addLog. cbn [fst logs].
  destruct (Nat.ltb_spec maxLogs
              (length ({| timestamp := now; level := lv; message := m |} :: logs this)))
    as [Hlt | Hle]; [reflexivity |].
  symmetry. apply take_ge. exact Hle.
Qed.

Lemma call_logs_bounded (this : LoggingService) (c : Call) :
  length (logs this) <= maxLogs -> length (logs (fst (call this c))) <= maxLogs.
Proof.
  intros Hle.
  assert (Hadd : forall lv m now, length (logs (fst (addLog this lv m now))) <= maxLogs).
  { intros lv m now. rewrite addLog_logs, length_take. lia. }
  destruct c as [m now | m now | m e now | | l | l]; cbn [call].
  - unfold log. destruct (addLog this level_info m now) as [t n] eqn:H.
    specialize (Hadd level_info m now). rewrite H in Hadd. exact Hadd.
  - unfold warn. destruct (addLog this level_warn m now) as [t n] eqn:H.
    specialize (Hadd level_warn m now). rewrite H in Hadd. exact Hadd.
  - unfold error.
    destruct (addLog this level_error _ now) as [t n] eqn:H.
    specialize (Hadd level_error
                  (match e with Some details => m +:+ " Details: " +:+ details | None => m end)
                  now).
    rewrite H in Hadd. exact Hadd.
  - cbn. lia.
  - exact Hle.
  - exact Hle.
Qed.

Lemma run_logs_bounded (calls : list Call) : forall this,
  length (logs this) <= maxLogs -> length (logs (fst (run this calls))) <= maxLogs.
Proof.
  induction calls as [| c rest IH]; intros this Hle; cbn [run]; [exact Hle |].
  pose proof (call_logs_bounded this c Hle) as H1.
  destruct (call this c) as [this1 e1]. cbn [fst] in H1.
  specialize (IH this1 H1). destruct (run this1 rest) as [this2 e2]. exact IH.
Qed.

Lemma add_all_logs (entries : list LogEntry) : forall this,
  length (logs this) <= maxLogs ->
  logs (add_all this entries) = take maxLogs (rev entries ++ logs this).
Proof.
  induction entries as [| e rest IH]; intros this Hle; cbn [add_all fold_left rev app].
  - symmetry. apply take_ge. exact Hle.
  - fold (add_all (fst (addLog this (level e) (message e) (timestamp e))) rest).
    rewrite IH by (rewrite addLog_logs, length_take; lia).
    rewrite addLog_logs. destruct e as [now lv m]. cbn [timestamp level message].
    rewrite <- app_assoc. cbn [app].
    rewrite !take_app. f_equal.
    rewrite take_take. f_equal. lia.
Qed.

(** X6. The service never holds more than 200 entries, whatever is
    called. Entries are kept newest first: after a run of logged
    messages the logs are the first 200 of the new entries, latest in
    front, followed by the earlier logs; once 200 or more have been
    logged, the logs are exactly the last 200 of them and everything
    older is dropped. *)
Theorem logs_keep_the_newest_200 :
  (forall calls : list Call, length (logs (fst (run logger calls))) <= 200) /\
  (forall (this : LoggingService) (entries : list LogEntry),
     length (logs this) <= 200 ->
     logs (add_all this entries) = take 200 (rev entries ++ logs this)) /\
  (forall entries : list LogEntry,
     200 <= length entries ->
     logs (add_all logger entries) = rev (drop (length entries - 200) entries)).
Proof.
  split; [| split].
  - intros calls. apply (run_logs_bounded calls logger). cbn. lia.
  - intros this entries Hle. apply add_all_logs. exact Hle.
  - intros entries Hlen. rewrite add_all_logs by (cbn; lia). cbn [logger logs].
    rewrite app_nil_r. unfold maxLogs.
    rewrite <- (take_drop (length entries - 200) entries) at 1.
    rewrite rev_app_distr, take_app_length'; [reflexivity |].
    rewrite length_rev, length_drop. lia.
Qed.

Lemma heard_app (l : LogListener) (e1 e2 : list Effect) :
  heard l (e1 ++ e2) = heard l e1 ++ heard l e2.
Proof.
  induction e1 as [| [x snapshot | lv line] e1 IH]; cbn [app heard]; [reflexivity | |].
  - destruct (Nat.eqb x l); [cbn [app]; f_equal |]; exact IH.
  - exact IH.
Qed.

Lemma heard_notified_cons (l x : LogListener) (snapshot : list LogEntry)
    (effects : list Effect) :
  heard l (Notified x snapshot :: effects)
  = (if Nat.eqb x l then [snapshot] else []) ++ heard l effects.
Proof. cbn [heard]. destruct (Nat.eqb x l); reflexivity. Qed.

Lemma heard_notified (l : LogListener) (snapshot : list LogEntry) (xs : list LogListener) :
  heard l (map (fun listener => Notified listener snapshot) xs)
  = repeat snapshot (length (List.filter (fun x => Nat.eqb x l) xs)).
Proof.
  induction xs as [| x xs IH]; [reflexivity |].
  cbn [map List.filter]. rewrite heard_notified_cons, IH.
  destruct (Nat.eqb x l); reflexivity.
Qed.

Lemma last_repeat {A : Type} (a : A) (n : nat) : last (repeat a (S n)) = Some a.
Proof. induction n as [| n IH]; [reflexivity | exact IH]. Qed.

Lemma heard_notify_member (l : LogListener) (this : LoggingService) :
  In l (listeners this) -> last (heard l (notify this)) = Some (logs this).
Proof.
  intros Hin. unfold notify. rewrite heard_notified.
  assert (Hf : In l (List.filter (fun x => Nat.eqb x l) (listeners this))).
  { apply filter_In. split; [exact Hin | apply Nat.eqb_refl]. }
  destruct (List.filter _ _) as [| x xs]; [contradiction |].
  apply last_repeat.
Qed.

Lemma heard_notify_stranger (l : LogListener) (this : LoggingService) :
  ~ In l (listeners this) -> heard l (notify this) = [].
Proof.
  intros Hout. unfold notify. rewrite heard_notified.
  destruct (List.filter _ _) as [| x xs] eqn:Hf; [reflexivity |].
  exfalso. apply Hout.
  assert (Hx : In x (List.filter (fun x => Nat.eqb x l) (listeners this)))
    by (rewrite Hf; left; reflexivity).
  apply filter_In in Hx as [Hx Heq]. apply Nat.eqb_eq in Heq. subst x. exact Hx.
Qed.

Lemma last_app_Some {A : Type} (l1 l2 : list A) (a : A) :
  last l2 = Some a -> last (l1 ++ l2) = Some a.
Proof.
  intros H. destruct l2 as [| x l2]; [discriminate |].
  rewrite last_app_cons. exact H.
Qed.

Lemma In_Set_add (l x : LogListener) (members : list LogListener) :
  In x (Set_add l members) <-> x = l \/ In x members.
Proof.
  unfold Set_add. destruct (existsb (Nat.eqb l) members) eqn:He.
  - apply existsb_exists in He as (y & Hy & Heq). apply Nat.eqb_eq in Heq. subst y.
    split; [intros H; right; exact H | intros [-> | H]; assumption].
  - rewrite in_app_iff. cbn [In]. split.
    + intros [H | [H | []]]; [right; exact H | left; symmetry; exact H].
    + intros [-> | H]; [right; left; reflexivity | left; exact H].
Qed.

Lemma In_Set_delete (l x : LogListener) (members : list LogListener) :
  In x (Set_delete l members) <-> x <> l /\ In x members.
Proof.
  unfold Set_delete. rewrite filter_In, negb_true_iff, Nat.eqb_neq. split.
  - intros [H1 H2]. split; [congruence | exact H1].
  - intros [H1 H2]. split; [exact H2 | congruence].
Qed.

(** What a call does to the service and what it makes visible. *)
Lemma call_cases (this : LoggingService) (c : Call) :
  (exists this' line,
     listeners this' = listeners this /\
     call this c = (this', notify this' ++ line) /\ forall l, heard l line = [])
  \/ (exists l0, c = CallSubscribe l0)
  \/ (exists l0, c = CallUnsubscribe l0).
Proof.
  destruct c as [m now | m now | m e now | | l | l].
  - left. exists (fst (addLog this level_info m now)), [Console level_info ("[INFO] " +:+ m)].
    repeat split.
  - left. exists (fst (addLog this level_warn m now)), [Console level_warn ("[WARN] " +:+ m)].
    repeat split.
  - left. eexists (fst (addLog this level_error _ now)), [Console level_error _].
    repeat split.
  - left. exists {| logs := []; listeners := listeners this |}, [].
    repeat split. cbn [call clear]. rewrite app_nil_r. reflexivity.
  - right. left. exists l. reflexivity.
  - right. right. exists l. reflexivity.
Qed.

Lemma call_up_to_date (this : LoggingService) (c : Call) (before : list Effect) :
  (forall l, In l (listeners this) -> last (heard l before) = Some (logs this)) ->
  forall l, In l (listeners (fst (call this c))) ->
            last (heard l (before ++ snd (call this c))) = Some (logs (fst (call this c))).
Proof.
  intros Hinv l.
  destruct (call_cases this c) as [(this' & line & Hl & Hc & Hline) | [[l0 ->] | [l0 ->]]].
  - rewrite Hc. cbn [fst snd]. intros Hin.
    rewrite !heard_app, Hline, app_nil_r.
    apply last_app_Some, heard_notify_member. exact Hin.
  - cbn [call subscribe fst snd logs listeners]. intros Hin.
    rewrite heard_app. cbn [heard].
    destruct (Nat.eqb_spec l0 l) as [-> | Hne].
    + apply last_snoc.
    + rewrite app_nil_r. apply Hinv. apply In_Set_add in Hin as [-> | Hin]; [contradiction |].
      exact Hin.
  - cbn [call unsubscribe fst snd logs listeners]. intros Hin.
    rewrite app_nil_r. apply Hinv. apply In_Set_delete in Hin as [_ Hin]. exact Hin.
Qed.

Lemma run_up_to_date (calls : list Call) : forall (this : LoggingService) (before : list Effect),
  (forall l, In l (listeners this) -> last (heard l before) = Some (logs this)) ->
  forall l, In l (listeners (fst (run this calls))) ->
            last (heard l (before ++ snd (run this calls))) = Some (logs (fst (run this calls))).
Proof.
  induction calls as [| c rest IH]; intros this before Hinv l; cbn [run].
  - cbn [fst snd]. rewrite app_nil_r. apply Hinv.
  - pose proof (call_up_to_date this c before Hinv) as Hstep.
    destruct (call this c) as [this1 effects1]. cbn [fst snd] in Hstep.
    specialize (IH this1 (before ++ effects1) Hstep l).
    destruct (run this1 rest) as [this2 effects2]. cbn [fst snd] in *.
    rewrite app_assoc. exact IH.
Qed.

(** X7. Whatever sequence of calls the service has gone through, the
    last thing every listener that is subscribed at the end was handed
    is the list of logs the service holds now ([getLogs]): a subscriber
    always displays the current logs. *)
Theorem subscribers_hold_the_current_logs (calls : list Call) (l : LogListener) :
  let this := fst (run logger calls) in
  In l (listeners this) ->
  last (heard l (snd (run logger calls))) = Some (getLogs this).
Proof.
  intros this Hin.
  apply (run_up_to_date calls logger [] (fun l' (H : In l' []) => match H with end) l Hin).
Qed.

Lemma call_silent (this : LoggingService) (c : Call) (l : LogListener) :
  ~ In l (listeners this) -> c <> CallSubscribe l ->
  ~ In l (listeners (fst (call this c))) /\ heard l (snd (call this c)) = [].
Proof.
  intros Hout Hc.
  destruct (call_cases this c) as [(this' & line & Hl & Hcall & Hline) | [[l0 ->] | [l0 ->]]].
  - rewrite Hcall. cbn [fst snd]. rewrite Hl. split; [exact Hout |].
    rewrite heard_app, Hline, app_nil_r. apply heard_notify_stranger. rewrite Hl. exact Hout.
  - cbn [call subscribe fst snd listeners heard].
    assert (Hne : l0 <> l) by congruence.
    split.
    + intros Hin. apply In_Set_add in Hin as [-> | Hin]; [apply Hne; reflexivity | exact (Hout Hin)].
    + destruct (Nat.eqb_spec l0 l); [contradiction | reflexivity].
  - cbn [call unsubscribe fst snd listeners]. split; [| reflexivity].
    intros Hin. apply In_Set_delete in Hin as [_ Hin]. exact (Hout Hin).
Qed.

Lemma run_silent (calls : list Call) (l : LogListener) : forall this : LoggingService,
  ~ In l (listeners this) -> Forall (fun c => c <> CallSubscribe l) calls ->
  ~ In l (listeners (fst (run this calls))) /\ heard l (snd (run this calls)) = [].
Proof.
  induction calls as [| c rest IH]; intros this Hout Hcalls; cbn [run].
  - split; [exact Hout | reflexivity].
  - apply Forall_cons in Hcalls as [Hc Hrest].
    destruct (call_silent this c l Hout Hc) as [Hout1 Hsil1].
    destruct (call this c) as [this1 effects1]. cbn [fst snd] in *.
    destruct (IH this1 Hout1 Hrest) as [Hout2 Hsil2].
    destruct (run this1 rest) as [this2 effects2]. cbn [fst snd] in *.
    split; [exact Hout2 |]. rewrite heard_app, Hsil1, Hsil2. reflexivity.
Qed.

(** X8. After [unsubscribe(listener)] the listener is out of the set,
    however often it had subscribed, and as long as it does not
    subscribe again no call hands it anything. *)
Theorem unsubscribed_listener_hears_nothing (this : LoggingService) (calls : list Call)
    (l : LogListener) :
  Forall (fun c => c <> CallSubscribe l) calls ->
  let after := run (fst (unsubscribe this l)) calls in
  heard l (snd after) = [] /\ ~ In l (listeners (fst after)).
Proof.
  intros Hcalls after.
  assert (Hout : ~ In l (listeners (fst (unsubscribe this l)))).
  { cbn [unsubscribe fst listeners]. intros Hin. apply In_Set_delete in Hin as [Hne _].
    apply Hne. reflexivity. }
  destruct (run_silent calls l _ Hout Hcalls) as [H1 H2]. split; assumption.
Qed.

Lemma logs_keep_the_newest_200_witness :
  length (logs (add_all logger (numbered 201))) = 200%nat
  /\ logs (add_all logger (numbered 201)) = rev (drop 1 (numbered 201)).
Proof.
  destruct logs_keep_the_newest_200 as (_ & _ & H).
  rewrite (H (numbered 201)) by (vm_compute; lia).
  split; reflexivity.
Defined.

Lemma subscribers_hold_the_current_logs_witness :
  let calls := [CallSubscribe 1; CallLog "a" "10:00:00"; CallClear;
                CallWarn "b" "10:00:01"] in
  last (heard 1 (snd (run logger calls))) = Some (getLogs (fst (run logger calls))).
Proof.
  intros calls.
  apply (subscribers_hold_the_current_logs calls 1).
  vm_compute. left. reflexivity.
Defined.

Lemma unsubscribed_listener_hears_nothing_witness :
  let this := fst (run logger [CallSubscribe 1; CallSubscribe 1]) in
  let calls := [CallLog "a" "10:00:00"; CallSubscribe 2; CallClear] in
  heard 1 (snd (run (fst (unsubscribe this 1)) calls)) = [].
Proof.
  intros this calls.
  apply (unsubscribed_listener_hears_nothing this calls 1).
  repeat constructor; discriminate.
Defined.

End LoggingProofs.

(** ** Filtering *)

Module FilterProofs.
Import Transform PythonService SortProofs.

Section Filter.

Variable Number_ : string -> JSON.number.

Local Abbreviation filterData := (PythonService.filterData Number_).
Local Abbreviation keeps := (PythonService.keeps Number_).

Lemma filterData_data (sheet : SheetData) (c : nat) (op v : string) :
  data (filterData sheet c op v)
  = match data sheet with
    | [] => []
    | header :: rows => header :: List.filter (keeps c op v) rows
    end.
Proof.
  unfold PythonService.filterData.
  destruct (data sheet) as [| header rows] eqn:Hd; [exact Hd | reflexivity].
Qed.

Lemma filterData_empty (sheet : SheetData) (c : nat) (op v : string) :
  data sheet = [] -> filterData sheet c op v = sheet.
Proof. intros Hd. unfold PythonService.filterData. rewrite Hd. reflexivity. Qed.

Lemma filterData_rows (sheet : SheetData) (header : list CellData)
    (rows : list (list CellData)) (c : nat) (op v : string) :
  data sheet = header :: rows ->
  filterData sheet c op v
  = {| name := name sheet; data := header :: List.filter (keeps c op v) rows |}.
Proof. intros Hd. unfold PythonService.filterData. rewrite Hd. reflexivity. Qed.

Lemma filterData_name (sheet : SheetData) (c : nat) (op v : string) :
  name (filterData sheet c op v) = name sheet.
Proof. unfold PythonService.filterData. destruct (data sheet); reflexivity. Qed.

Lemma sheet_eq (s1 s2 : SheetData) : name s1 = name s2 -> data s1 = data s2 -> s1 = s2.
Proof. destruct s1, s2. cbn. intros -> ->. reflexivity. Qed.

Lemma keeps_present (c : nat) (op v : string) (row : list CellData) :
  keeps c op v row = true -> present c row = true.
Proof.
  unfold PythonService.keeps, present. destruct (cell_value c row); [reflexivity | discriminate].
Qed.

(** X9. Filters compose as a conjunction: filtering a filtered sheet
    keeps the header and exactly the data rows that pass both tests, in
    their order. Hence two filters give the same sheet in either order,
    and applying the same filter twice gives what applying it once
    gives. *)
Theorem filters_compose (sheet : SheetData) (c1 c2 : nat) (op1 v1 op2 v2 : string) :
  filterData (filterData sheet c1 op1 v1) c2 op2 v2
  = filterData (filterData sheet c2 op2 v2) c1 op1 v1
  /\ filterData (filterData sheet c1 op1 v1) c1 op1 v1 = filterData sheet c1 op1 v1
  /\ (forall header rows, data sheet = header :: rows ->
        data (filterData (filterData sheet c1 op1 v1) c2 op2 v2)
        = header :: List.filter (fun row => keeps c1 op1 v1 row && keeps c2 op2 v2 row) rows).
Proof.
  assert (Hboth : forall ca opa va cb opb vb header rows, data sheet = header :: rows ->
            data (filterData (filterData sheet ca opa va) cb opb vb)
            = header :: List.filter (fun row => keeps ca opa va row && keeps cb opb vb row) rows).
  { intros ca opa va cb opb vb header rows Hd.
    rewrite filterData_data, filterData_data, Hd, GraphProofs.filter_filter. reflexivity. }
  split; [| split].
  - apply sheet_eq; [rewrite !filterData_name; reflexivity |].
    destruct (data sheet) as [| header rows] eqn:Hd.
    + rewrite !filterData_data, Hd. reflexivity.
    + rewrite (Hboth c1 op1 v1 c2 op2 v2 header rows eq_refl),
              (Hboth c2 op2 v2 c1 op1 v1 header rows eq_refl).
      f_equal. apply filter_ext. intros row. apply andb_comm.
  - apply sheet_eq; [rewrite !filterData_name; reflexivity |].
    destruct (data sheet) as [| header rows] eqn:Hd.
    + rewrite !filterData_data, Hd. reflexivity.
    + rewrite (Hboth c1 op1 v1 c1 op1 v1 header rows eq_refl), filterData_data, Hd.
      f_equal. apply filter_ext. intros row. apply andb_diag.
  - exact (Hboth c1 op1 v1 c2 op2 v2).
Qed.

Lemma keeps_absent (c : nat) (op v : string) (row : list CellData) :
  present c row = false -> keeps c op v row = false.
Proof.
  unfold PythonService.keeps, present. destruct (cell_value c row); [discriminate | reflexivity].
Qed.

Lemma keeps_not_equal (c : nat) (v : string) (row : list CellData) :
  present c row = true -> keeps c "!=" v row = negb (keeps c "==" v row).
Proof.
  unfold PythonService.keeps, present.
  destruct (cell_value c row) as [cellValue |]; [intros _ | discriminate].
  cbn [String.eqb Ascii.eqb Bool.eqb andb].
  destruct (filterValueNum Number_ v) as [f |]; [| reflexivity].
  destruct cellValue; reflexivity.
Qed.

Lemma filter_split_length {A : Type} (p q r : A -> bool) (l : list A) :
  (forall x, r x = true -> q x = negb (p x)) ->
  (forall x, r x = false -> p x = false /\ q x = false) ->
  length (List.filter p l) + length (List.filter q l) = length (List.filter r l).
Proof.
  intros Hr Hn. induction l as [| x l IH]; [reflexivity |].
  cbn [List.filter]. destruct (r x) eqn:Hx.
  - rewrite (Hr x Hx). destruct (p x); cbn [negb length]; lia.
  - destruct (Hn x Hx) as [-> ->]. exact IH.
Qed.

(** X10. On a sheet with a header row, the operators [==] and [!=]
    split the data rows that have a value in the column: each such row
    is kept by exactly one of the two filters. A row with no value
    there (no such cell, or [null]) is kept by neither, so the two
    results together hold as many rows as have a value. *)
Theorem equal_and_not_equal_split_the_rows (sheet : SheetData) (header : list CellData)
    (rows : list (list CellData)) (c : nat) (v : string) :
  data sheet = header :: rows ->
  let same := tail (data (filterData sheet c "==" v)) in
  let other := tail (data (filterData sheet c "!=" v)) in
  (forall row, In row rows -> present c row = true ->
     (In row same /\ ~ In row other) \/ (In row other /\ ~ In row same)) /\
  (forall row, present c row = false -> ~ In row same /\ ~ In row other) /\
  length same + length other = length (List.filter (present c) rows).
Proof.
  intros Hd same other.
  assert (Hsame : same = List.filter (keeps c "==" v) rows).
  { unfold same. rewrite filterData_data, Hd. reflexivity. }
  assert (Hother : other = List.filter (keeps c "!=" v) rows).
  { unfold other. rewrite filterData_data, Hd. reflexivity. }
  rewrite Hsame, Hother. split; [| split].
  - intros row Hin Hp. rewrite !filter_In, (keeps_not_equal c v row Hp).
    destruct (keeps c "==" v row); cbn [negb].
    + left. split; [split; [exact Hin | reflexivity] | intros [_ H]; discriminate].
    + right. split; [split; [exact Hin | reflexivity] | intros [_ H]; discriminate].
  - intros row Hp. rewrite !filter_In, !(keeps_absent c _ v row Hp).
    split; intros [_ H]; discriminate.
  - apply filter_split_length.
    + intros row Hp. apply keeps_not_equal. exact Hp.
    + intros row Hp. split; apply keeps_absent; exact Hp.
Qed.

Lemma keeps_ordering (c : nat) (op v : string) (row : list CellData) :
  In op [">"; "<"; ">="; "<="] ->
  keeps c op v row = true ->
  (exists n, cell_value c row = Some (JS.Num n)) /\ Number_ v <> JSON.NaN.
Proof.
  intros Hop. unfold PythonService.keeps, filterValueNum.
  destruct (cell_value c row) as [[s | n] |]; [| | discriminate].
  - cbn in Hop. destruct Hop as [<- | [<- | [<- | [<- | []]]]];
      cbn [String.eqb Ascii.eqb Bool.eqb andb];
      destruct (Number_ v); discriminate.
  - intros Hk. split; [exists n; reflexivity |]. intros Hnan. rewrite Hnan in Hk.
    cbn in Hop. destruct Hop as [<- | [<- | [<- | [<- | []]]]]; discriminate.
Qed.

Lemma keeps_unknown (c : nat) (op v : string) (row : list CellData) :
  ~ In op ["=="; "!="; ">"; "<"; ">="; "<="; "contains"] -> keeps c op v row = false.
Proof.
  intros Hop. unfold PythonService.keeps.
  destruct (cell_value c row) as [cellValue |]; [| reflexivity].
  repeat match goal with
         | |- context [String.eqb op ?k] =>
             destruct (String.eqb_spec op k) as [-> | _];
               [exfalso; apply Hop; cbn; tauto |]
         end.
  reflexivity.
Qed.

(** X11. On a sheet with a header row, the operators [>], [<], [>=] and
    [<=] keep only rows whose cell in the column is a number, and keep
    no row at all when the text of the filter is not a number
    ([Number(value)] is [NaN]): the result is the header alone. An
    operator that is none of the seven known ones keeps no row
    either. *)
Theorem ordering_filters_keep_numbers_only (sheet : SheetData) (header : list CellData)
    (rows : list (list CellData)) (c : nat) (op v : string) :
  data sheet = header :: rows ->
  (In op [">"; "<"; ">="; "<="] ->
   (forall row, In row (tail (data (filterData sheet c op v))) ->
      exists n, cell_value c row = Some (JS.Num n)) /\
   (Number_ v = JSON.NaN -> data (filterData sheet c op v) = [header])) /\
  (~ In op ["=="; "!="; ">"; "<"; ">="; "<="; "contains"] ->
   data (filterData sheet c op v) = [header]).
Proof.
  intros Hd. rewrite filterData_data, Hd. cbn [tail]. split.
  - intros Hop. split.
    + intros row Hin. apply filter_In in Hin as [_ Hk].
      exact (proj1 (keeps_ordering c op v row Hop Hk)).
    + intros Hnan. f_equal. apply GraphProofs.filter_none. intros row _.
      destruct (keeps c op v row) eqn:Hk; [| reflexivity].
      destruct (keeps_ordering c op v row Hop Hk) as [_ H]. contradiction.
  - intros Hop. f_equal. apply GraphProofs.filter_none. intros row _.
    apply keeps_unknown. exact Hop.
Qed.

Lemma StronglySorted_filter {A : Type} (R : A -> A -> Prop) (p : A -> bool) (l : list A) :
  StronglySorted R l -> StronglySorted R (List.filter p l).
Proof.
  induction 1 as [| x l Hs IH Hx]; cbn [List.filter]; [constructor |].
  destruct (p x); [| exact IH].
  constructor; [exact IH |].
  rewrite Forall_forall in Hx |- *. intros y Hy%list_elem_of_In.
  apply filter_In in Hy as [Hy _]. apply Hx, list_elem_of_In, Hy.
Qed.

Lemma Permutation_filter_list {A : Type} (p : A -> bool) (l l' : list A) :
  Permutation l l' -> Permutation (List.filter p l) (List.filter p l').
Proof.
  induction 1 as [| x l l' Hp IH | x y l | l l' l'' H1 IH1 H2 IH2]; cbn [List.filter].
  - constructor.
  - destruct (p x); [constructor |]; exact IH.
  - destruct (p x), (p y); try reflexivity. apply perm_swap.
  - etransitivity; eassumption.
Qed.

Lemma NoDup_filter_list {A : Type} (p : A -> bool) (l : list A) :
  NoDup l -> NoDup (List.filter p l).
Proof.
  induction 1 as [| x l Hx Hnd IH]; cbn [List.filter]; [constructor |].
  destruct (p x); [| exact IH].
  constructor; [| exact IH].
  intros Hin%list_elem_of_In. apply filter_In in Hin as [Hin _].
  apply Hx, list_elem_of_In, Hin.
Qed.

(** X12. Sorting and filtering commute: when the data rows have
    pairwise different values in the sort column (so at most one has
    none) and that column holds only numbers or only strings, sorting
    the filtered sheet gives the same sheet as filtering the sorted
    one. *)
Theorem sorting_and_filtering_commute (sheet : SheetData) (col : nat) (d : Direction)
    (c : nat) (op v : string) :
  NoDup (map (cell_value col) (tail (data sheet))) ->
  numeric_column col (tail (data sheet)) \/ text_column col (tail (data sheet)) ->
  sortData (filterData sheet c op v) col d = filterData (sortData sheet col d) c op v.
Proof.
  intros Hnd Hcol. destruct (data sheet) as [| header rows] eqn:Hd.
  { rewrite (filterData_empty sheet c op v Hd). unfold sortData. rewrite Hd.
    symmetry. apply filterData_empty. exact Hd. }
  rewrite (filterData_rows sheet header rows c op v Hd).
  unfold sortData. rewrite Hd. cbn [data name tail] in *.
  unfold PythonService.filterData. cbn [data name]. f_equal. f_equal.
  set (cmp := compare_rows col d). set (p := keeps c op v).
  assert (Hsto : strict_total_on cmp rows)
    by (apply TransformProofs.compare_rows_strict_total; assumption).
  assert (Hrows : NoDup rows) by (apply (NoDup_fmap_1 (cell_value col)); exact Hnd).
  assert (Hsub : forall a, In a (List.filter p rows) -> In a rows)
    by (intros a Ha; apply filter_In in Ha as [Ha _]; exact Ha).
  apply (sorted_unique (before cmp)).
  - apply sort_sorted.
    + apply (strict_total_on_incl cmp rows); assumption.
    + apply NoDup_filter_list. exact Hrows.
  - apply StronglySorted_filter, sort_sorted; assumption.
  - rewrite sort_perm. apply Permutation_filter_list. symmetry. apply sort_perm.
  - rewrite sort_perm. apply NoDup_filter_list. exact Hrows.
  - intros a b Ha Hb Hne.
    apply (Permutation_in _ (sort_perm cmp (List.filter p rows))) in Ha, Hb.
    apply (sto_asym cmp rows Hsto); [apply Hsub, Ha | apply Hsub, Hb | exact Hne].
Qed.

End Filter.

Lemma filters_compose_witness :
  filterData decimal (filterData decimal sales 1 ">" "4") 0 "contains" "2"
  = filterData decimal (filterData decimal sales 0 "contains" "2") 1 ">" "4".
Proof.
  exact (proj1 (filters_compose decimal sales 1 0 ">" "4" "contains" "2")).
Defined.

Lemma equal_and_not_equal_split_the_rows_witness :
  length (tail (data (filterData decimal sales 0 "==" "2023")))
  + length (tail (data (filterData decimal sales 0 "!=" "2023")))
  = 5.
Proof.
  destruct (equal_and_not_equal_split_the_rows decimal sales
              [cell "A1" (Some (JS.Str "Year")); cell "B1" (Some (JS.Str "Amount"))]
              (tail (data sales)) 0 "2023" eq_refl) as (_ & _ & H).
  rewrite H. reflexivity.
Defined.

Lemma ordering_filters_keep_numbers_only_witness :
  data (filterData decimal sales 1 ">" "many")
  = [[cell "A1" (Some (JS.Str "Year")); cell "B1" (Some (JS.Str "Amount"))]].
Proof.
  destruct (ordering_filters_keep_numbers_only decimal sales
              [cell "A1" (Some (JS.Str "Year")); cell "B1" (Some (JS.Str "Amount"))]
              (tail (data sales)) 1 ">" "many" eq_refl) as (H & _).
  destruct H as (_ & H); [left; reflexivity |].
  apply H. reflexivity.
Defined.

Lemma sorting_and_filtering_commute_witness :
  sortData (filterData decimal three_amounts 0 ">" "1") 0 desc
  = filterData decimal (sortData three_amounts 0 desc) 0 ">" "1".
Proof.
  apply (sorting_and_filtering_commute decimal three_amounts 0 desc 0 ">" "1").
  - cbn. repeat constructor; rewrite ?list_elem_of_In; cbn; intuition discriminate.
  - left. repeat constructor; intros s; discriminate.
Defined.

End FilterProofs.
(** ** The pivot table *)

Module PivotProofs.
Import Transform PythonService.

Section Pivot.

Variable plus : Z -> Z -> Z.
Variable quotient : Z -> Z -> JS.Scalar.

Local Abbreviation add := (PythonService.add plus).
Local Abbreviation accumulate := (PythonService.accumulate plus).
Local Abbreviation tallies := (PythonService.tallies plus).
Local Abbreviation createPivotTable := (PythonService.createPivotTable plus quotient).
Local Abbreviation pivot_row := (PythonService.pivot_row quotient).
Local Abbreviation aggValue := (PythonService.aggValue quotient).

Lemma own_None (pivot : list (string * Totals)) (key : string) :
  own pivot key = None <-> ~ In key (map fst pivot).
Proof.
  unfold own. induction pivot as [| [k g] pivot IH]; cbn [List.find map fst In].
  - split; [intros _ [] | reflexivity].
  - destruct (String.eqb_spec k key) as [-> | Hne]; cbn [fmap option_fmap option_map].
    + split; [discriminate | intros H; exfalso; apply H; left; reflexivity].
    + rewrite IH. split; [intros H [Heq | Hin]; [contradiction | exact (H Hin)]
                         | intros H Hin; apply H; right; exact Hin].
Qed.

Lemma insert_indexed_perm (n : N) (key : string) (values : Totals)
    (pivot : list (string * Totals)) :
  Permutation (insert_indexed n key values pivot) ((key, values) :: pivot).
Proof.
  induction pivot as [| [k g] pivot IH]; cbn [insert_indexed]; [reflexivity |].
  destruct (JSON.array_index k) as [m |]; [| reflexivity].
  destruct (N.ltb n m); [reflexivity |].
  rewrite IH. apply perm_swap.
Qed.

Lemma create_perm (pivot : list (string * Totals)) (key : string) (values : Totals) :
  Permutation (create pivot key values) ((key, values) :: pivot).
Proof.
  unfold create. destruct (JSON.array_index key) as [n |].
  - apply insert_indexed_perm.
  - symmetry. apply Permutation_cons_append.
Qed.

Lemma add_keys (pivot : list (string * Totals)) (key : string) (value : Z) :
  map fst (add pivot key value) = map fst pivot.
Proof.
  unfold add. rewrite map_map. apply map_ext. intros [k g]. cbn [fst].
  destruct (String.eqb k key); reflexivity.
Qed.

Lemma In_add (pivot : list (string * Totals)) (key : string) (value : Z)
    (k : string) (g' : Totals) :
  In (k, g') (add pivot key value) <->
  exists g, In (k, g) pivot /\
            g' = if String.eqb k key
                 then {| sum := plus (sum g) value; count := count g + 1 |} else g.
Proof.
  unfold add. rewrite in_map_iff. split.
  - intros ([k0 g0] & Heq & Hin). cbn [fst snd] in Heq.
    destruct (String.eqb k0 key) eqn:Hk; injection Heq as <- <-;
      exists g0; rewrite Hk; split; [exact Hin | reflexivity | exact Hin | reflexivity].
  - intros (g & Hin & ->). exists (k, g). cbn [fst snd].
    split; [| exact Hin]. destruct (String.eqb k key); reflexivity.
Qed.

(** The loop body in terms of what the row contributes. *)
Lemma accumulate_eq (i v : nat) (pivot : list (string * Totals)) (row : list CellData) :
  accumulate i v pivot row
  = match contribution i v row with
    | None => pivot
    | Some (key, value) =>
        add (match own pivot key with
             | Some _ => pivot
             | None => create pivot key {| sum := 0; count := 0 |}
             end) key value
    end.
Proof.
  unfold accumulate, contribution.
  destruct (cell_value i row) as [indexKey |]; [| reflexivity].
  destruct (cell_value v row) as [[s | value] |]; try reflexivity.
  destruct (inherited (JS.String_ indexKey)); reflexivity.
Qed.

Lemma under_snoc (k key : string) (value : Z) (cs : list (string * Z)) :
  under k (cs ++ [(key, value)])
  = under k cs ++ (if String.eqb k key then [value] else []).
Proof.
  unfold under. rewrite List.filter_app, map_app. cbn [List.filter fst].
  rewrite (String.eqb_sym k key). destruct (String.eqb key k); reflexivity.
Qed.

Lemma tallies_nil : tallies [] [].
Proof. split; [constructor | intros key [] | intros key g []]. Qed.

Lemma in_keys (pivot : list (string * Totals)) (key : string) (g : Totals) :
  In (key, g) pivot -> In key (map fst pivot).
Proof. intros H. apply in_map_iff. exists (key, g). split; [reflexivity | exact H]. Qed.

Lemma tallies_step (pivot : list (string * Totals)) (cs : list (string * Z))
    (key : string) (value : Z) :
  tallies pivot cs ->
  tallies (add (match own pivot key with
                | Some _ => pivot
                | None => create pivot key {| sum := 0; count := 0 |}
                end) key value)
          (cs ++ [(key, value)]).
Proof.
  intros [Hnd Hall Hsum].
  set (pivot1 := match own pivot key with
                 | Some _ => pivot
                 | None => create pivot key {| sum := 0; count := 0 |}
                 end).
  assert (Hkeys1 : Permutation (map fst pivot1)
                     (match own pivot key with
                      | Some _ => map fst pivot
                      | None => key :: map fst pivot
                      end)).
  { unfold pivot1. destruct (own pivot key); [reflexivity |].
    rewrite create_perm. reflexivity. }
  assert (Hin1 : forall k g, In (k, g) pivot1 ->
            In (k, g) pivot \/ (own pivot key = None /\ k = key /\ g = {| sum := 0; count := 0 |})).
  { unfold pivot1. intros k g Hin. destruct (own pivot key) eqn:Ho; [left; exact Hin |].
    apply (Permutation_in _ (create_perm pivot key _)) in Hin.
    destruct Hin as [Heq | Hin]; [right | left; exact Hin].
    injection Heq as <- <-. repeat split. }
  assert (Hkey1 : In key (map fst pivot1)).
  { rewrite Hkeys1. destruct (own pivot key) eqn:Ho; [| left; reflexivity].
    destruct (in_dec string_dec key (map fst pivot)) as [Hin | Hout]; [exact Hin |].
    apply own_None in Hout. congruence. }
  split.
  - rewrite add_keys, Hkeys1. destruct (own pivot key) eqn:Ho; [exact Hnd |].
    constructor; [| exact Hnd]. rewrite list_elem_of_In. apply own_None. exact Ho.
  - intros k Hk. rewrite add_keys. rewrite map_app, in_app_iff in Hk. cbn [map fst In] in Hk.
    destruct Hk as [Hk | [<- | []]]; [| exact Hkey1].
    rewrite Hkeys1. destruct (own pivot key); [| right]; apply Hall, Hk.
  - intros k g' Hin. apply In_add in Hin as (g & Hin & ->).
    rewrite under_snoc, map_app, in_app_iff. cbn [map fst In].
    destruct (Hin1 k g Hin) as [Hold | (Ho & -> & ->)].
    + destruct (Hsum k g Hold) as (Hs & Hc & Hk).
      destruct (String.eqb_spec k key) as [-> | Hne].
      * cbn [sum count]. rewrite fold_left_app, length_app, Hs, Hc. cbn [fold_left length].
        split; [reflexivity | split; [lia | left; exact Hk]].
      * rewrite app_nil_r. repeat split; [exact Hs | exact Hc | left; exact Hk].
    + rewrite String.eqb_refl. cbn [sum count].
      assert (Hnone : under key cs = []).
      { unfold under. rewrite GraphProofs.filter_none; [reflexivity |].
        intros [k v] Hkv. cbn [fst]. destruct (String.eqb_spec k key) as [-> | _]; [| reflexivity].
        exfalso. apply own_None in Ho. apply Ho, Hall. apply in_map_iff.
        exists (key, v). split; [reflexivity | exact Hkv]. }
      rewrite Hnone. cbn [app fold_left length].
      split; [reflexivity | split; [reflexivity | right; left; reflexivity]].
Qed.

Lemma tallies_fold (i v : nat) (rows : list (list CellData)) :
  forall (pivot : list (string * Totals)) (cs : list (string * Z)),
  tallies pivot cs ->
  tallies (fold_left (accumulate i v) rows pivot) (cs ++ contributions i v rows).
Proof.
  induction rows as [| row rows IH]; intros pivot cs Ht; cbn [fold_left].
  - cbn [contributions]. rewrite app_nil_r. exact Ht.
  - cbn [contributions]. rewrite accumulate_eq.
    destruct (contribution i v row) as [[key value] |].
    + change ((key, value) :: contributions i v rows)
        with ([(key, value)] ++ contributions i v rows).
      rewrite app_assoc. apply IH, tallies_step, Ht.
    + apply IH, Ht.
Qed.

Lemma add_length (pivot : list (string * Totals)) (key : string) (value : Z) :
  length (add pivot key value) = length pivot.
Proof. unfold add. apply length_map. Qed.

Lemma accumulate_length (i v : nat) (pivot : list (string * Totals)) (row : list CellData) :
  length (accumulate i v pivot row) <= S (length pivot).
Proof.
  rewrite accumulate_eq. destruct (contribution i v row) as [[key value] |]; [| lia].
  rewrite add_length. destruct (own pivot key); [lia |].
  rewrite (Permutation_length (create_perm pivot key _)). cbn [length]. lia.
Qed.

Lemma fold_accumulate_length (i v : nat) (rows : list (list CellData)) :
  forall pivot, length (fold_left (accumulate i v) rows pivot) <= length pivot + length rows.
Proof.
  induction rows as [| row rows IH]; intros pivot; cbn [fold_left length]; [lia |].
  specialize (IH (accumulate i v pivot row)).
  pose proof (accumulate_length i v pivot row). lia.
Qed.

Lemma under_member (key : string) (cs : list (string * Z)) :
  In key (map fst cs) -> (0 < Z.of_nat (length (under key cs)))%Z.
Proof.
  intros ([k z] & Hk & Hin)%in_map_iff. cbn [fst] in Hk. subst k.
  assert (Hz : In z (under key cs)).
  { unfold under. apply in_map_iff. exists (key, z). split; [reflexivity |].
    apply filter_In. split; [exact Hin | apply String.eqb_refl]. }
  destruct (under key cs); [contradiction | cbn [length]; lia].
Qed.

Lemma total_perm (l l' : list Z) : Permutation l l' -> total l = total l'.
Proof.
  unfold total. induction 1 as [| x l l' Hp IH | x y l | l l' l'' H1 IH1 H2 IH2];
    cbn [fold_right]; [reflexivity | rewrite IH; reflexivity | lia | congruence].
Qed.

Lemma total_abs_nonneg (l : list Z) : (0 <= total (map Z.abs l))%Z.
Proof. unfold total. induction l as [| x l IH]; cbn [map fold_right]; lia. Qed.

(** The sums and the counts held by a pivot, and the magnitudes of the
    sums. *)
Local Abbreviation sums pivot := (map (fun p : string * Totals => sum (snd p)) pivot).
Local Abbreviation counts pivot := (map (fun p : string * Totals => count (snd p)) pivot).
Local Abbreviation sizes pivot := (map Z.abs (sums pivot)).

Lemma add_counts (pivot : list (string * Totals)) (key : string) (value : Z) :
  NoDup (map fst pivot) -> In key (map fst pivot) ->
  total (counts (add pivot key value)) = (total (counts pivot) + 1)%Z.
Proof.
  unfold PythonService.add, total.
  induction pivot as [| [k g] pivot IH]; intros Hnd Hin; [contradiction |].
  cbn [map fst] in Hnd. apply NoDup_cons in Hnd as [Hk Hnd].
  cbn [map fold_right fst snd].
  destruct (String.eqb_spec k key) as [-> | Hne].
  - cbn [snd count].
    assert (Hsame : map (fun p : string * Totals =>
                           if String.eqb (fst p) key
                           then (fst p, {| sum := plus (sum (snd p)) value;
                                           count := count (snd p) + 1 |})
                           else p) pivot = pivot).
    { clear IH Hin Hnd. induction pivot as [| [k' g'] pivot IH']; [reflexivity |].
      cbn [map fst snd]. destruct (String.eqb_spec k' key) as [-> | _].
      - exfalso. apply Hk. left.
      - f_equal. apply IH'. intros H. apply Hk. right. exact H. }
    rewrite Hsame. lia.
  - destruct Hin as [Heq | Hin]; [contradiction |].
    rewrite (IH Hnd Hin). cbn [snd]. lia.
Qed.

Lemma fold_accumulate_counts_from (i v : nat) (rows : list (list CellData)) :
  forall pivot, NoDup (map fst pivot) ->
  total (counts (fold_left (accumulate i v) rows pivot))
  = (total (counts pivot) + Z.of_nat (length (contributions i v rows)))%Z.
Proof.
  induction rows as [| row rows IH]; intros pivot Hnd; cbn [fold_left contributions].
  - cbn [length]. lia.
  - rewrite accumulate_eq. destruct (contribution i v row) as [[key value] |].
    + set (pivot1 := match own pivot key with
                     | Some _ => pivot
                     | None => create pivot key {| sum := 0; count := 0 |}
                     end).
      assert (H1 : NoDup (map fst pivot1) /\ In key (map fst pivot1)
                   /\ total (counts pivot1) = total (counts pivot)).
      { unfold pivot1. destruct (own pivot key) eqn:Ho.
        - repeat split; [exact Hnd |].
          destruct (in_dec string_dec key (map fst pivot)) as [Hin | Hout]; [exact Hin |].
          apply own_None in Hout. congruence.
        - pose proof (create_perm pivot key {| sum := 0; count := 0 |}) as Hp.
          split; [| split].
          + rewrite (Permutation_map fst Hp). cbn [map fst]. constructor; [| exact Hnd].
            rewrite list_elem_of_In. apply own_None. exact Ho.
          + rewrite (Permutation_map fst Hp). left. reflexivity.
          + rewrite (total_perm _ _
                       (Permutation_map (fun p : string * Totals => count (snd p)) Hp)).
            reflexivity. }
      destruct H1 as (Hnd1 & Hin1 & Hc1).
      assert (Hnd2 : NoDup (map fst (add pivot1 key value))) by (rewrite add_keys; exact Hnd1).
      rewrite (IH (add pivot1 key value) Hnd2), (add_counts pivot1 key value Hnd1 Hin1), Hc1.
      cbn [length]. lia.
    + apply IH. exact Hnd.
Qed.

Lemma fold_accumulate_counts (i v : nat) (rows : list (list CellData)) :
  total (counts (fold_left (accumulate i v) rows []))
  = Z.of_nat (length (contributions i v rows)).
Proof.
  rewrite (fold_accumulate_counts_from i v rows [] (NoDup_nil_2 (A:=string))). reflexivity.
Qed.

Section Exact.

(** Up to [2^53] the sum of two numbers is the exact one. *)
Hypothesis plus_exact :
  forall a b, (Z.abs a + Z.abs b <= 2 ^ 53)%Z -> plus a b = (a + b)%Z.

Lemma add_totals (pivot : list (string * Totals)) (key : string) (value : Z) :
  NoDup (map fst pivot) -> In key (map fst pivot) ->
  (total (sizes pivot) + Z.abs value <= 2 ^ 53)%Z ->
  total (sums (add pivot key value)) = (total (sums pivot) + value)%Z
  /\ total (counts (add pivot key value)) = (total (counts pivot) + 1)%Z
  /\ (total (sizes (add pivot key value)) <= total (sizes pivot) + Z.abs value)%Z.
Proof.
  unfold PythonService.add.
  induction pivot as [| [k g] pivot IH]; intros Hnd Hin Hb; [contradiction |].
  cbn [map fst] in Hnd. apply NoDup_cons in Hnd as [Hk Hnd].
  pose proof (total_abs_nonneg (sums pivot)) as H0.
  unfold total in *. cbn [map fold_right fst snd] in Hb |- *.
  destruct (String.eqb_spec k key) as [-> | Hne].
  - cbn [snd sum count].
    assert (Hsame : map (fun p : string * Totals =>
                           if String.eqb (fst p) key
                           then (fst p, {| sum := plus (sum (snd p)) value;
                                           count := count (snd p) + 1 |})
                           else p) pivot = pivot).
    { clear IH Hin Hnd Hb H0. induction pivot as [| [k' g'] pivot IH']; [reflexivity |].
      cbn [map fst snd]. destruct (String.eqb_spec k' key) as [-> | _].
      - exfalso. apply Hk. left.
      - f_equal. apply IH'. intros H. apply Hk. right. exact H. }
    rewrite Hsame, (plus_exact (sum g) value) by lia. repeat split; lia.
  - destruct Hin as [Heq | Hin]; [contradiction |].
    destruct (IH Hnd Hin) as (IHs & IHc & IHz); [lia |].
    cbn [snd]. rewrite IHs, IHc. repeat split; lia.
Qed.

Lemma create_totals (pivot : list (string * Totals)) (key : string) :
  total (sums (create pivot key {| sum := 0; count := 0 |})) = total (sums pivot)
  /\ total (counts (create pivot key {| sum := 0; count := 0 |})) = total (counts pivot)
  /\ total (sizes (create pivot key {| sum := 0; count := 0 |})) = total (sizes pivot).
Proof.
  pose proof (create_perm pivot key {| sum := 0; count := 0 |}) as Hp.
  split; [| split].
  - rewrite (total_perm _ _ (Permutation_map (fun p : string * Totals => sum (snd p)) Hp)).
    reflexivity.
  - rewrite (total_perm _ _ (Permutation_map (fun p : string * Totals => count (snd p)) Hp)).
    reflexivity.
  - rewrite (total_perm _ _
               (Permutation_map Z.abs
                  (Permutation_map (fun p : string * Totals => sum (snd p)) Hp))).
    reflexivity.
Qed.

Lemma fold_accumulate_totals (i v : nat) (rows : list (list CellData)) :
  forall pivot, NoDup (map fst pivot) ->
  (total (sizes pivot) + total (map Z.abs (map snd (contributions i v rows))) <= 2 ^ 53)%Z ->
  let pivot' := fold_left (accumulate i v) rows pivot in
  total (sums pivot') = (total (sums pivot) + total (map snd (contributions i v rows)))%Z
  /\ total (counts pivot')
     = (total (counts pivot) + Z.of_nat (length (contributions i v rows)))%Z.
Proof.
  induction rows as [| row rows IH]; intros pivot Hnd Hb; cbn [fold_left contributions].
  - cbn. split; lia.
  - rewrite accumulate_eq. cbn [contributions] in Hb.
    destruct (contribution i v row) as [[key value] |].
    + set (pivot1 := match own pivot key with
                     | Some _ => pivot
                     | None => create pivot key {| sum := 0; count := 0 |}
                     end).
      assert (H1 : NoDup (map fst pivot1) /\ In key (map fst pivot1)
                   /\ total (sums pivot1) = total (sums pivot)
                   /\ total (counts pivot1) = total (counts pivot)
                   /\ total (sizes pivot1) = total (sizes pivot)).
      { unfold pivot1. destruct (own pivot key) eqn:Ho.
        - repeat split; [exact Hnd |].
          destruct (in_dec string_dec key (map fst pivot)) as [Hin | Hout]; [exact Hin |].
          apply own_None in Hout. congruence.
        - pose proof (create_perm pivot key {| sum := 0; count := 0 |}) as Hp.
          apply (Permutation_map fst) in Hp. cbn [map fst] in Hp.
          destruct (create_totals pivot key) as (Hs & Hc & Hz).
          repeat split; [| | exact Hs | exact Hc | exact Hz].
          + rewrite Hp. constructor; [| exact Hnd].
            rewrite list_elem_of_In. apply own_None. exact Ho.
          + rewrite Hp. left. reflexivity. }
      destruct H1 as (Hnd1 & Hin1 & Hs1 & Hc1 & Hz1).
      pose proof (total_abs_nonneg (map snd (contributions i v rows))) as Hrest.
      assert (Hb' : (total (sizes pivot)
                     + (Z.abs value + total (map Z.abs (map snd (contributions i v rows))))
                     <= 2 ^ 53)%Z) by exact Hb.
      destruct (add_totals pivot1 key value Hnd1 Hin1) as (Hs2 & Hc2 & Hz2); [lia |].
      assert (Hnd2 : NoDup (map fst (add pivot1 key value))) by (rewrite add_keys; exact Hnd1).
      destruct (IH (add pivot1 key value) Hnd2) as [IHs IHc]; [lia |].
      cbn zeta in IHs, IHc. rewrite IHs, IHc, Hs2, Hc2, Hs1, Hc1.
      cbn [map snd length]. unfold total at 4. cbn [fold_right].
      fold (total (map snd (contributions i v rows))). split; lia.
    + apply IH; assumption.
Qed.

End Exact.

Lemma column_numbers_imap (f : nat -> string * Totals -> list CellData) (g : Totals -> Z)
    (pivot : list (string * Totals)) :
  (forall k entry, cell_value 1 (f k entry) = Some (JS.Num (g (snd entry)))) ->
  column_numbers 1 (imap f pivot) = map (fun p => g (snd p)) pivot.
Proof.
  revert f. induction pivot as [| entry pivot IH]; intros f Hf; [reflexivity |].
  cbn [imap column_numbers map]. rewrite Hf. f_equal.
  apply IH. intros k e. apply Hf.
Qed.

(** *** The order of the rows *)

Lemma array_index_canonical (key : string) (n : N) :
  JSON.array_index key = Some n -> key = NilZero.string_of_uint (N.to_uint n).
Proof.
  unfold JSON.array_index. destruct (NilEmpty.uint_of_string key) as [d |]; [| discriminate].
  destruct (String.eqb_spec (NilZero.string_of_uint (N.to_uint (N.of_uint d))) key)
    as [Heq | _]; cbn [andb]; [| discriminate].
  destruct (N.ltb _ _); [| discriminate]. intros [= <-]. symmetry. exact Heq.
Qed.

Lemma array_index_inj (a b : string) (n : N) :
  JSON.array_index a = Some n -> JSON.array_index b = Some n -> a = b.
Proof.
  intros Ha%array_index_canonical Hb%array_index_canonical. congruence.
Qed.

Lemma first_occurrences_snoc (keys : list string) (k : string) :
  first_occurrences (keys ++ [k])
  = if existsb (String.eqb k) (first_occurrences keys)
    then first_occurrences keys else first_occurrences keys ++ [k].
Proof. unfold first_occurrences. rewrite fold_left_app. reflexivity. Qed.

Lemma existsb_eqb (k : string) (l : list string) :
  existsb (String.eqb k) l = true <-> In k l.
Proof.
  rewrite existsb_exists. split.
  - intros (x & Hx & Heq). apply String.eqb_eq in Heq. subst x. exact Hx.
  - intros H. exists k. split; [exact H | apply String.eqb_refl].
Qed.

Lemma insert_indexed_ordered (n : N) (key : string) (values : Totals) (named : list string) :
  JSON.array_index key = Some n ->
  Forall (fun k => is_index k = false) named ->
  forall (indexed : list string) (pivot : list (string * Totals)),
  map fst pivot = indexed ++ named ->
  Forall (fun k => is_index k = true) indexed ->
  StronglySorted index_before indexed ->
  ~ In key indexed ->
  exists indexed',
    map fst (insert_indexed n key values pivot) = indexed' ++ named
    /\ Forall (fun k => is_index k = true) indexed'
    /\ StronglySorted index_before indexed'
    /\ Permutation indexed' (key :: indexed).
Proof.
  intros Hkey Hnamed.
  assert (Hki : is_index key = true) by (unfold is_index; rewrite Hkey; reflexivity).
  induction indexed as [| a indexed IH]; intros pivot Hkeys Hidx Hsorted Hnew.
  - exists [key]. cbn [app] in *.
    assert (Hins : insert_indexed n key values pivot = (key, values) :: pivot).
    { destruct pivot as [| [k g] pivot]; [reflexivity |].
      cbn [insert_indexed]. cbn [map fst] in Hkeys. rewrite <- Hkeys in Hnamed.
      apply Forall_cons in Hnamed as [Hk _]. unfold is_index in Hk.
      destruct (JSON.array_index k); [discriminate | reflexivity]. }
    rewrite Hins. cbn [map fst]. rewrite Hkeys.
    split; [reflexivity |].
    split; [repeat constructor; exact Hki | split; [repeat constructor | reflexivity]].
  - destruct pivot as [| [k g] pivot]; [discriminate |].
    cbn [map fst app] in Hkeys. injection Hkeys as -> Hkeys.
    apply Forall_cons in Hidx as [Ha Hidx].
    apply StronglySorted_inv in Hsorted as [Hsorted Hfirst].
    cbn [insert_indexed]. unfold is_index in Ha.
    destruct (JSON.array_index a) as [m |] eqn:Hm; [| discriminate].
    destruct (N.ltb_spec n m) as [Hlt | Hge].
    + exists (key :: a :: indexed). cbn [map fst app]. rewrite Hkeys.
      split; [reflexivity |]. split; [| split; [| reflexivity]].
      * constructor; [exact Hki |]. constructor; [| exact Hidx].
        unfold is_index. rewrite Hm. reflexivity.
      * constructor; [constructor; assumption |].
        constructor; [unfold index_before; rewrite Hkey, Hm; exact Hlt |].
        rewrite Forall_forall in Hfirst |- *. intros b Hb. specialize (Hfirst b Hb).
        unfold index_before in *. rewrite Hkey. rewrite Hm in Hfirst.
        destruct (JSON.array_index b); [lia | exact Hfirst].
    + assert (Hne : m <> n).
      { intros ->. apply Hnew. left. exact (array_index_inj a key n Hm Hkey). }
      destruct (IH pivot Hkeys Hidx Hsorted (fun H => Hnew (or_intror H)))
        as (indexed' & Hk' & Hi' & Hs' & Hp').
      exists (a :: indexed'). cbn [map fst app]. rewrite Hk'.
      split; [reflexivity |]. split; [| split].
      * constructor; [unfold is_index; rewrite Hm; reflexivity | exact Hi'].
      * constructor; [exact Hs' |].
        apply (Permutation_Forall (Permutation_sym Hp')).
        constructor; [unfold index_before; rewrite Hm, Hkey; lia | exact Hfirst].
      * rewrite Hp'. apply perm_swap.
Qed.

Lemma first_occurrences_members (keys : list string) :
  forall k, In k (first_occurrences keys) <-> In k keys.
Proof.
  induction keys as [| x keys IH] using rev_ind; intros k.
  - cbn. tauto.
  - rewrite first_occurrences_snoc, in_app_iff. cbn [In].
    destruct (existsb (String.eqb x) (first_occurrences keys)) eqn:He.
    + apply existsb_eqb, IH in He. rewrite IH.
      split; [tauto | intros [H | [<- | []]]; assumption].
    + rewrite in_app_iff, IH. cbn [In]. tauto.
Qed.

Lemma named_of_snoc (cs : list (string * Z)) (key : string) (value : Z) :
  List.filter (fun k => negb (is_index k)) (map fst (cs ++ [(key, value)]))
  = List.filter (fun k => negb (is_index k)) (map fst cs)
    ++ (if is_index key then [] else [key]).
Proof.
  rewrite map_app, List.filter_app. cbn [map fst List.filter].
  destruct (is_index key); reflexivity.
Qed.

Lemma ordered_step (pivot : list (string * Totals)) (cs : list (string * Z))
    (key : string) (value : Z) :
  tallies pivot cs ->
  ordered (map fst pivot)
          (first_occurrences (List.filter (fun k => negb (is_index k)) (map fst cs))) ->
  ordered (map fst (add (match own pivot key with
                         | Some _ => pivot
                         | None => create pivot key {| sum := 0; count := 0 |}
                         end) key value))
          (first_occurrences
             (List.filter (fun k => negb (is_index k)) (map fst (cs ++ [(key, value)])))).
Proof.
  intros Ht (indexed & Hkeys & Hidx & Hnamed & Hsorted).
  set (named := first_occurrences (List.filter (fun k => negb (is_index k)) (map fst cs))) in *.
  rewrite add_keys, named_of_snoc.
  assert (Hmem : forall k, In k named <-> In k (map fst pivot) /\ is_index k = false).
  { intros k. unfold named. rewrite first_occurrences_members, filter_In, negb_true_iff.
    split; intros [H1 H2]; (split; [| exact H2]).
    - apply (tally_all _ _ _ Ht), H1.
    - apply in_map_iff in H1 as ([k' g] & Hk & Hin). cbn [fst] in Hk. subst k'.
      exact (proj2 (proj2 (tally_sum _ _ _ Ht k g Hin))). }
  destruct (own pivot key) as [g |] eqn:Ho.
  - (* the key is a property already *)
    assert (Hin : In key (map fst pivot)).
    { destruct (in_dec string_dec key (map fst pivot)) as [Hin | Hout]; [exact Hin |].
      apply own_None in Hout. congruence. }
    destruct (is_index key) eqn:Hi.
    + rewrite app_nil_r. fold named. exact (ex_intro _ indexed (conj Hkeys (conj Hidx (conj Hnamed Hsorted)))).
    + rewrite first_occurrences_snoc. fold named.
      assert (He : existsb (String.eqb key) named = true)
        by (apply existsb_eqb, Hmem; split; assumption).
      rewrite He. exact (ex_intro _ indexed (conj Hkeys (conj Hidx (conj Hnamed Hsorted)))).
  - apply own_None in Ho. unfold create.
    destruct (JSON.array_index key) as [n |] eqn:Hn.
    + assert (Hi : is_index key = true) by (unfold is_index; rewrite Hn; reflexivity).
      rewrite Hi, app_nil_r. fold named.
      destruct (insert_indexed_ordered n key {| sum := 0; count := 0 |} named Hn Hnamed
                  indexed pivot Hkeys Hidx Hsorted)
        as (indexed' & Hk' & Hi' & Hs' & _).
      { intros Hin. apply Ho. rewrite Hkeys. apply in_app_iff. left. exact Hin. }
      exact (ex_intro _ indexed' (conj Hk' (conj Hi' (conj Hnamed Hs')))).
    + assert (Hi : is_index key = false) by (unfold is_index; rewrite Hn; reflexivity).
      rewrite Hi, first_occurrences_snoc. fold named.
      assert (He : existsb (String.eqb key) named = false).
      { destruct (existsb (String.eqb key) named) eqn:He; [| reflexivity].
        apply existsb_eqb, Hmem in He as [He _]. contradiction. }
      rewrite He, map_app. cbn [map fst]. rewrite Hkeys, <- app_assoc.
      exists indexed. split; [reflexivity |]. split; [exact Hidx |]. split; [| exact Hsorted].
      apply Forall_app. split; [exact Hnamed |].
      repeat constructor. exact Hi.
Qed.

Lemma ordered_fold (i v : nat) (rows : list (list CellData)) :
  forall (pivot : list (string * Totals)) (cs : list (string * Z)),
  tallies pivot cs ->
  ordered (map fst pivot)
          (first_occurrences (List.filter (fun k => negb (is_index k)) (map fst cs))) ->
  ordered (map fst (fold_left (accumulate i v) rows pivot))
          (first_occurrences
             (List.filter (fun k => negb (is_index k))
                (map fst (cs ++ contributions i v rows)))).
Proof.
  induction rows as [| row rows IH]; intros pivot cs Ht Ho; cbn [fold_left contributions].
  - rewrite app_nil_r. exact Ho.
  - rewrite accumulate_eq. destruct (contribution i v row) as [[key value] |].
    + change ((key, value) :: contributions i v rows)
        with ([(key, value)] ++ contributions i v rows).
      rewrite app_assoc. apply IH; [apply tallies_step, Ht | apply ordered_step; assumption].
    + apply IH; assumption.
Qed.

(** The two cells of the pivot's header row. *)
Local Abbreviation header_row header i v aggregation :=
  [ {| address := "A1"; value := Some (indexHeader header i); formula := None |};
    {| address := "B1"; value := Some (JS.Str (valueHeader aggregation header v));
       formula := None |} ].

(** X13. [createPivotTable] needs a header row: on a sheet with no row
    at all it throws, where [sortData] and [filterData] return the sheet
    as it is. On every other sheet it returns a sheet named
    ["Pivot of "] followed by the source's name, whose rows all have
    two cells: the header row and at most one row for each data row of
    the source. *)
Theorem pivot_needs_a_header_row (Number_ : string -> JSON.number) (sheet : SheetData)
    (i v : nat) (aggregation : Aggregation) (col : nat) (d : Direction)
    (c : nat) (op text : string) :
  (data sheet = [] ->
   createPivotTable sheet i v aggregation = Cache.Thrown
   /\ sortData sheet col d = sheet
   /\ filterData Number_ sheet c op text = sheet) /\
  (data sheet <> [] ->
   exists pivotSheet,
     createPivotTable sheet i v aggregation = Cache.Returned pivotSheet
     /\ name pivotSheet = "Pivot of " +:+ name sheet
     /\ Forall (fun row => length row = 2) (data pivotSheet)
     /\ 1 <= length (data pivotSheet) <= length (data sheet)).
Proof.
  split.
  - intros Hd. unfold PythonService.createPivotTable, sortData, filterData.
    rewrite Hd. repeat split.
  - intros Hd. destruct (data sheet) as [| header rows] eqn:Hdata; [contradiction |].
    unfold PythonService.createPivotTable. rewrite Hdata.
    eexists. split; [reflexivity |]. cbn [name data]. split; [reflexivity |].
    split.
    + constructor; [reflexivity |]. apply Forall_forall. intros row Hin.
      apply list_elem_of_lookup in Hin as [k Hk].
      rewrite list_lookup_imap in Hk.
      destruct (fold_left _ rows [] !! k) as [entry |]; [| discriminate].
      injection Hk as <-. reflexivity.
    + cbn [length]. rewrite length_imap.
      pose proof (fold_accumulate_length i v rows []). cbn [length] in *. lia.
Qed.

(** X14. The pivot has one row for each different key, the key being
    the text [String(indexKey)] of the index cell: a key has a row
    exactly when some data row contributes under it (a row contributes
    when it has an index value and a number in the value column, and
    its key is not a name every object inherits). The entry of a key
    holds the sum and the number of the contributions under it; the
    number is positive, so the average is always the quotient and the
    [count > 0] guard never gives 0. *)
Theorem pivot_tallies_each_key (sheet : SheetData) (header : list CellData)
    (rows : list (list CellData)) (i v : nat) (aggregation : Aggregation) :
  data sheet = header :: rows ->
  exists pivot,
    createPivotTable sheet i v aggregation
    = Cache.Returned {| name := "Pivot of " +:+ name sheet;
                        data := header_row header i v aggregation
                                  :: imap (pivot_row aggregation) pivot |} /\
    NoDup (map fst pivot) /\
    (forall key, In key (map fst pivot) <-> In key (map fst (contributions i v rows))) /\
    (forall key values, In (key, values) pivot ->
       sum values = fold_left plus (under key (contributions i v rows)) 0%Z /\
       count values = Z.of_nat (length (under key (contributions i v rows))) /\
       (0 < count values)%Z /\
       aggValue agg_average values = quotient (sum values) (count values)).
Proof.
  intros Hd. exists (fold_left (accumulate i v) rows []).
  destruct (tallies_fold i v rows [] [] tallies_nil) as [Hnd Hall Hsum]. cbn [app] in *.
  split; [unfold PythonService.createPivotTable; rewrite Hd; reflexivity |].
  split; [exact Hnd |]. split.
  - intros key. split; [| apply Hall].
    intros ([k g] & Hk & Hin)%in_map_iff. cbn [fst] in Hk. subst k.
    exact (proj2 (proj2 (Hsum key g Hin))).
  - intros key values Hin. destruct (Hsum key values Hin) as (Hs & Hc & Hk).
    pose proof (under_member key _ Hk) as Hpos. rewrite <- Hc in Hpos.
    repeat split; try assumption.
    unfold PythonService.aggValue. apply Z.ltb_lt in Hpos. rewrite Hpos. reflexivity.
Qed.

(** X15. Within the range where the runtime adds exactly, nothing is
    lost or counted twice: when the magnitudes of the numbers
    contributed by the data rows add up to at most [2^53], the numbers
    in the second column of the ['sum'] pivot add up to the sum of all
    numbers contributed. With ['count'] they always add up to the
    number of contributing rows. *)
Theorem pivot_conserves_totals (sheet : SheetData) (header : list CellData)
    (rows : list (list CellData)) (i v : nat) :
  (forall a b, (Z.abs a + Z.abs b <= 2 ^ 53)%Z -> plus a b = (a + b)%Z) ->
  data sheet = header :: rows ->
  ((total (map Z.abs (map snd (contributions i v rows))) <= 2 ^ 53)%Z ->
   exists sums,
     createPivotTable sheet i v agg_sum = Cache.Returned sums /\
     total (column_numbers 1 (tail (data sums)))
     = total (map snd (contributions i v rows))) /\
  (exists counts,
     createPivotTable sheet i v agg_count = Cache.Returned counts /\
     total (column_numbers 1 (tail (data counts)))
     = Z.of_nat (length (contributions i v rows))).
Proof.
  intros Hexact Hd. unfold PythonService.createPivotTable. rewrite Hd. split.
  - intros Hb.
    destruct (fold_accumulate_totals Hexact i v rows [] (NoDup_nil_2 (A:=string)))
      as [Hs _]; [exact Hb |].
    cbn zeta in Hs. cbn [map] in Hs. unfold total at 2 in Hs. cbn [fold_right] in Hs.
    eexists. split; [reflexivity |]. cbn [data tail].
    rewrite (column_numbers_imap _ sum) by reflexivity. rewrite Hs. lia.
  - eexists. split; [reflexivity |]. cbn [data tail].
    rewrite (column_numbers_imap _ count) by reflexivity.
    apply fold_accumulate_counts.
Qed.

Lemma keys_imap (aggregation : Aggregation) (pivot : list (string * Totals)) :
  forall k, map (cell_value 0) (imap (fun j => pivot_row aggregation (k + j)) pivot)
            = map (fun p => Some (JS.Str (fst p))) pivot.
Proof.
  induction pivot as [| entry pivot IH]; intros k; [reflexivity |].
  cbn [imap map]. f_equal.
  rewrite <- (IH (S k)). f_equal. apply imap_ext. intros j e _. cbn.
  replace (k + S j) with (S k + j) by lia. reflexivity.
Qed.

(** X16. The order of the pivot's rows is that of [Object.entries]: the
    keys that are array indices (canonical non-negative integers, such
    as years) come first, in ascending numeric order whatever the order
    of the data rows; the other keys follow in the order of their first
    occurrence in the data rows. *)
Theorem pivot_rows_are_ordered (sheet : SheetData) (header : list CellData)
    (rows : list (list CellData)) (i v : nat) (aggregation : Aggregation) :
  data sheet = header :: rows ->
  exists pivotSheet indexed named,
    createPivotTable sheet i v aggregation = Cache.Returned pivotSheet /\
    map (cell_value 0) (tail (data pivotSheet))
    = map (fun key => Some (JS.Str key)) (indexed ++ named) /\
    Forall (fun key => is_index key = true) indexed /\
    StronglySorted index_before indexed /\
    named = first_occurrences
              (List.filter (fun key => negb (is_index key))
                 (map fst (contributions i v rows))).
Proof.
  intros Hd. unfold PythonService.createPivotTable. rewrite Hd.
  assert (Ho0 : ordered (map fst (@nil (string * Totals)))
                  (first_occurrences
                     (List.filter (fun k => negb (is_index k))
                        (map fst (@nil (string * Z)))))).
  { exists []. repeat split; constructor. }
  destruct (ordered_fold i v rows [] [] tallies_nil Ho0)
    as (indexed & Hkeys & Hidx & Hnamed & Hsorted). cbn [app] in *.
  eexists _, indexed, _. split; [reflexivity |].
  cbn [data tail]. split; [| split; [exact Hidx | split; [exact Hsorted | reflexivity]]].
  rewrite <- Hkeys, map_map.
  exact (keys_imap aggregation _ 0).
Qed.

End Pivot.

Lemma pivot_needs_a_header_row_witness :
  PythonService.createPivotTable double_plus integer_part blank 0 1 agg_sum = Cache.Thrown
  /\ sortData blank 0 asc = blank.
Proof.
  destruct (pivot_needs_a_header_row double_plus integer_part decimal blank 0 1 agg_sum
              0 asc 0 "==" "") as (H & _).
  destruct (H eq_refl) as (H1 & H2 & _). split; [exact H1 | exact H2].
Defined.

Lemma pivot_tallies_each_key_witness :
  exists pivot,
    PythonService.createPivotTable double_plus integer_part large 0 1 agg_sum
    = Cache.Returned
        {| name := "Pivot of Large";
           data := [cell "A1" (Some (JS.Str "Year"));
                    cell "B1" (Some (JS.Str "SUM of Amount"))]
                   :: imap (PythonService.pivot_row integer_part agg_sum) pivot |}
    /\ forall values, In ("2023", values) pivot ->
         sum values = 9007199254740992%Z /\ count values = 3%Z.
Proof.
  destruct (pivot_tallies_each_key double_plus integer_part large
              [cell "A1" (Some (JS.Str "Year")); cell "B1" (Some (JS.Str "Amount"))]
              (tail (data large)) 0 1 agg_sum eq_refl) as (pivot & Hc & _ & _ & H).
  exists pivot. split; [exact Hc |].
  intros values Hin. destruct (H "2023" values Hin) as (Hs & Hn & _).
  split; [rewrite Hs | rewrite Hn]; vm_compute; reflexivity.
Defined.

Lemma pivot_conserves_totals_witness :
  exists sums,
    PythonService.createPivotTable double_plus integer_part sales 0 1 agg_sum
    = Cache.Returned sums
    /\ total (column_numbers 1 (tail (data sums))) = 23%Z.
Proof.
  destruct (pivot_conserves_totals double_plus integer_part sales
              [cell "A1" (Some (JS.Str "Year")); cell "B1" (Some (JS.Str "Amount"))]
              (tail (data sales)) 0 1) as (H & _).
  - intros a b Hab. unfold double_plus, nearest_double.
    destruct (Z.leb_spec (Z.abs (a + b)) (2 ^ 53)); [reflexivity | lia].
  - reflexivity.
  - destruct H as (sums & Hc & Ht).
    + vm_compute. discriminate.
    + exists sums. split; [exact Hc |]. rewrite Ht. reflexivity.
Defined.

Lemma pivot_rows_are_ordered_witness :
  exists pivotSheet indexed named,
    PythonService.createPivotTable double_plus integer_part sales 0 1 agg_count
    = Cache.Returned pivotSheet
    /\ map (cell_value 0) (tail (data pivotSheet))
       = map (fun key => Some (JS.Str key)) (indexed ++ named)
    /\ named = ["east"].
Proof.
  destruct (pivot_rows_are_ordered double_plus integer_part sales
              [cell "A1" (Some (JS.Str "Year")); cell "B1" (Some (JS.Str "Amount"))]
              (tail (data sales)) 0 1 agg_count eq_refl)
    as (pivotSheet & indexed & named & Hc & Hk & _ & _ & Hn).
  exists pivotSheet, indexed, named. split; [exact Hc |]. split; [exact Hk |].
  rewrite Hn. reflexivity.
Defined.

End PivotProofs.

(** ** Editing the graph *)

Module AppProofs.
Import Graph App GraphProofs.

Lemma set_label_same (n : Node) : set_label (node_label n) n = n.
Proof. destruct n. reflexivity. Qed.

Lemma graph_eq (g1 g2 : KnowledgeGraph) :
  nodes g1 = nodes g2 -> links g1 = links g2 -> g1 = g2.
Proof. destruct g1, g2. cbn. intros -> ->. reflexivity. Qed.

Lemma rename_same (ns : list Node) (nodeId a : string) :
  (forall n, In n ns -> node_id n = nodeId -> node_label n = a) ->
  map (fun n => if String.eqb (node_id n) nodeId then set_label a n else n) ns = ns.
Proof.
  intros Hsame. induction ns as [| n ns IH]; [reflexivity |].
  cbn [map]. f_equal.
  - destruct (String.eqb_spec (node_id n) nodeId) as [Hid | _]; [| reflexivity].
    rewrite <- (Hsame n (or_introl eq_refl) Hid). apply set_label_same.
  - apply IH. intros m Hm. apply Hsame. right. exact Hm.
Qed.

(** X17. [handleRenameNode] changes labels only: the links, the number
    of nodes and the id, type and tags of every node stay as they are,
    and every node with the given id (not only the first) gets the new
    label. Renaming again overrides the first renaming, and renaming
    to the label the nodes already have (in particular renaming an id
    no node has) gives back the same graph. *)
Theorem rename_changes_labels_only (g : KnowledgeGraph) (nodeId a b : string) :
  exists g',
    handleRenameNode nodeId a (Some g) = Some g' /\
    links g' = links g /\
    map node_id (nodes g') = map node_id (nodes g) /\
    map node_type (nodes g') = map node_type (nodes g) /\
    map node_tags (nodes g') = map node_tags (nodes g) /\
    (forall k n, nodes g !! k = Some n ->
       nodes g' !! k = Some (if String.eqb (node_id n) nodeId then set_label a n else n)) /\
    handleRenameNode nodeId b (Some g') = handleRenameNode nodeId b (Some g) /\
    ((forall n, In n (nodes g) -> node_id n = nodeId -> node_label n = a) -> g' = g).
Proof.
  eexists. split; [reflexivity |]. cbn [nodes links].
  split; [reflexivity |].
  assert (Hmap : forall (B : Type) (f : Node -> B),
            (forall n, f (set_label a n) = f n) ->
            map f (map (fun n => if String.eqb (node_id n) nodeId then set_label a n else n)
                     (nodes g)) = map f (nodes g)).
  { intros B f Hf. rewrite map_map. apply map_ext. intros n.
    destruct (String.eqb (node_id n) nodeId); [apply Hf | reflexivity]. }
  split; [apply Hmap; reflexivity |]. split; [apply Hmap; reflexivity |].
  split; [apply Hmap; reflexivity |]. split; [| split].
  - intros k n Hk. rewrite list_lookup_fmap, Hk. reflexivity.
  - unfold handleRenameNode. cbn [nodes links]. f_equal. f_equal.
    rewrite map_map. apply map_ext. intros n.
    destruct (String.eqb (node_id n) nodeId) eqn:Hn; cbn [set_label node_id]; rewrite Hn;
      reflexivity.
  - intros Hsame. apply graph_eq; [| reflexivity]. cbn [nodes].
    apply rename_same. exact Hsame.
Qed.

Section History.

(** [JSON.stringify] on the state of the history, a graph or [null]. *)
Variable JSON_stringify : option KnowledgeGraph -> string.

(** X18. Renaming a node to the label it already has, or renaming an id
    that no node has, adds no undo step: the function [handleRenameNode]
    hands to [setKnowledgeGraph] returns a graph with the same JSON
    text, so the history store is left as it is. *)
Theorem renaming_to_the_same_label_adds_no_step
    (s : History.HistoryState (option KnowledgeGraph)) (g : KnowledgeGraph)
    (nodeId newLabel : string) :
  History.currentState s = Some (Some g) ->
  (forall n, In n (nodes g) -> node_id n = nodeId -> node_label n = newLabel) ->
  History.setState JSON_stringify s (History.Updater (handleRenameNode nodeId newLabel)) = s.
Proof.
  intros Hcur Hsame.
  apply (HistoryProofs.setState_same JSON_stringify s _ (Some g) Hcur).
  cbn [History.candidate handleRenameNode]. do 2 f_equal.
  symmetry. apply graph_eq; [| reflexivity]. cbn [nodes].
  apply rename_same. exact Hsame.
Qed.

End History.

(** X19. A link made by [handleCreateLink] from a node to the Tag node
    of one of its tags is appended to the links as a RELATED_TO link,
    the nodes being untouched; it is deleted again when that tag is
    removed from the node in the tag editor. *)
Theorem removing_a_tag_deletes_created_links (e : Node) (g : KnowledgeGraph) (t : string)
    (newTags : list string) (now : Z) :
  let o := node_id e in
  In t (owner_tags g o) -> ~ In t newTags ->
  exists g1,
    handleCreateLink o (tagId t) now (Some g) = Some g1 /\
    nodes g1 = nodes g /\
    links g1 = links g ++ [newLink o (tagId t) now] /\
    ~ In (newLink o (tagId t) now) (links (saveTags e g1 newTags)).
Proof.
  intros o Hcur Hnew. eexists. split; [reflexivity |]. cbn [nodes links].
  split; [reflexivity |]. split; [reflexivity |].
  rewrite links_saveTags. cbv zeta. fold o.
  assert (Hrem : removed o (tagsToRemove (owner_tags g o) newTags) (newLink o (tagId t) now)
                 = true).
  { apply removed_true. cbn [newLink link_source link_target]. split; [reflexivity |].
    exists t. split; [| reflexivity]. apply in_tagsToRemove. split; assumption. }
  unfold owner_tags at 1 2. cbn [nodes links]. fold (owner_tags g o).
  rewrite in_app_iff, !filter_In, Hrem. cbn [negb].
  intros [[_ H] | [_ H]]; discriminate.
Qed.

Lemma renaming_to_the_same_label_adds_no_step_witness :
  History.setState labels_text (History.useHistoryState (Some tagged_graph))
    (History.Updater (handleRenameNode "tag_a" "a"))
  = History.useHistoryState (Some tagged_graph).
Proof.
  apply (renaming_to_the_same_label_adds_no_step labels_text
           (History.useHistoryState (Some tagged_graph)) tagged_graph "tag_a" "a").
  - reflexivity.
  - intros n Hin Hid. vm_compute in Hin.
    destruct Hin as [<- | [<- | [<- | []]]]; first [reflexivity | discriminate Hid].
Defined.

Lemma removing_a_tag_deletes_created_links_witness :
  exists g1,
    handleCreateLink "cell_Sheet1_A1" (tagId "a") 1700000000000 (Some tagged_graph) = Some g1
    /\ ~ In (newLink "cell_Sheet1_A1" (tagId "a") 1700000000000)
           (links (saveTags cellA1 g1 ["b"])).
Proof.
  destruct (removing_a_tag_deletes_created_links cellA1 tagged_graph "a" ["b"] 1700000000000)
    as (g1 & H1 & _ & _ & H2).
  - vm_compute. left. reflexivity.
  - intros [H | []]. discriminate H.
  - exists g1. split; [exact H1 | exact H2].
Defined.

End AppProofs.

(** ** The grid view *)

Module GridViewProofs.
Import Graph Transform GridView GraphProofs.

(** *** The colour of a tag *)

Lemma ToInt32_spec (x : Z) :
  exists k, ToInt32 x = (x + k * 2 ^ 32)%Z /\ (- 2 ^ 31 <= ToInt32 x < 2 ^ 31)%Z.
Proof.
  unfold ToInt32. pose proof (Z.mod_pos_bound x (2 ^ 32) ltac:(lia)) as Hb.
  pose proof (Z.div_mod x (2 ^ 32) ltac:(lia)) as Hd.
  destruct (Z.ltb_spec (x mod 2 ^ 32) (2 ^ 31)) as [Hlt | Hge].
  - exists (- (x / 2 ^ 32))%Z. split; lia.
  - exists (- (x / 2 ^ 32) - 1)%Z. split; lia.
Qed.

Lemma hash_step_spec (hash : Z) (c : ascii) :
  exists k, hash_step hash c = (31 * hash + Z.of_nat (nat_of_ascii c) + k * 2 ^ 32)%Z
            /\ (Z.abs (hash_step hash c) <= Z.abs hash + 2 ^ 31 + 255)%Z.
Proof.
  unfold hash_step, shift_left_5.
  destruct (ToInt32_spec hash) as (k1 & H1 & _).
  destruct (ToInt32_spec (ToInt32 hash * 32)) as (k2 & H2 & Hb).
  pose proof (nat_ascii_bounded c) as Hc.
  exists (32 * k1 + k2)%Z. split; lia.
Qed.

Lemma fold_hash_step (l : list ascii) : forall h p : Z,
  (exists k, h = p + k * 2 ^ 32)%Z ->
  (exists k, fold_left hash_step l h
             = fold_left (fun h c => 31 * h + Z.of_nat (nat_of_ascii c)) l p + k * 2 ^ 32)%Z
  /\ (Z.abs (fold_left hash_step l h) <= Z.abs h + Z.of_nat (length l) * (2 ^ 31 + 255))%Z.
Proof.
  induction l as [| c l IH]; intros h p [k Hk]; cbn [fold_left length].
  - split; [exists k; exact Hk | lia].
  - destruct (hash_step_spec h c) as (k1 & H1 & Hb1).
    destruct (IH (hash_step h c) (31 * p + Z.of_nat (nat_of_ascii c))%Z) as [Hc Hb].
    { exists (k1 + 31 * k)%Z. lia. }
    split; [exact Hc | lia].
Qed.

Lemma code_units_length (s : string) :
  length (list_ascii_of_string s) = String.length s.
Proof. induction s as [| c s IH]; [reflexivity | cbn; f_equal; exact IH]. Qed.

(** X20. The number [getTagColor] computes from a tag name differs from
    the polynomial hash of its code units with base 31 by a multiple of
    [2^32]; its magnitude is at most the length of the name times
    [2^31 + 255]; the hue, its remainder by 360, lies strictly between
    -360 and 360 and is the hue of both colours returned. *)
Theorem tag_colour_hash (tagName : string) :
  (exists k, tag_hash tagName = polynomial_hash tagName + k * 2 ^ 32)%Z /\
  (Z.abs (tag_hash tagName) <= Z.of_nat (String.length tagName) * (2 ^ 31 + 255))%Z /\
  (-360 < hue tagName < 360)%Z /\
  getTagColor tagName
  = ("hsl(" +:+ JS.String_ (JS.Num (hue tagName)) +:+ ", 70%, 80%)",
     "hsl(" +:+ JS.String_ (JS.Num (hue tagName)) +:+ ", 70%, 20%)").
Proof.
  destruct (fold_hash_step (list_ascii_of_string tagName) 0 0) as [Hc Hb];
    [exists 0%Z; reflexivity |].
  split; [exact Hc |]. split; [| split].
  - unfold tag_hash. rewrite <- code_units_length.
    cbn [Z.abs] in Hb. lia.
  - unfold hue. pose proof (Z.rem_bound_abs (tag_hash tagName) 360 ltac:(lia)) as H.
    lia.
  - reflexivity.
Qed.

Lemma handleOpenTagEditor_id (g : KnowledgeGraph) (sheetName : string) (type : NodeType)
    (address : string) :
  node_id (handleOpenTagEditor g sheetName type address)
  = element_id type sheetName address.
Proof.
  unfold handleOpenTagEditor.
  destruct (find_node (nodes g) (element_id type sheetName address)) as [[k n] |] eqn:Hfind;
    [| reflexivity].
  apply find_node_Some_In in Hfind as [_ Hid]. exact Hid.
Qed.

(** After a save the first node with the owner's id carries the new
    tags. *)
Lemma find_owner_saveTags (e : Node) (g : KnowledgeGraph) (newTags : list string) :
  exists k n, find_node (nodes (saveTags e g newTags)) (node_id e) = Some (k, n)
              /\ node_tags n = Some newTags.
Proof.
  set (o := node_id e).
  destruct (owner_slot_find e g o (or_intror eq_refl)) as (n0 & Hfind0 & _).
  destruct (fold_add_node_app (tagsToAdd (owner_tags g o) newTags)
              (fst (owner_slot e g o))) as (extra & Hext & _).
  exists (snd (owner_slot e g o)), (set_tags newTags n0). split; [| reflexivity].
  unfold saveTags. fold o. rewrite (handleSaveTags_eq e g o newTags). cbn [nodes].
  apply find_node_alter. rewrite Hext. apply list_find_app_l. exact Hfind0.
Qed.

(** A save leaves the first node of every other id where it is. *)
Lemma find_other_saveTags (e : Node) (g : KnowledgeGraph) (newTags : list string)
    (id : string) (k : nat) (n : Node) :
  id <> node_id e ->
  find_node (nodes g) id = Some (k, n) ->
  find_node (nodes (saveTags e g newTags)) id = Some (k, n).
Proof.
  intros Hne Hfind. unfold find_node in *.
  apply list_find_Some in Hfind as (Hk & Hid & Hleast).
  apply list_find_Some.
  destruct (nodes_kept e g newTags k n Hk) as (n' & Hk' & [-> | [_ Heq]]);
    [| congruence].
  split; [exact Hk' |]. split; [exact Hid |].
  intros j y Hj Hlt.
  assert (Hjl : j < length (nodes g)) by (apply lookup_lt_Some in Hk; lia).
  destruct (lookup_lt_is_Some_2 (nodes g) j Hjl) as [m Hm].
  destruct (nodes_kept e g newTags j m Hm) as (m' & Hm' & Hcase).
  rewrite Hj in Hm'. injection Hm' as ->.
  destruct Hcase as [-> | [-> _]]; cbn [set_tags node_id]; exact (Hleast j m Hm Hlt).
Qed.

(** X21. The tags saved in the tag editor are the tags the grid shows:
    when the editor is opened on a cell, row, column or sheet of a
    sheet with a non-empty name and the tags are saved on the same
    graph, [getNode] for that element finds, in the new graph, a node
    that carries exactly the saved tags; and the node [getNode] found for any other element
    of the sheet is found unchanged. *)
Theorem saved_tags_are_the_tags_shown (g : KnowledgeGraph) (sheetName : string)
    (type : NodeType) (address : string) (newTags : list string) :
  sheetName <> "" ->
  let e := handleOpenTagEditor g sheetName type address in
  let g' := saveTags e g newTags in
  (exists n, getNode g' type address sheetName = Some n /\ node_tags n = Some newTags) /\
  (forall type' address' n,
     element_id type' sheetName address' <> element_id type sheetName address ->
     getNode g type' address' sheetName = Some n ->
     getNode g' type' address' sheetName = Some n).
Proof.
  intros Hname e g'.
  assert (Hnonempty : String.eqb sheetName "" = false) by (apply String.eqb_neq; exact Hname).
  assert (Hid : node_id e = element_id type sheetName address)
    by apply handleOpenTagEditor_id.
  split.
  - destruct (find_owner_saveTags e g newTags) as (k & n & Hfind & Htags).
    exists n. split; [| exact Htags].
    unfold getNode. rewrite Hnonempty, <- Hid. fold g'. unfold g'. rewrite Hfind.
    reflexivity.
  - intros type' address' n Hother. unfold getNode. rewrite Hnonempty.
    destruct (find_node (nodes g) (element_id type' sheetName address')) as [[k m] |] eqn:Hfind;
      [| discriminate].
    cbn. intros [= ->].
    rewrite (find_other_saveTags e g newTags _ k n); [reflexivity | congruence | exact Hfind].
Qed.

(** *** The tag editor *)

Lemma trim_start_suffix (l : list ascii) :
  exists ws, l = ws ++ trim_start l.
Proof.
  induction l as [| c l [ws IH]]; [exists []; reflexivity |].
  cbn [trim_start]. destruct (JS.is_whitespace c).
  - exists (c :: ws). cbn [app]. f_equal. exact IH.
  - exists []. reflexivity.
Qed.

Lemma trim_start_fixed (l : list ascii) :
  trim_start l = l <->
  match l with
  | [] => True
  | c :: _ => JS.is_whitespace c = false
  end.
Proof.
  destruct l as [| c l]; [cbn; tauto |]. cbn [trim_start].
  destruct (JS.is_whitespace c) eqn:Hc; [| tauto].
  split; [| discriminate]. intros Heq.
  destruct (trim_start_suffix l) as [ws Hws].
  pose proof (f_equal length Heq) as H1. pose proof (f_equal length Hws) as H2.
  rewrite length_app in H2. cbn [length] in H1. lia.
Qed.

Lemma trim_start_idem (l : list ascii) : trim_start (trim_start l) = trim_start l.
Proof.
  induction l as [| c l IH]; [reflexivity |]. cbn [trim_start].
  destruct (JS.is_whitespace c) eqn:Hc; [exact IH |].
  cbn [trim_start]. rewrite Hc. reflexivity.
Qed.

Lemma trim_end_idem (l : list ascii) : trim_end (trim_end l) = trim_end l.
Proof. unfold trim_end. rewrite rev_involutive, trim_start_idem. reflexivity. Qed.

Lemma trim_start_trim_end (l : list ascii) :
  trim_start l = l -> trim_start (trim_end l) = trim_end l.
Proof.
  intros Hl. apply trim_start_fixed.
  destruct (trim_start_suffix (rev l)) as [ws Hws].
  assert (Ha : l = trim_end l ++ rev ws).
  { unfold trim_end. rewrite <- rev_app_distr, <- Hws, rev_involutive. reflexivity. }
  destruct (trim_end l) as [| c rest]; [exact I |].
  apply trim_start_fixed in Hl. rewrite Ha in Hl. exact Hl.
Qed.

Lemma trim_idem (s : string) : trim (trim s) = trim s.
Proof.
  unfold trim. rewrite list_ascii_of_string_of_list_ascii.
  rewrite (trim_start_trim_end _ (trim_start_idem _)), trim_end_idem. reflexivity.
Qed.

Lemma NoDup_addTag (tags : list string) (tag : string) :
  NoDup tags -> NoDup (addTag tags tag).
Proof.
  intros Hnd. unfold addTag.
  destruct (String.eqb tag ""); cbn [negb andb]; [exact Hnd |].
  destruct (JS.includes tags tag) eqn:Hi; cbn [negb]; [exact Hnd |].
  apply NoDup_app. split; [exact Hnd |]. split; [| apply NoDup_singleton].
  intros x Hx Hx'. apply list_elem_of_In in Hx. apply list_elem_of_singleton in Hx'. subst x.
  apply includes_false in Hi. contradiction.
Qed.

Lemma In_addTag (tags : list string) (tag t : string) :
  In t (addTag tags tag) -> In t tags \/ (t = tag /\ tag <> "").
Proof.
  unfold addTag. destruct (String.eqb_spec tag "") as [-> | Hne]; cbn [negb andb];
    [left; assumption |].
  destruct (JS.includes tags tag); cbn [negb]; [left; assumption |].
  rewrite in_app_iff. cbn [In]. intros [H | [<- | []]]; [left; exact H | right; split; auto].
Qed.

Lemma NoDup_removeTag (tags : list string) (tag : string) :
  NoDup tags -> NoDup (removeTag tags tag).
Proof.
  unfold removeTag. induction 1 as [| x l Hx Hnd IH]; cbn [List.filter]; [constructor |].
  destruct (negb (String.eqb x tag)); [| exact IH].
  constructor; [| exact IH].
  intros Hin%list_elem_of_In. apply filter_In in Hin as [Hin _].
  apply Hx, list_elem_of_In, Hin.
Qed.

Lemma edit_invariant (actions : list EditorAction) : forall tags : list string,
  NoDup tags ->
  NoDup (fold_left edit actions tags) /\
  forall t, In t (fold_left edit actions tags) ->
    In t tags
    \/ (In (Suggest t) actions /\ t <> "")
    \/ (exists v, In (Typed v) actions /\ t = trim v /\ t <> "").
Proof.
  induction actions as [| a actions IH]; intros tags Hnd; cbn [fold_left].
  - split; [exact Hnd | intros t Ht; left; exact Ht].
  - assert (Hnd1 : NoDup (edit tags a)).
    { destruct a; cbn [edit]; [apply NoDup_addTag | apply NoDup_addTag | apply NoDup_removeTag];
        exact Hnd. }
    destruct (IH (edit tags a) Hnd1) as [Hnd2 Hin2]. split; [exact Hnd2 |].
    intros t Ht. destruct (Hin2 t Ht) as [H | [[H Hne] | (v & H & Hv)]].
    + destruct a as [tag | inputValue | tag]; cbn [edit] in H.
      * apply In_addTag in H as [H | [-> Hne]]; [left; exact H |].
        right. left. split; [left; reflexivity | exact Hne].
      * apply In_addTag in H as [H | [-> Hne]]; [left; exact H |].
        right. right. exists inputValue. split; [left; reflexivity | split; [reflexivity | exact Hne]].
      * left. unfold removeTag in H. apply filter_In in H as [H _]. exact H.
    + right. left. split; [right; exact H | exact Hne].
    + right. right. exists v. split; [right; exact H | exact Hv].
Qed.

(** X22. The tag list of the editor stays free of duplicates: starting
    from a node whose tags are pairwise different, whatever is added
    and removed, the tags remain pairwise different. Every tag of the
    list was a tag of the node, a suggestion picked, or a typed text;
    the latter two are never empty, and a typed tag is trimmed (it has
    no white space at either end). *)
Theorem editor_keeps_tags_distinct (node : Node) (actions : list EditorAction) :
  NoDup (default [] (node_tags node)) ->
  NoDup (edited node actions) /\
  (forall t, In t (edited node actions) ->
     In t (default [] (node_tags node))
     \/ (In (Suggest t) actions /\ t <> "")
     \/ (exists v, In (Typed v) actions /\ t = trim v /\ t <> "" /\ trim t = t)).
Proof.
  intros Hnd. destruct (edit_invariant actions _ Hnd) as [H1 H2].
  split; [exact H1 |]. intros t Ht.
  destruct (H2 t Ht) as [H | [H | (v & H & Hv & Hne)]]; [left; exact H | right; left; exact H |].
  right. right. exists v. repeat split; try assumption.
  rewrite Hv. apply trim_idem.
Qed.

(** *** The sheets of the grid *)

Section Handlers.

Variable Number_ : string -> JSON.number.
Variable plus : Z -> Z -> Z.
Variable quotient : Z -> Z -> JS.Scalar.

Local Abbreviation act := (GridView.act Number_ plus quotient).
Local Abbreviation handlePivot := (GridView.handlePivot plus quotient).

Lemma act_length (initialSheets : list SheetData) (st : GridState) (a : Action) :
  length initialSheets <= length (gridData st) ->
  length initialSheets <= length (gridData (act initialSheets st a)).
Proof.
  intros Hle. unfold GridView.act.
  destruct (currentSheet st) as [sheet |] eqn:Hcur; [| exact Hle].
  destruct a as [c d | c op v | i v agg | | index].
  - unfold handleSort. rewrite Hcur. cbn [gridData]. rewrite length_insert. exact Hle.
  - unfold handleFilter. rewrite Hcur. cbn [gridData]. rewrite length_insert. exact Hle.
  - unfold GridView.handlePivot. rewrite Hcur.
    destruct (PythonService.createPivotTable plus quotient sheet i v agg) as [p |];
      cbn [Cache.bind gridData]; [rewrite length_app; lia | exact Hle].
  - cbn [gridData]. lia.
  - destruct (Nat.ltb index (length (gridData st))); exact Hle.
Qed.

Lemma run_length (initialSheets : list SheetData) (actions : list Action) :
  forall st, length initialSheets <= length (gridData st) ->
  length initialSheets <= length (gridData (fold_left (act initialSheets) actions st)).
Proof.
  induction actions as [| a actions IH]; intros st Hle; cbn [fold_left]; [exact Hle |].
  apply IH, act_length, Hle.
Qed.

Lemma act_keeps_sheet (initialSheets : list SheetData) (st : GridState) (a : Action) :
  a <> ResetData -> is_Some (currentSheet st) ->
  is_Some (currentSheet (act initialSheets st a)).
Proof.
  intros Ha [sheet Hcur]. unfold GridView.act. rewrite Hcur.
  assert (Hlt : activeSheet st < length (gridData st))
    by (eapply lookup_lt_Some; exact Hcur).
  destruct a as [c d | c op v | i v agg | | index]; [| | | contradiction |].
  - unfold handleSort. rewrite Hcur. unfold currentSheet. cbn [gridData activeSheet].
    apply lookup_lt_is_Some_2. rewrite length_insert. exact Hlt.
  - unfold handleFilter. rewrite Hcur. unfold currentSheet. cbn [gridData activeSheet].
    apply lookup_lt_is_Some_2. rewrite length_insert. exact Hlt.
  - unfold GridView.handlePivot. rewrite Hcur.
    destruct (PythonService.createPivotTable plus quotient sheet i v agg) as [p |];
      cbn [Cache.bind]; [| exists sheet; exact Hcur].
    unfold currentSheet. cbn [gridData activeSheet].
    apply lookup_lt_is_Some_2. rewrite length_app. cbn [length]. lia.
  - destruct (Nat.ltb_spec index (length (gridData st))) as [Hi | _];
      [| exists sheet; exact Hcur].
    unfold currentSheet. cbn [gridData activeSheet]. apply lookup_lt_is_Some_2. exact Hi.
Qed.

Lemma run_stuck (initialSheets : list SheetData) (actions : list Action) (st : GridState) :
  currentSheet st = None -> fold_left (act initialSheets) actions st = st.
Proof.
  intros Hcur. induction actions as [| a actions IH]; [reflexivity |].
  cbn [fold_left]. unfold GridView.act at 2. rewrite Hcur. exact IH.
Qed.

(** X23. Sorting, filtering, pivoting and selecting a tab always leave a
    current sheet to show. A pivot appends its sheet and makes it the
    current one; pressing "Reset Data" after that puts the initial
    sheets back but leaves the active index behind them: there is no
    current sheet any more, the component renders no control, and no
    action on the mounted component changes that (the index goes back
    to 0 only with new initial sheets or a new mount). *)
Theorem reset_after_pivot_loses_the_sheet (initialSheets : list SheetData)
    (actions : list Action) :
  let st := fold_left (act initialSheets) actions (initialState initialSheets) in
  (initialSheets <> [] -> Forall (fun a => a <> ResetData) actions ->
   is_Some (currentSheet st)) /\
  (forall i v aggregation st',
     handlePivot st i v aggregation = Cache.Returned st' ->
     (exists pivotSheet,
        gridData st' = gridData st ++ [pivotSheet] /\ currentSheet st' = Some pivotSheet) /\
     let lost := act initialSheets st' ResetData in
     gridData lost = initialSheets /\
     currentSheet lost = None /\
     forall more, fold_left (act initialSheets) more lost = lost).
Proof.
  intros st. split.
  - intros Hne Hall. unfold st.
    assert (H0 : is_Some (currentSheet (initialState initialSheets))).
    { destruct initialSheets as [| s0 rest]; [contradiction |]. exists s0. reflexivity. }
    clear Hne. revert H0. generalize (initialState initialSheets).
    induction actions as [| a actions IH]; intros st0 H0; cbn [fold_left]; [exact H0 |].
    apply Forall_cons in Hall as [Ha Hall].
    apply (IH Hall). apply act_keeps_sheet; assumption.
  - intros i v aggregation st' Hp.
    assert (Hlen : length initialSheets <= length (gridData st)).
    { unfold st. apply run_length. cbn. lia. }
    unfold GridView.handlePivot in Hp.
    destruct (currentSheet st) as [sheet |] eqn:Hcur; [| discriminate].
    destruct (PythonService.createPivotTable plus quotient sheet i v aggregation) as [p |];
      [| discriminate].
    cbn [Cache.bind] in Hp. injection Hp as <-.
    assert (Hcur' : currentSheet {| gridData := gridData st ++ [p];
                                    activeSheet := length (gridData st) |} = Some p).
    { unfold currentSheet. cbn [gridData activeSheet].
      rewrite lookup_app_r by lia. rewrite Nat.sub_diag. reflexivity. }
    split; [exists p; split; [reflexivity | exact Hcur'] |].
    unfold GridView.act at 1. rewrite Hcur'. cbn [gridData activeSheet].
    assert (Hlost : currentSheet {| gridData := initialSheets;
                                    activeSheet := length (gridData st) |} = None).
    { unfold currentSheet. cbn [gridData activeSheet]. apply lookup_ge_None. exact Hlen. }
    split; [reflexivity |]. split; [exact Hlost |].
    intros more. apply run_stuck. exact Hlost.
Qed.

End Handlers.

Lemma saved_tags_are_the_tags_shown_witness :
  exists n,
    getNode (saveTags (handleOpenTagEditor empty_graph "Sheet1" Cell "A1") empty_graph ["a"])
      Cell "A1" "Sheet1" = Some n
    /\ node_tags n = Some ["a"].
Proof.
  destruct (saved_tags_are_the_tags_shown empty_graph "Sheet1" Cell "A1" ["a"]) as (H & _).
  - discriminate.
  - exact H.
Defined.

Lemma editor_keeps_tags_distinct_witness :
  NoDup (edited cellA1 [Typed " Revenue "; Suggest "x"; Remove "x"; Typed "Revenue"]).
Proof.
  destruct (editor_keeps_tags_distinct cellA1
              [Typed " Revenue "; Suggest "x"; Remove "x"; Typed "Revenue"]) as (H & _).
  - vm_compute. constructor.
  - exact H.
Defined.

Lemma reset_after_pivot_loses_the_sheet_witness :
  match GridView.handlePivot PythonService.double_plus PythonService.integer_part
          (initialState [PythonService.sales]) 0 1 PythonService.agg_sum with
  | Cache.Returned st' =>
      currentSheet (GridView.act PythonService.decimal PythonService.double_plus
                      PythonService.integer_part [PythonService.sales] st' ResetData)
      = None
  | Cache.Thrown => False
  end.
Proof.
  destruct (GridView.handlePivot PythonService.double_plus PythonService.integer_part
              (initialState [PythonService.sales]) 0 1 PythonService.agg_sum)
    as [st' |] eqn:Hp; [| vm_compute in Hp; discriminate Hp].
  destruct (reset_after_pivot_loses_the_sheet PythonService.decimal
              PythonService.double_plus PythonService.integer_part [PythonService.sales] [])
    as (_ & H).
  destruct (H 0 1 PythonService.agg_sum st' Hp) as (_ & _ & Hlost & _).
  exact Hlost.
Defined.

End GridViewProofs.

(** ** The parser *)

Module ParserProofs.
Import Transform ExcelParser.

Section Parser.

Variable decode_range : string -> Range.
Variable encode_cell : nat -> nat -> string.

Local Abbreviation parseSheet := (ExcelParser.parseSheet decode_range encode_cell).
Local Abbreviation parseWorkbook := (ExcelParser.parseWorkbook decode_range encode_cell).
Local Abbreviation sheetCellData := (ExcelParser.sheetCellData encode_cell).
Local Abbreviation cell_at := (ExcelParser.cell_at encode_cell).

(** A sheet the parser makes is the minimal grid or the grid of a
    range. *)
Lemma parseSheet_cases (workbook : WorkBook) (sheetName : string) :
  parseSheet workbook sheetName
  = {| name := sheetName;
       data := [[ {| address := "A1"; value := Some (JS.Str ""); formula := None |} ]] |}
  \/ exists worksheet text,
       Sheets workbook !! sheetName = Some worksheet /\ ref worksheet = Some text
       /\ text <> ""
       /\ parseSheet workbook sheetName
          = {| name := sheetName; data := sheetCellData worksheet (decode_range text) |}.
Proof.
  unfold ExcelParser.parseSheet.
  destruct (Sheets workbook !! sheetName) as [worksheet |]; [| left; reflexivity].
  destruct (ref worksheet) as [text |] eqn:Href; [| left; reflexivity].
  destruct (String.eqb_spec text "") as [-> | Hne]; [left; reflexivity |].
  right. exists worksheet, text. repeat split; assumption.
Qed.

Lemma sheetCellData_rows (worksheet : WorkSheet) (range : Range) :
  length (sheetCellData worksheet range) = S (e_r range) - s_r range
  /\ Forall (fun row => length row = S (e_c range) - s_c range)
            (sheetCellData worksheet range).
Proof.
  unfold ExcelParser.sheetCellData. split.
  - rewrite length_map, length_seq. reflexivity.
  - apply Forall_forall. intros row Hin%list_elem_of_In.
    apply in_map_iff in Hin as (R & <- & _). rewrite length_map, length_seq. reflexivity.
Qed.

Lemma sheetCellData_lookup (worksheet : WorkSheet) (range : Range) (i j : nat) :
  s_r range + i <= e_r range -> s_c range + j <= e_c range ->
  exists row, sheetCellData worksheet range !! i = Some row
              /\ row !! j = Some (cell_at worksheet (s_r range + i) (s_c range + j)).
Proof.
  intros Hi Hj. unfold ExcelParser.sheetCellData. eexists. split.
  - rewrite list_lookup_fmap, lookup_seq_lt by lia. reflexivity.
  - rewrite list_lookup_fmap, lookup_seq_lt by lia. reflexivity.
Qed.

(** X24. The sheets the parser makes are grids, one for each sheet name
    of the workbook, in order and under that name: all rows of a sheet
    have the same number of cells, and the cell at row [i] and column
    [j] of a sheet with a range is the cell object at the address the
    library encodes for that position of the range (its formatted text
    when it has one, else its raw value, else [null]). A sheet whose
    range is decoded with its last row above its first gets no row at
    all, and [createPivotTable] throws on it; every other parsed sheet
    has a header row, and [createPivotTable] returns. *)
Theorem parsed_sheets_are_grids (workbook : WorkBook) :
  map name (parseWorkbook workbook) = SheetNames workbook /\
  Forall (fun sheet => exists width,
            Forall (fun row => length row = width) (data sheet))
         (parseWorkbook workbook) /\
  (forall sheetName worksheet text i j,
     Sheets workbook !! sheetName = Some worksheet -> ref worksheet = Some text ->
     text <> "" ->
     s_r (decode_range text) + i <= e_r (decode_range text) ->
     s_c (decode_range text) + j <= e_c (decode_range text) ->
     exists row,
       data (parseSheet workbook sheetName) !! i = Some row /\
       row !! j = Some (cell_at worksheet (s_r (decode_range text) + i)
                                          (s_c (decode_range text) + j))) /\
  (forall sheetName,
     let upside_down :=
       exists worksheet text,
         Sheets workbook !! sheetName = Some worksheet /\ ref worksheet = Some text
         /\ text <> "" /\ e_r (decode_range text) < s_r (decode_range text) in
     (upside_down ->
      data (parseSheet workbook sheetName) = [] /\
      forall plus quotient i v aggregation,
        PythonService.createPivotTable plus quotient (parseSheet workbook sheetName)
          i v aggregation = Cache.Thrown) /\
     (~ upside_down ->
      data (parseSheet workbook sheetName) <> [] /\
      forall plus quotient i v aggregation,
        PythonService.createPivotTable plus quotient (parseSheet workbook sheetName)
          i v aggregation <> Cache.Thrown)).
Proof.
  unfold ExcelParser.parseWorkbook. split; [| split; [| split]].
  - rewrite map_map. rewrite <- (map_id (SheetNames workbook)) at 2.
    apply map_ext. intros sheetName.
    destruct (parseSheet_cases workbook sheetName) as [-> | (ws & t & _ & _ & _ & ->)];
      reflexivity.
  - apply Forall_forall. intros sheet Hin%list_elem_of_In.
    apply in_map_iff in Hin as (sheetName & <- & _).
    destruct (parseSheet_cases workbook sheetName) as [-> | (ws & t & _ & _ & _ & ->)].
    + exists 1. repeat constructor.
    + eexists. exact (proj2 (sheetCellData_rows ws (decode_range t))).
  - intros sheetName worksheet text i j Hws Href Hne Hi Hj.
    unfold ExcelParser.parseSheet. rewrite Hws, Href.
    apply String.eqb_neq in Hne. rewrite Hne. cbn [data].
    apply sheetCellData_lookup; assumption.
  - intros sheetName.
    match goal with |- (?U -> _) /\ _ => set (upside_down := U) end.
    assert (Hrows : data (parseSheet workbook sheetName) = [] <-> upside_down).
    { unfold upside_down. split.
      - intros Hnil.
        destruct (parseSheet_cases workbook sheetName) as [Hp | (ws & t & Hws & Href & Hne & Hp)];
          rewrite Hp in Hnil; [discriminate |].
        exists ws, t. repeat split; try assumption.
        pose proof (proj1 (sheetCellData_rows ws (decode_range t))) as Hlen.
        cbn [data] in Hnil. rewrite Hnil in Hlen. cbn [length] in Hlen. lia.
      - intros (ws & t & Hws & Href & Hne & Hlt).
        unfold ExcelParser.parseSheet. rewrite Hws, Href.
        apply String.eqb_neq in Hne. rewrite Hne. cbn [data].
        apply length_zero_iff_nil.
        rewrite (proj1 (sheetCellData_rows ws (decode_range t))). lia. }
    split.
    + intros Hup. apply Hrows in Hup. split; [exact Hup |].
      intros plus quotient i v aggregation. unfold PythonService.createPivotTable.
      rewrite Hup. reflexivity.
    + intros Hup.
      assert (Hdata : data (parseSheet workbook sheetName) <> [])
        by (intros Hnil; apply Hup, Hrows, Hnil).
      split; [exact Hdata |].
      intros plus quotient i v aggregation. unfold PythonService.createPivotTable.
      destruct (data (parseSheet workbook sheetName)); [contradiction | discriminate].
Qed.

End Parser.

Lemma parsed_sheets_are_grids_witness :
  map data (ExcelParser.parseWorkbook sample_decode_range sample_encode_cell sample_workbook)
  = [ [ [cell "A1" (Some (JS.Str "Item")); cell "B1" None];
        [cell "A2" None;
         {| address := "B2"; value := Some (JS.Str "7.00"); formula := Some "=3+4" |}] ];
      [ [cell "A1" (Some (JS.Str ""))] ] ]
  /\ PythonService.createPivotTable PythonService.double_plus PythonService.integer_part
       (ExcelParser.parseSheet sample_decode_range sample_encode_cell reversed_workbook
          "Upside") 0 0 PythonService.agg_count
     = Cache.Thrown.
Proof.
  split; [vm_compute; reflexivity |].
  destruct (parsed_sheets_are_grids sample_decode_range sample_encode_cell reversed_workbook)
    as (_ & _ & _ & H).
  destruct (H "Upside") as [Hup _].
  apply Hup.
  exists {| ref := Some "A5:A1"; cells := ∅ |}, "A5:A1".
  split; [reflexivity |]. split; [reflexivity |]. split; [discriminate |].
  vm_compute. lia.
Defined.

End ParserProofs.

(** ** Sorting again *)

Module SortAgainProofs.
Import Transform SortProofs.

(** X25. When the data rows have pairwise different values in the sort
    column and that column holds only numbers or only strings, the
    result of [sortData] depends on the rows and not on their order:
    sorting a sheet that was sorted before, by any column and in any
    direction, gives what sorting the original sheet gives; in
    particular sorting twice the same way changes nothing. *)
Theorem sorting_forgets_earlier_sorts (sheet : SheetData) (col : nat) (d : Direction)
    (col' : nat) (d' : Direction) :
  NoDup (map (cell_value col) (tail (data sheet))) ->
  numeric_column col (tail (data sheet)) \/ text_column col (tail (data sheet)) ->
  sortData (sortData sheet col' d') col d = sortData sheet col d
  /\ sortData (sortData sheet col d) col d = sortData sheet col d.
Proof.
  intros Hnd Hcol.
  assert (H : forall c2 d2, sortData (sortData sheet c2 d2) col d = sortData sheet col d).
  { intros c2 d2. unfold sortData.
    destruct (data sheet) as [| header rows] eqn:Hd; [rewrite Hd; reflexivity |].
    cbn [data name tail] in *. f_equal. f_equal.
    set (cmp := compare_rows col d). set (cmp2 := compare_rows c2 d2).
    assert (Hsto : strict_total_on cmp rows)
      by (apply TransformProofs.compare_rows_strict_total; assumption).
    assert (Hrows : NoDup rows) by (apply (NoDup_fmap_1 (cell_value col)); exact Hnd).
    pose proof (sort_perm cmp2 rows) as Hp.
    apply (sorted_unique (before cmp)).
    - apply sort_sorted.
      + apply (strict_total_on_incl cmp rows); [| exact Hsto].
        intros a. apply Permutation_in. exact Hp.
      + rewrite Hp. exact Hrows.
    - apply sort_sorted; assumption.
    - rewrite !sort_perm. reflexivity.
    - rewrite !sort_perm. exact Hrows.
    - intros a b Ha Hb Hne.
      apply (Permutation_in _ (sort_perm cmp (JS.sort cmp2 rows))) in Ha, Hb.
      apply (Permutation_in _ Hp) in Ha, Hb.
      apply (sto_asym cmp rows Hsto); assumption. }
  split; apply H.
Qed.

Lemma sorting_forgets_earlier_sorts_witness :
  sortData (sortData three_amounts 0 desc) 0 asc = sortData three_amounts 0 asc.
Proof.
  apply (sorting_forgets_earlier_sorts three_amounts 0 asc 0 desc).
  - cbn. repeat constructor; rewrite ?list_elem_of_In; cbn; intuition discriminate.
  - left. repeat constructor; intros s; discriminate.
Defined.

End SortAgainProofs.

(** ** Saving tags keeps the graph well formed *)

Module WellFormedProofs.
Import Graph GraphProofs GridView GridViewProofs.

Lemma ids_kept (e : Node) (g : KnowledgeGraph) (newTags : list string) (id : string) :
  In id (map node_id (nodes g)) -> In id (map node_id (nodes (saveTags e g newTags))).
Proof.
  intros (n & Hid & Hin)%in_map_iff.
  apply list_elem_of_In, list_elem_of_lookup in Hin as [k Hk].
  destruct (nodes_kept e g newTags k n Hk) as (n' & Hk' & Hcase).
  apply in_map_iff. exists n'. split.
  - destruct Hcase as [-> | [-> _]]; exact Hid.
  - apply list_elem_of_In. eapply list_elem_of_lookup_2. exact Hk'.
Qed.

Lemma added_tag_ids (e : Node) (g : KnowledgeGraph) (newTags : list string) (t : string) :
  In t (tagsToAdd (owner_tags g (node_id e)) newTags) ->
  In (tagId t) (map node_id (nodes (saveTags e g newTags))).
Proof.
  intros Hin. unfold saveTags. rewrite handleSaveTags_eq. cbn [nodes].
  rewrite ids_alter. apply fold_add_node_has. exact Hin.
Qed.

Lemma owner_id_present (e : Node) (g : KnowledgeGraph) (newTags : list string) :
  In (node_id e) (map node_id (nodes (saveTags e g newTags))).
Proof.
  destruct (find_owner_saveTags e g newTags) as (k & n & Hfind & _).
  apply find_node_Some_In in Hfind as [Hin Hid].
  apply in_map_iff. exists n. split; assumption.
Qed.

(** X26. Saving tags never loses a node: every node id of the graph is
    still there afterwards, and so is the owner's. Unique node ids
    stay unique. And if every link of the graph starts and ends at a
    node of the graph, this still holds afterwards: the HAS_TAG links
    the save adds lead from the owner to Tag nodes that are in the
    graph. *)
Theorem saveTags_keeps_the_graph_well_formed (e : Node) (g : KnowledgeGraph)
    (newTags : list string) :
  let g' := saveTags e g newTags in
  (forall id, In id (map node_id (nodes g)) -> In id (map node_id (nodes g'))) /\
  In (node_id e) (map node_id (nodes g')) /\
  (NoDup (map node_id (nodes g)) -> NoDup (map node_id (nodes g'))) /\
  (attached g -> attached g').
Proof.
  intros g'. split; [apply ids_kept |]. split; [apply owner_id_present |].
  split; [apply NoDup_saveTags |].
  intros Hatt l Hl. unfold g' in Hl. rewrite links_saveTags in Hl. cbv zeta in Hl.
  apply in_app_iff in Hl as [Hl | Hl]; apply filter_In in Hl as [Hl _].
  - destruct (Hatt l Hl) as [Hs Ht]. split; apply ids_kept; assumption.
  - apply in_map_iff in Hl as (t & <- & Ht). cbn [tag_link link_source link_target].
    split; [apply owner_id_present | apply added_tag_ids; exact Ht].
Qed.

Lemma saveTags_keeps_the_graph_well_formed_witness :
  attached (saveTags cellA1 tagged_graph ["b"; "c"]).
Proof.
  destruct (saveTags_keeps_the_graph_well_formed cellA1 tagged_graph ["b"; "c"])
    as (_ & _ & _ & H).
  apply H. intros l Hl. vm_compute in Hl.
  destruct Hl as [<- | [<- | []]]; vm_compute; tauto.
Defined.

End WellFormedProofs.
